(** * KnowCLIP: deterministic ontology grounding

    A shallow embedding of [src/knowledge/ontology_grounding.py]
    (class [UMLSExactMatcher]) and the properties its specification states
    about it; then of the steps around it in
    [src/pipelines/hybrid_kg_pipeline.py] ([clean_report], [collect_mentions],
    [enrich_entities_with_cui], the coverage table) and of the index and edge
    structure of [src/knowledge/graph_builder.py], whose tensors of node
    features are left abstract.

    Text model.  A Python [str] is modelled as a Rocq [string]; one [ascii]
    stands for one code point below 256, and the character classes used by the
    source ([str.lower], [str.strip], [str.split], and the regular-expression
    classes [\s], [\d], [\w]) are the ones Python 3 gives on that range.
    Code points from 256 on are outside the model. *)

From Stdlib Require Import Ascii String NArith ZArith List Permutation Sorted Bool Lia.
From stdpp Require Import gmap strings list sorting pretty.

Local Open Scope string_scope.
Local Open Scope list_scope.

#[local] Arguments String.append !s1 s2 : simpl nomatch.

(* ================================================================== *)
(** * Characters and strings *)
(* ================================================================== *)

Module Text.

Definition code (c : ascii) : N := N_of_ascii c.

Definition between (lo hi : N) (c : ascii) : bool :=
  ((lo <=? code c) && (code c <=? hi))%N.

(** [\s] of [re] on [str], and the characters [str.strip] and [str.split]
    remove: TAB..CR, FS..US, space, NEL and NBSP. *)
Definition is_space (c : ascii) : bool :=
  between 9 13 c || between 28 32 c || (code c =? 133)%N || (code c =? 160)%N.

(** [[0-9]], which is also [\d] below code point 256. *)
Definition is_digit (c : ascii) : bool := between 48 57 c.

(** [[a-z]]. *)
Definition is_az (c : ascii) : bool := between 97 122 c.

(** [\w] of [re] on [str] below code point 256: alphanumerics and [_]. *)
Definition is_word (c : ascii) : bool :=
  is_digit c || between 65 90 c || (code c =? 95)%N || is_az c
  || (code c =? 170)%N || between 178 179 c || (code c =? 181)%N
  || between 185 186 c || between 188 190 c
  || between 192 214 c || between 216 246 c || between 248 255 c.

(** [str.lower] on one character. *)
Definition lower_char (c : ascii) : ascii :=
  if between 65 90 c || (between 192 222 c && negb (code c =? 215)%N)
  then ascii_of_N (code c + 32) else c.

Fixpoint smap (f : ascii -> ascii) (s : string) : string :=
  match s with
  | EmptyString => EmptyString
  | String c s' => String (f c) (smap f s')
  end.

Fixpoint sfilter (p : ascii -> bool) (s : string) : string :=
  match s with
  | EmptyString => EmptyString
  | String c s' => if p c then String c (sfilter p s') else sfilter p s'
  end.

Fixpoint sforall (p : ascii -> bool) (s : string) : bool :=
  match s with
  | EmptyString => true
  | String c s' => p c && sforall p s'
  end.

(** [s.lower()] *)
Definition lower (s : string) : string := smap lower_char s.

Fixpoint lstrip (s : string) : string :=
  match s with
  | EmptyString => EmptyString
  | String c s' => if is_space c then lstrip s' else s
  end.

Fixpoint rstrip (s : string) : string :=
  match s with
  | EmptyString => EmptyString
  | String c s' =>
      match rstrip s' with
      | EmptyString => if is_space c then EmptyString else String c EmptyString
      | r => String c r
      end
  end.

(** [s.strip()] *)
Definition strip (s : string) : string := rstrip (lstrip s).

(** [re.sub(r"\s+", " ", s)]: every maximal run of whitespace becomes one
    space.  [in_run] tells that the previous character was whitespace. *)
Fixpoint collapse_from (in_run : bool) (s : string) : string :=
  match s with
  | EmptyString => EmptyString
  | String c s' =>
      if is_space c
      then if in_run then collapse_from true s'
           else String " " (collapse_from true s')
      else String c (collapse_from false s')
  end.

Definition collapse_ws (s : string) : string := collapse_from false s.

(** [s.split()]: the maximal runs of non-whitespace characters.  [cur] is the
    token being read. *)
Fixpoint split_from (cur : string) (s : string) : list string :=
  match s with
  | EmptyString => match cur with EmptyString => [] | _ => [cur] end
  | String c s' =>
      if is_space c
      then match cur with
           | EmptyString => split_from EmptyString s'
           | _ => cur :: split_from EmptyString s'
           end
      else split_from (cur +:+ String c EmptyString) s'
  end.

Definition split_ws (s : string) : list string := split_from EmptyString s.

(** [sep.join(l)] *)
Fixpoint join (sep : string) (l : list string) : string :=
  match l with
  | [] => EmptyString
  | [x] => x
  | x :: l' => x +:+ sep +:+ join sep l'
  end.

(** [s.split(sep)] for a one-character separator: always at least one
    field. *)
Fixpoint split_on (sep : ascii) (s : string) : list string :=
  match s with
  | EmptyString => [EmptyString]
  | String c s' =>
      if Ascii.eqb c sep then EmptyString :: split_on sep s'
      else match split_on sep s' with
           | [] => [String c EmptyString]
           | f :: fs => String c f :: fs
           end
  end.

(** [s.rstrip("\n")] *)
Fixpoint rstrip_nl (s : string) : string :=
  match s with
  | EmptyString => EmptyString
  | String c s' =>
      match rstrip_nl s' with
      | EmptyString =>
          if Ascii.eqb c "010"%char then EmptyString else String c EmptyString
      | r => String c r
      end
  end.

End Text.

Import Text.

(* ================================================================== *)
(** * Regular expressions of the source *)
(* ================================================================== *)

(** The fragment of [re] that [MEAS_RE] is written in.  Repetition is only
    ever applied to a character class. *)
Inductive regex : Type :=
| RBound                          (* \b *)
| RStr (lit : string)             (* literal text *)
| RSeq (r1 r2 : regex)            (* r1 r2 *)
| RAlt (r1 r2 : regex)            (* r1|r2 *)
| ROpt (r : regex)                (* (r)? *)
| RStar (p : ascii -> bool)       (* [p]* *)
| RPlus (p : ascii -> bool).      (* [p]+ *)

Definition word_opt (o : option ascii) : bool :=
  match o with Some c => is_word c | None => false end.

Definition next_char (s : string) : option ascii :=
  match s with EmptyString => None | String c _ => Some c end.

(** [\b]: exactly one of the two neighbours is a word character; the ends of
    the text count as non-word. *)
Definition at_boundary (prev : option ascii) (s : string) : bool :=
  xorb (word_opt prev) (word_opt (next_char s)).

(** Reads the literal [lit] at the front of [s]. *)
Fixpoint eat_lit (lit : string) (prev : option ascii) (s : string)
  : option (option ascii * string) :=
  match lit with
  | EmptyString => Some (prev, s)
  | String a lit' =>
      match s with
      | String c s' => if Ascii.eqb a c then eat_lit lit' (Some c) s' else None
      | EmptyString => None
      end
  end.

(** [star_from p prev s k]: some number of [p]-characters, then [k]. *)
Fixpoint star_from (p : ascii -> bool) (prev : option ascii) (s : string)
  (k : option ascii -> string -> bool) : bool :=
  k prev s ||
  match s with
  | String c s' => p c && star_from p (Some c) s' k
  | EmptyString => false
  end.

(** Backtracking matcher in continuation-passing style: [rmatch r prev s k]
    holds when [r] matches some prefix of [s] (the character before [s] being
    [prev]) and [k] accepts what is left. *)
Fixpoint rmatch (r : regex) (prev : option ascii) (s : string)
  (k : option ascii -> string -> bool) : bool :=
  match r with
  | RBound => at_boundary prev s && k prev s
  | RStr lit =>
      match eat_lit lit prev s with
      | Some (prev', s') => k prev' s'
      | None => false
      end
  | RSeq r1 r2 => rmatch r1 prev s (fun prev' s' => rmatch r2 prev' s' k)
  | RAlt r1 r2 => rmatch r1 prev s k || rmatch r2 prev s k
  | ROpt r1 => rmatch r1 prev s k || k prev s
  | RStar p => star_from p prev s k
  | RPlus p =>
      match s with
      | String c s' => p c && star_from p (Some c) s' k
      | EmptyString => false
      end
  end.

(** [bool(r.search(s))]: a match starting at some position of [s]. *)
Fixpoint rsearch_from (r : regex) (prev : option ascii) (s : string) : bool :=
  rmatch r prev s (fun _ _ => true) ||
  match s with
  | String c s' => rsearch_from r (Some c) s'
  | EmptyString => false
  end.

Definition rsearch (r : regex) (s : string) : bool := rsearch_from r None s.

(* ================================================================== *)
(** * The matcher: configuration and text normalisation *)
(* ================================================================== *)

Module UMLSExactMatcher.

Definition STOP : list string :=
  ["no"; "not"; "without"; "with"; "of"; "in"; "on"; "at"; "the"; "a"; "an";
   "and"; "or"; "to"; "for"].

Definition LATERAL : list string :=
  ["left"; "right"; "bilateral"; "bl"; "b"; "l"; "r"].

Definition SEVERITY : list string :=
  ["mild"; "mildly"; "moderate"; "moderately"; "severe"; "marked"; "slight";
   "small"; "tiny"; "minimal"; "possible"; "likely"].

(** [re.compile(r"\b\d+(\.\d+)?\s*(mm|cm|m)\b")] *)
Definition MEAS_RE : regex :=
  RSeq RBound
    (RSeq (RPlus is_digit)
       (RSeq (ROpt (RSeq (RStr ".") (RPlus is_digit)))
          (RSeq (RStar is_space)
             (RSeq (RAlt (RStr "mm") (RAlt (RStr "cm") (RStr "m")))
                RBound)))).

(** [KEYTYPE_PRIORITY.get(kt, 9)] *)
Definition KEYTYPE_PRIORITY (kt : string) : nat :=
  if String.eqb kt "full_norm" then 0
  else if String.eqb kt "full_can" then 1
  else if String.eqb kt "head" then 2
  else 9.

(** The attributes [__init__] stores.  [sab_preference] is optional because
    [_rank_candidate] tests it against [None]. *)
Record matcher : Type := {
  mrconso_path : string;
  sab_preference : option (list string);
  top_k : Z;
  use_mrsty_filter : bool;
  cui_to_tuis : gmap string (list string);
  anatomy_tuis : gset string;
  observation_tuis : gset string
}.

Definition DEFAULT_SAB_PREFERENCE : list string := ["SNOMEDCT_US"; "RXNORM"; "MSH"].

(** [x or d] on an optional list: [None] and the empty list are both falsy. *)
Definition or_list {A} (x : option (list A)) (d : list A) : list A :=
  match x with
  | Some (a :: l) => a :: l
  | _ => d
  end.

(** [__init__] *)
Definition init (path : string) (sab_pref : option (list string)) (k : Z)
  (use_filter : bool) (c2t : option (gmap string (list string)))
  (anat obs : option (list string)) : matcher :=
  {| mrconso_path := path;
     sab_preference := Some (or_list sab_pref DEFAULT_SAB_PREFERENCE);
     top_k := k;
     use_mrsty_filter := use_filter;
     cui_to_tuis := default ∅ c2t;
     anatomy_tuis := list_to_set (or_list anat []);
     observation_tuis := list_to_set (or_list obs []) |}.

(** [normalize_text] *)
Definition normalize_text (s : string) : string :=
  let s := strip (lower s) in
  let s := collapse_ws s in
  sfilter (fun c => is_az c || is_digit c || is_space c || Ascii.eqb c "-") s.

(** [canonicalize_surface] *)
Definition canonicalize_surface (s : string) : string :=
  let s := strip (lower s) in
  let s := smap (fun c => if Ascii.eqb c "-" || Ascii.eqb c "/" then " "%char else c) s in
  let s := smap (fun c => if is_az c || is_digit c || is_space c then c else " "%char) s in
  strip (collapse_ws s).

(** [is_measurement_like] *)
Definition is_measurement_like (s : string) : bool := rsearch MEAS_RE s.

(** [x in l] for a list or set literal of strings. *)
Definition mem (x : string) (l : list string) : bool := existsb (String.eqb x) l.

(** [l[-n:]] for [n > 0]. *)
Definition last_n {A} (n : nat) (l : list A) : list A := skipn (length l - n) l.

(** Python's stable [sorted] / [list.sort], as an insertion sort: an element
    goes in front of the first one it does not exceed, so equal keys keep the
    order of the input. *)
Section Sort.
Context {A : Type} (leb : A -> A -> bool).

Fixpoint insert_sorted (x : A) (l : list A) : list A :=
  match l with
  | [] => [x]
  | y :: l' => if leb x y then x :: l else y :: insert_sorted x l'
  end.

Fixpoint sort_by (l : list A) : list A :=
  match l with
  | [] => []
  | x :: l' => insert_sorted x (sort_by l')
  end.
End Sort.

(** [sorted(set(l))] on strings. *)
Definition sorted_set (l : list string) : list string :=
  sort_by String.leb (remove_dups l).

(** The sort key [(-len(x.split()), x)] of [head_candidates], compared. *)
Definition head_leb (x y : string) : bool :=
  let nx := length (split_ws x) in
  let ny := length (split_ws y) in
  Nat.ltb ny nx || (Nat.eqb nx ny && String.leb x y).

(** [head_candidates] *)
Definition head_candidates (canonical : string) : list string :=
  let toks := List.filter (fun t => negb (mem t STOP)) (split_ws canonical) in
  let toks := List.filter (fun t => negb (mem t LATERAL) && negb (mem t SEVERITY)) toks in
  let c1 := if Nat.leb 1 (length toks) then [join " " (last_n 1 toks)] else [] in
  let c2 := if Nat.leb 2 (length toks) then [join " " (last_n 2 toks)] else [] in
  let c3 := if Nat.leb 3 (length toks) then [join " " (last_n 3 toks)] else [] in
  sort_by head_leb (remove_dups (c1 ++ c2 ++ c3)).

(** What [build_keys] returns. *)
Record keys_info : Type := {
  canonical : string;
  is_measurement : bool;
  keys : list (string * string);      (* (key type, key) *)
  types_seen : list string
}.

Definition nonempty (s : string) : bool :=
  match s with EmptyString => false | _ => true end.

(** The de-duplication loop of [build_keys]: keeps the first pair of every
    non-empty key. *)
Fixpoint keys_unique (seen : gset string) (ks : list (string * string))
  : list (string * string) :=
  match ks with
  | [] => []
  | (ktype, k) :: rest =>
      if nonempty k && negb (bool_decide (k ∈ seen))
      then (ktype, k) :: keys_unique ({[k]} ∪ seen) rest
      else keys_unique seen rest
  end.

(** [build_keys] *)
Definition build_keys (mention_norm : string) (types : list string) : keys_info :=
  let m_can := canonicalize_surface mention_norm in
  let meas := is_measurement_like m_can in
  let ks := [("full_norm", mention_norm)] in
  let ks := if nonempty m_can && negb (String.eqb m_can mention_norm)
            then ks ++ [("full_can", m_can)] else ks in
  let ks := ks ++ map (fun hc => ("head", hc)) (head_candidates m_can) in
  {| canonical := m_can;
     is_measurement := meas;
     keys := keys_unique ∅ ks;
     types_seen := sorted_set types |}.

(** A candidate record, the dictionary the scan builds for a matched row. *)
Record cand : Type := {
  cui : string;
  sab : string;
  tty : string;
  ispref : string;
  str : string;
  matched_key : string;
  matched_key_type : string
}.

(** First index of [x] in [l]: [l.index(x)], or [None] when [x not in l]. *)
Fixpoint index_of (x : string) (l : list string) : option nat :=
  match l with
  | [] => None
  | y :: l' => if String.eqb x y then Some 0 else option_map S (index_of x l')
  end.

(** The tuple [_rank_candidate] returns. *)
Definition rank : Type := nat * nat * nat * nat * string * string * string.

Definition sab_rank (self : matcher) (c : cand) : nat :=
  match sab_preference self with
  | Some pref =>
      match index_of (sab c) pref with
      | Some i => i
      | None => 999
      end
  | None => 0
  end.

(** [_rank_candidate] *)
Definition _rank_candidate (self : matcher) (c : cand) : rank :=
  let ktype_rank := KEYTYPE_PRIORITY (matched_key_type c) in
  let ispref_rank := if String.eqb (ispref c) "Y" then 0 else 1 in
  let tty_rank := if mem (tty c) ["PT"; "PN"; "HT"; "MH"] then 0 else 1 in
  (ktype_rank, ispref_rank, sab_rank self c, tty_rank, sab c, tty c, cui c).

(** Lexicographic combination of two comparisons. *)
Definition lex (c1 c2 : comparison) : comparison :=
  match c1 with Eq => c2 | _ => c1 end.

(** Python's ordering of the rank tuples: component by component, integers
    by value and strings by code point. *)
Definition rank_compare (a b : rank) : comparison :=
  let '(k1, p1, s1, t1, sa1, ty1, cu1) := a in
  let '(k2, p2, s2, t2, sa2, ty2, cu2) := b in
  lex (Nat.compare k1 k2) (lex (Nat.compare p1 p2) (lex (Nat.compare s1 s2)
    (lex (Nat.compare t1 t2) (lex (String.compare sa1 sa2)
      (lex (String.compare ty1 ty2) (String.compare cu1 cu2)))))).

Definition rank_leb (a b : rank) : bool :=
  match rank_compare a b with Gt => false | _ => true end.

Definition cand_leb (self : matcher) (x y : cand) : bool :=
  rank_leb (_rank_candidate self x) (_rank_candidate self y).

(** [_apply_mrsty_filter] *)
Definition _apply_mrsty_filter (self : matcher) (c : string) (target_type : string) : bool :=
  if negb (use_mrsty_filter self) then true
  else
    let tuis : gset string := list_to_set (default [] (cui_to_tuis self !! c)) in
    if String.eqb target_type "ANATOMY"
    then Nat.ltb 0 (size (tuis ∩ anatomy_tuis self))
    else if String.eqb target_type "OBSERVATION"
    then Nat.ltb 0 (size (tuis ∩ observation_tuis self))
    else true.

(** [l[:k]] for a Python integer [k]: a negative [k] counts from the end. *)
Definition slice_to {A} (k : Z) (l : list A) : list A :=
  if (0 <=? k)%Z then firstn (Z.to_nat k) l
  else firstn (length l - Z.to_nat (- k)) l.

(** One entry of the dictionary [map_mentions_to_cui] returns. *)
Record grounding : Type := {
  best_cui : option string;
  candidates : list cand;
  g_types_seen : list string;
  excluded_reason : option string
}.

(** One reference row: the fields of interest of a line with at least 15
    fields. *)
Record row : Type := {
  r_cui : string;
  r_lat : string;
  r_ispref : string;
  r_sab : string;
  r_tty : string;
  r_str : string
}.

(** [line.rstrip("\n").split("|")] and the field accesses; [None] for a line
    with fewer than 15 fields. *)
Definition parse_line (line : string) : option row :=
  let parts := split_on "|" (rstrip_nl line) in
  if Nat.ltb (length parts) 15 then None
  else Some {| r_cui := nth 0 parts "";
               r_lat := nth 1 parts "";
               r_ispref := nth 6 parts "";
               r_sab := nth 11 parts "";
               r_tty := nth 12 parts "";
               r_str := nth 14 parts "" |}.

Definition mk_cand (r : row) (s_key ktype : string) : cand :=
  {| cui := r_cui r; sab := r_sab r; tty := r_tty r; ispref := r_ispref r;
     str := r_str r; matched_key := s_key; matched_key_type := ktype |}.

#[export] Instance keys_info_inhabited : Inhabited keys_info :=
  populate {| canonical := ""; is_measurement := false; keys := []; types_seen := [] |}.

(** The two dictionaries of the first loop: [mention_keys] and
    [key_to_mentions]. *)
Definition key_maps : Type :=
  gmap string keys_info * gmap string (list (string * string)).

(** [key_to_mentions[k].append((m, ktype))] for every key of [m]. *)
Definition register_keys (m : string) (ks : list (string * string))
  (km : gmap string (list (string * string))) : gmap string (list (string * string)) :=
  fold_left (fun km '(ktype, k) => <[k := default [] (km !! k) ++ [(m, ktype)]]> km) ks km.

Definition add_mention (mention_types : gmap string (list string))
  (acc : key_maps) (m : string) : key_maps :=
  let keys_info := build_keys m (default [] (mention_types !! m)) in
  (<[m := keys_info]> (fst acc), register_keys m (keys keys_info) (snd acc)).

(** The first loop of [map_mentions_to_cui], over the unique mentions. *)
Definition build_key_maps (unique_mentions : list string)
  (mention_types : gmap string (list string)) : key_maps :=
  fold_left (add_mention mention_types) unique_mentions (∅, ∅).

(** The state of the scan: [alias_to_candidates] and [seen_pairs].  The
    counter [kept_rows], which the function never reads, is left out. *)
Definition scan_state : Type :=
  gmap string (list cand) * gset (string * string * string * string).

(** The body of the loop over [key_to_mentions[s_key]]. *)
Definition record_match (mention_keys : gmap string keys_info) (r : row) (s_key : string)
  (st : scan_state) (req : string * string) : scan_state :=
  let '(mention_norm, ktype) := req in
  if is_measurement (mention_keys !!! mention_norm) then st
  else
    let key := (mention_norm, r_cui r, r_sab r, r_tty r) in
    if bool_decide (key ∈ snd st) then st
    else (<[mention_norm := default [] (fst st !! mention_norm) ++ [mk_cand r s_key ktype]]> (fst st),
          {[key]} ∪ snd st).

(** The body of the loop over the lines of the reference file. *)
Definition scan_line (maps : key_maps) (st : scan_state) (line : string) : scan_state :=
  match parse_line line with
  | None => st
  | Some r =>
      if negb (String.eqb (r_lat r) "ENG") then st
      else
        let s_key := canonicalize_surface (r_str r) in
        match snd maps !! s_key with
        | None => st
        | Some reqs => fold_left (record_match (fst maps) r s_key) reqs st
        end
  end.

(** The single pass over the reference file. *)
Definition scan_file (maps : key_maps) (lines : list string) : scan_state :=
  fold_left (scan_line maps) lines (∅, ∅).

(** The semantic-type filter of the last loop. *)
Definition passes_filter (self : matcher) (types_here : list string) (c : cand) : bool :=
  match types_here with
  | [] => true
  | _ => existsb (_apply_mrsty_filter self (cui c)) types_here
  end.

(** The body of the last loop: the result recorded for one mention. *)
Definition finish_mention (self : matcher) (m_info : keys_info) (cands : list cand)
  : grounding :=
  let types_here := types_seen m_info in
  if is_measurement m_info then
    {| best_cui := None; candidates := []; g_types_seen := types_here;
       excluded_reason := Some "measurement_like" |}
  else
    let filtered := List.filter (passes_filter self types_here) cands in
    let filtered := sort_by (cand_leb self) filtered in
    let top := slice_to (top_k self) filtered in
    let best := match top with c :: _ => Some (cui c) | [] => None end in
    {| best_cui := best; candidates := top; g_types_seen := types_here;
       excluded_reason := None |}.

(** [map_mentions_to_cui]; [lines] are the lines of the file at
    [mrconso_path], as iterating over the open file yields them.  The result
    dictionary is given as its items, in insertion order. *)
Definition map_mentions_to_cui (self : matcher) (lines : list string)
  (mentions : list string) (mention_types : gmap string (list string))
  : list (string * grounding) :=
  let unique_mentions := sorted_set mentions in
  let maps := build_key_maps unique_mentions mention_types in
  let st := scan_file maps lines in
  map (fun m => (m, finish_mention self (fst maps !!! m) (default [] (fst st !! m))))
      unique_mentions.

(** [d.get(m)] on the items of a dictionary. *)
Fixpoint lookup_result (m : string) (res : list (string * grounding)) : option grounding :=
  match res with
  | [] => None
  | (m', g) :: res' => if String.eqb m m' then Some g else lookup_result m res'
  end.

End UMLSExactMatcher.

Import UMLSExactMatcher.

(* ================================================================== *)
(** * The batch function, step by step *)
(* ================================================================== *)

(** [map_mentions_to_cui] once more, with the file system and the steps of the
    function made explicit, to state what it opens and reads, and when.  A
    computation takes the world (the files by path, and the log of the steps
    taken so far) to its result and the world after it, or to [None] where the
    source raises. *)
Module Traced.

Inductive event : Type :=
| EvBuildKeys (m : string)
| EvOpen (path : string)
| EvLine (path : string) (n : nat)
| EvClose (path : string)
| EvFinish (m : string).

Record world : Type := {
  files : gmap string (list string);
  log : list event
}.

Definition io (A : Type) : Type := world -> option (A * world).

Definition ret {A} (a : A) : io A := fun w => Some (a, w).

Definition bind {A B} (c : io A) (f : A -> io B) : io B :=
  fun w => match c w with Some (a, w') => f a w' | None => None end.

(** One step is taken. *)
Definition emit (e : event) : io unit :=
  fun w => Some (tt, {| files := files w; log := log w ++ [e] |}).

(** [open(path, "r")]: the lines the handle will yield; a missing file
    raises. *)
Definition open_file (path : string) : io (list string) :=
  fun w =>
    match files w !! path with
    | None => None
    | Some lines => Some (lines, {| files := files w; log := log w ++ [EvOpen path] |})
    end.

(** [for a in l: body], threading the variables the body updates. *)
Fixpoint for_each {A St} (body : St -> A -> io St) (l : list A) (s : St) : io St :=
  match l with
  | [] => ret s
  | a :: l' => bind (body s a) (for_each body l')
  end.

(** [for line in handle: body]: the handle yields the lines not yet read, one
    at a time; [n] is the number of the next line. *)
Fixpoint for_lines {St} (path : string) (body : St -> string -> io St) (n : nat)
  (rest : list string) (s : St) : io St :=
  match rest with
  | [] => ret s
  | line :: rest' =>
      bind (emit (EvLine path n))
        (fun _ => bind (body s line) (for_lines path body (S n) rest'))
  end.

(** [map_mentions_to_cui]: the first loop, with one [build_keys] for each
    unique mention; the [with open(...)] block around the loop over the lines;
    the last loop, with one result for each unique mention. *)
Definition map_mentions_to_cui (self : matcher) (mentions : list string)
  (mention_types : gmap string (list string)) : io (list (string * grounding)) :=
  let unique_mentions := sorted_set mentions in
  bind (for_each (fun maps m =>
                    bind (emit (EvBuildKeys m))
                      (fun _ => ret (add_mention mention_types maps m)))
          unique_mentions (∅, ∅))
    (fun maps =>
  bind (open_file (mrconso_path self))
    (fun handle =>
  bind (for_lines (mrconso_path self)
          (fun st line => ret (scan_line maps st line)) 0 handle (∅, ∅))
    (fun st =>
  bind (emit (EvClose (mrconso_path self)))
    (fun _ =>
  for_each (fun mention2cui m =>
              bind (emit (EvFinish m))
                (fun _ => ret (mention2cui ++
                   [(m, finish_mention self (fst maps !!! m)
                          (default [] (fst st !! m)))])))
    unique_mentions [])))).

End Traced.

(** A line of the reference file, with the newline that ends it. *)
Definition file_line (s : string) : string := s +:+ String "010"%char EmptyString.

Definition mrconso_demo : list string :=
  map file_line
    ["C0032285|ENG|P|L1|PF|S1|Y|A1||M1|D1|SNOMEDCT_US|PT|233604007|Pneumonia|0|N|256|";
     "C0032286|ENG|P|L1|PF|S1|N|A2||M1|D1|MSH|ET|D011014|pneumonia|0|N||";
     "C0000001|FRE|P|L1|PF|S1|Y|A3||M1|D1|MSH|PT|D0|pneumonia|0|N||";
     "short|ENG|line"].

Definition demo_matcher : matcher := init "MRCONSO.RRF" None 5 false None None None.

(** A matcher whose attribute [sab_preference] was set to [None] after its
    construction. *)
Definition unset_pref_matcher : matcher :=
  {| mrconso_path := "MRCONSO.RRF"; sab_preference := None; top_k := 5;
     use_mrsty_filter := false; cui_to_tuis := ∅;
     anatomy_tuis := ∅; observation_tuis := ∅ |}.

(** A world whose only file is the demo reference file, with nothing done
    yet. *)
Definition demo_world : Traced.world :=
  {| Traced.files := {[ "MRCONSO.RRF" := mrconso_demo ]}; Traced.log := [] |}.

Definition strict_filter_matcher : matcher :=
  init "MRCONSO.RRF" None 5 true None (Some ["T023"]) (Some ["T033"]).

Definition some_cand : cand :=
  {| cui := "C0032285"; sab := "SNOMEDCT_US"; tty := "PT"; ispref := "Y";
     str := "Pneumonia"; matched_key := "pneumonia"; matched_key_type := "full_norm" |}.

Definition msh_cand : cand :=
  {| cui := "C0032286"; sab := "MSH"; tty := "ET"; ispref := "N";
     str := "pneumonia"; matched_key := "pneumonia"; matched_key_type := "full_norm" |}.

Definition other_cand : cand :=
  {| cui := "C0032287"; sab := "ICD10CM"; tty := "PT"; ispref := "Y";
     str := "pneumonia"; matched_key := "pneumonia"; matched_key_type := "full_norm" |}.

(** A preference list of 1001 sources, [S0] to [S1000]. *)
Definition long_pref : list string :=
  map (fun n : nat => "S" +:+ pretty n) (seq 0 1001).

Definition long_pref_matcher : matcher :=
  init "MRCONSO.RRF" (Some long_pref) 5 false None None None.

Definition mrconso_two_sources : list string :=
  map file_line
    ["C0000001|ENG|P|L1|PF|S1|Y|A1||M1|D1|S1000|PT|1|pneumonia|0|N||";
     "C0000002|ENG|P|L1|PF|S1|Y|A2||M1|D1|ZZZ|PT|2|pneumonia|0|N||"].

(** Two files with the same lines in a different order; the first two lines
    are rows of the same (CUI, source, term type) with different preferred
    flags. *)
Definition mrconso_dup_a : list string :=
  map file_line
    ["C0000001|ENG|P|L1|PF|S1|Y|A1||M1|D1|MSH|PT|1|pneumonia|0|N||";
     "C0000001|ENG|S|L2|VO|S2|N|A2||M1|D1|MSH|PT|1|Pneumonia|0|N||";
     "C0000002|ENG|P|L3|PF|S3|Y|A3||M2|D2|NCI|PT|2|pneumonia|0|N||"].

Definition mrconso_dup_b : list string :=
  map file_line
    ["C0000001|ENG|S|L2|VO|S2|N|A2||M1|D1|MSH|PT|1|Pneumonia|0|N||";
     "C0000001|ENG|P|L1|PF|S1|Y|A1||M1|D1|MSH|PT|1|pneumonia|0|N||";
     "C0000002|ENG|P|L3|PF|S3|Y|A3||M2|D2|NCI|PT|2|pneumonia|0|N||"].

(** The code points of the model, 0 to 255. *)
Definition all_chars : list ascii := map ascii_of_nat (seq 0 256).

Definition codes_where (p : ascii -> bool) : list nat :=
  map nat_of_ascii (List.filter p all_chars).

(** A comparison that decides equality and is a strict total order. *)
Record good_cmp {A} (cmp : A -> A -> comparison) : Prop := {
  cmp_eq : forall x y, cmp x y = Eq <-> x = y;
  cmp_opp : forall x y, cmp y x = CompOpp (cmp x y);
  cmp_trans : forall x y z, cmp x y = Lt -> cmp y z = Lt -> cmp x z = Lt
}.

(** The non-strict order of a comparison, as a boolean test. *)
Definition leb_of {A} (cmp : A -> A -> comparison) (x y : A) : bool :=
  match cmp x y with Gt => false | _ => true end.

(* ================================================================== *)
(** * The specification's wording, and the scan seen mention by mention *)
(* ================================================================== *)

(** The definitions that the properties are stated with: the normal forms
    and functions as the specification words them, the meaning of a regular
    expression, and what the shared scan holds for one mention. *)
Module Spec.

(** No two whitespace characters in a row. *)
Fixpoint no_space_run (s : string) : bool :=
  match s with
  | String a s' =>
      match s' with
      | String b _ => negb (is_space a && is_space b) && no_space_run s'
      | EmptyString => true
      end
  | EmptyString => true
  end.

(** No whitespace at either end. *)
Definition trimmed (s : string) : bool := String.eqb (strip s) s.

(** Lowercase letters, digits, hyphens and spaces only. *)
Definition normalized_char (c : ascii) : bool :=
  is_az c || is_digit c || Ascii.eqb c "-" || Ascii.eqb c " ".

(** A letter or a digit ([str.isalnum] below code point 256). *)
Definition is_alnum (c : ascii) : bool := is_word c && negb (code c =? 95)%N.

Definition hyphen_slash_to_space (c : ascii) : ascii :=
  if Ascii.eqb c "-" || Ascii.eqb c "/" then " "%char else c.

(** [canonicalize] as the specification words it: the characters that are
    neither alphanumeric nor whitespace are removed. *)
Definition canonicalize_removing (s : string) : string :=
  strip (collapse_ws
    (sfilter (fun c => is_alnum c || is_space c)
       (smap hyphen_slash_to_space (lower s)))).

(** The same with those characters turned into spaces instead, and the
    letters that are kept being [a]..[z]. *)
Definition canonicalize_spacing (s : string) : string :=
  strip (collapse_ws
    (smap (fun c => if is_az c || is_digit c || is_space c then c else " "%char)
       (smap hyphen_slash_to_space (lower s)))).

(** The type codes of a CUI in the supplied concept-to-type-code mapping. *)
Definition cui_codes (self : matcher) (c : string) : gset string :=
  list_to_set (default [] (cui_to_tuis self !! c)).

(** The allowed codes a type hint maps to: one set per target category, and
    none for a hint of another category. *)
Definition hint_codes (self : matcher) (t : string) : gset string :=
  if String.eqb t "ANATOMY" then anatomy_tuis self
  else if String.eqb t "OBSERVATION" then observation_tuis self
  else ∅.

(** The hint maps to a code that is among the type codes of the CUI. *)
Definition hint_supports (self : matcher) (c t : string) : Prop :=
  exists code, code ∈ hint_codes self t /\ code ∈ cui_codes self c.

(** A hint of one of the two target categories. *)
Definition target_hint (t : string) : Prop := t = "ANATOMY" \/ t = "OBSERVATION".

(** The type hints recorded for a mention: [mention_types.get(m, [])]. *)
Definition hints_of (mention_types : gmap string (list string)) (m : string) : list string :=
  default [] (mention_types !! m).

(** Two candidates with the same (CUI, source, term type). *)
Definition same_key (x y : cand) : bool :=
  String.eqb (cui x) (cui y) && String.eqb (sab x) (sab y) && String.eqb (tty x) (tty y).

(** A bucket takes a candidate unless it already holds one with the same
    (CUI, source, term type). *)
Definition add_cand (bucket : list cand) (c : cand) : list cand :=
  if existsb (same_key c) bucket then bucket else bucket ++ [c].

(** First candidate of every (CUI, source, term type), in order. *)
Definition first_per_key (l : list cand) : list cand := fold_left add_cand l [].

(** The candidates one line offers to one mention, looking at that mention
    only: the line is an English row of at least 15 fields, the mention is not
    measurement-like, and the canonical surface string is one of its keys. *)
Definition own_cands (mention_types : gmap string (list string)) (m : string)
  (line : string) : list cand :=
  let info := build_keys m (hints_of mention_types m) in
  if is_measurement info then []
  else match parse_line line with
       | None => []
       | Some r =>
           if negb (String.eqb (r_lat r) "ENG") then []
           else
             let s_key := canonicalize_surface (r_str r) in
             map (fun p => mk_cand r s_key (fst p))
                 (List.filter (fun p => String.eqb (snd p) s_key) (keys info))
       end.

(** What a mention collects from the file when it is grounded on its own. *)
Definition collected_alone (mention_types : gmap string (list string))
  (lines : list string) (m : string) : list cand :=
  first_per_key (flat_map (own_cands mention_types m) lines).

(** The result of grounding one mention on its own. *)
Definition ground_alone (self : matcher) (lines : list string)
  (mention_types : gmap string (list string)) (m : string) : grounding :=
  finish_mention self (build_keys m (hints_of mention_types m))
    (collected_alone mention_types lines m).

(** The requests a mention files under the key [k]. *)
Definition requests_of (mention_types : gmap string (list string)) (k m : string)
  : list (string * string) :=
  map (fun p => (m, fst p))
      (List.filter (fun p => String.eqb (snd p) k)
         (keys (build_keys m (hints_of mention_types m)))).

(** The bucket of a mention in a scan state: [alias_to_candidates.get(m, [])]. *)
Definition bucket (st : scan_state) (m : string) : list cand :=
  default [] (fst st !! m).

(** [seen_pairs] holds exactly the (mention, CUI, source, term type) tuples of
    the candidates in the buckets. *)
Definition scan_inv (st : scan_state) : Prop :=
  forall m c s t,
    (m, c, s, t) ∈ snd st <->
    exists x, x ∈ bucket st m /\ cui x = c /\ sab x = s /\ tty x = t.

(** The candidates the requests [reqs] of one row offer to the mention [m]. *)
Definition offered (mention_keys : gmap string keys_info) (m : string) (r : row)
  (s_key : string) (reqs : list (string * string)) : list cand :=
  map (fun q => mk_cand r s_key (snd q))
      (List.filter (fun q => String.eqb (fst q) m
                             && negb (is_measurement (mention_keys !!! fst q))) reqs).

(** The candidates one line offers to the mention [m] during the scan. *)
Definition line_offers (maps : key_maps) (m : string) (line : string) : list cand :=
  match parse_line line with
  | None => []
  | Some r =>
      if negb (String.eqb (r_lat r) "ENG") then []
      else offered (fst maps) m r (canonicalize_surface (r_str r))
             (default [] (snd maps !! canonicalize_surface (r_str r)))
  end.

(** The character in front of the position reached by reading [t] from a
    position whose previous character is [prev]. *)
Fixpoint after (prev : option ascii) (t : string) : option ascii :=
  match t with
  | EmptyString => prev
  | String c t' => after (Some c) t'
  end.

(** [Matches r prev t rest]: the expression [r] matches the text [t], when [t]
    is preceded by the character [prev] and followed by [rest]. *)
Inductive Matches : regex -> option ascii -> string -> string -> Prop :=
| MBound prev rest :
    at_boundary prev rest = true -> Matches RBound prev "" rest
| MStr lit prev rest : Matches (RStr lit) prev lit rest
| MSeq r1 r2 prev t1 t2 rest :
    Matches r1 prev t1 (t2 +:+ rest) -> Matches r2 (after prev t1) t2 rest ->
    Matches (RSeq r1 r2) prev (t1 +:+ t2) rest
| MAltL r1 r2 prev t rest : Matches r1 prev t rest -> Matches (RAlt r1 r2) prev t rest
| MAltR r1 r2 prev t rest : Matches r2 prev t rest -> Matches (RAlt r1 r2) prev t rest
| MOptNone r prev rest : Matches (ROpt r) prev "" rest
| MOptSome r prev t rest : Matches r prev t rest -> Matches (ROpt r) prev t rest
| MStar p prev t rest : sforall p t = true -> Matches (RStar p) prev t rest
| MPlus p prev t rest :
    t <> "" -> sforall p t = true -> Matches (RPlus p) prev t rest.

(** The text [s] contains a match of [r]. *)
Definition has_match (r : regex) (s : string) : Prop :=
  exists pre t post, s = pre +:+ t +:+ post /\ Matches r (after None pre) t post.

(** The scan never stores an empty bucket. *)
Definition no_empty_bucket (st : scan_state) : Prop :=
  forall m, fst st !! m <> Some [].

(** The source rank as the specification words it: the index of the source in
    the preference list, and every absent source after all the listed ones. *)
Definition source_rank_claimed (pref : list string) (s : string) : nat :=
  default (length pref) (index_of s pref).

(** The composite sort key as the specification words it. *)
Definition rank_claimed (pref : list string) (c : cand) : rank :=
  (KEYTYPE_PRIORITY (matched_key_type c),
   if String.eqb (ispref c) "Y" then 0 else 1,
   source_rank_claimed pref (sab c),
   if mem (tty c) ["PT"; "PN"; "HT"; "MH"] then 0 else 1,
   sab c, tty c, cui c).

Definition claimed_leb (pref : list string) (x y : cand) : bool :=
  rank_leb (rank_claimed pref x) (rank_claimed pref y).

(** The candidates ranked as the specification words it: sorted by the
    composite key, cut to the first [k]. *)
Definition ranked_claimed (pref : list string) (k : nat) (l : list cand) : list cand :=
  firstn k (sort_by (claimed_leb pref) l).

(** The (CUI, source, term type) of a candidate. *)
Definition key3 (c : cand) : string * string * string := (cui c, sab c, tty c).

#[export] Instance cand_eq_dec : EqDecision cand.
Proof. solve_decision. Defined.

(** Candidates with the same (CUI, source, term type) are the same record. *)
Definition unambiguous (l : list cand) : bool :=
  forallb (fun x => forallb (fun y => implb (same_key x y) (bool_decide (x = y))) l) l.

(** English rows of the file with the same (CUI, source, term type) have the
    same preferred flag and surface string. *)
Definition consistent_rows (lines : list string) : Prop :=
  forall l1 l2 r1 r2,
    l1 ∈ lines -> l2 ∈ lines ->
    parse_line l1 = Some r1 -> parse_line l2 = Some r2 ->
    r_lat r1 = "ENG" -> r_lat r2 = "ENG" ->
    r_cui r1 = r_cui r2 -> r_sab r1 = r_sab r2 -> r_tty r1 = r_tty r2 ->
    r_ispref r1 = r_ispref r2 /\ r_str r1 = r_str r2.

(** One or more digits. *)
Definition digits (d : string) : Prop := d <> "" /\ sforall is_digit d = true.

(** A text of the form [<digits>[.<digits>]<whitespace?><mm|cm|m>]. *)
Definition measurement_token (t : string) : Prop :=
  exists ds frac ws u,
    t = ds +:+ frac +:+ ws +:+ u /\
    digits ds /\
    (frac = "" \/ exists fs, frac = "." +:+ fs /\ digits fs) /\
    sforall is_space ws = true /\
    (u = "mm" \/ u = "cm" \/ u = "m").

(** The text [s] contains a measurement token as a whole word: the token
    starts and ends at a word boundary. *)
Definition contains_measurement (s : string) : Prop :=
  exists pre t post,
    s = pre +:+ t +:+ post /\
    measurement_token t /\
    at_boundary (after None pre) (t +:+ post) = true /\
    at_boundary (after (after None pre) t) post = true.

End Spec.

(* ================================================================== *)
(** * Normal forms of text *)
(* ================================================================== *)

Module Form.

(** A lowercase letter [a]..[z], a digit or a space. *)
Definition canonical_char (c : ascii) : bool :=
  is_az c || is_digit c || Ascii.eqb c " ".

(** The shape of a canonical form: made of [a-z0-9] and single spaces, with
    no space at either end. *)
Definition canonical_form (s : string) : Prop :=
  sforall canonical_char s = true /\
  Spec.no_space_run s = true /\
  strip s = s.

(** The first character, if any, is not whitespace. *)
Definition starts_tight (s : string) : bool :=
  match s with
  | EmptyString => true
  | String c _ => negb (is_space c)
  end.

End Form.

Module Tokens.

(** A token of [str.split()]: non-empty and free of whitespace. *)
Definition is_token (t : string) : bool :=
  nonempty t && sforall (fun c => negb (is_space c)) t.

(** The tokens [head_candidates] keeps: those of the text that are not a stop
    word, a laterality term or a severity term. *)
Definition content_tokens (canonical : string) : list string :=
  List.filter (fun t => negb (mem t LATERAL) && negb (mem t SEVERITY))
    (List.filter (fun t => negb (mem t STOP)) (split_ws canonical)).

End Tokens.

(* ================================================================== *)
(** * The pipeline around the matcher ([pipelines/hybrid_kg_pipeline.py]) *)
(* ================================================================== *)

Module Pipeline.

(** [text.replace("___", " ")]: from left to right, every three underscores
    in a row become one space. *)
Fixpoint replace_blanks (s : string) : string :=
  match s with
  | EmptyString => EmptyString
  | String a s1 =>
      match s1 with
      | String b (String c s3) =>
          if Ascii.eqb a "_" && Ascii.eqb b "_" && Ascii.eqb c "_"
          then String " " (replace_blanks s3)
          else String a (replace_blanks s1)
      | _ => String a (replace_blanks s1)
      end
  end.

(** [clean_report]; [None] stands for a value that is not a [str]. *)
Definition clean_report (text : option string) : string :=
  match text with
  | None => ""
  | Some t => strip (collapse_ws (replace_blanks t))
  end.

(** [ExtractedEntity] of [knowledge/extraction.py]. *)
Record ExtractedEntity : Type := {
  text : string;
  etype : string;
  start : option Z;
  end_ : option Z
}.

(** A dictionary with string keys, as its items in insertion order. *)
Definition dict (V : Type) : Type := list (string * V).

(** [d.get(k)] *)
Fixpoint dict_get {V} (k : string) (d : dict V) : option V :=
  match d with
  | [] => None
  | (k', v) :: d' => if String.eqb k k' then Some v else dict_get k d'
  end.

(** [d[k] = v]: an existing key keeps its place, a new one goes last. *)
Fixpoint dict_set {V} (k : string) (v : V) (d : dict V) : dict V :=
  match d with
  | [] => [(k, v)]
  | (k', v') :: d' =>
      if String.eqb k k' then (k, v) :: d' else (k', v') :: dict_set k v d'
  end.

(** [ent.text and ent.text.strip()] *)
Definition has_text (ent : ExtractedEntity) : bool :=
  nonempty (text ent) && nonempty (strip (text ent)).

(** The body of the inner loop of [collect_mentions]; the state is
    [mentions_raw] and [mention_types]. *)
Definition collect_entity (acc : list string * gmap string (list string))
  (ent : ExtractedEntity) : list string * gmap string (list string) :=
  if has_text ent then
    let t_norm := normalize_text (text ent) in
    (fst acc ++ [t_norm],
     <[t_norm := default [] (snd acc !! t_norm) ++ [etype ent]]> (snd acc))
  else acc.

(** The two loops of [collect_mentions]. *)
Definition collect_raw (all_entities : list (dict ExtractedEntity))
  : list string * gmap string (list string) :=
  fold_left (fun acc ents => fold_left collect_entity (map snd ents) acc)
    all_entities ([], ∅).

(** [collect_mentions] *)
Definition collect_mentions (all_entities : list (dict ExtractedEntity))
  : list string * gmap string (list string) :=
  let acc := collect_raw all_entities in
  (fst acc, sorted_set <$> snd acc).

(** One value of the dictionaries [enrich_entities_with_cui] builds. *)
Record EnrichedEntity : Type := {
  e_text : string;
  e_etype : string;
  e_start : option Z;
  e_end : option Z;
  e_cui : option string;
  e_cui_candidates : list cand
}.

(** The body of the inner loop of [enrich_entities_with_cui]. *)
Definition enrich_entity (mention2cui : list (string * grounding))
  (ent : ExtractedEntity) : EnrichedEntity :=
  let m_norm := normalize_text (text ent) in
  let info := lookup_result m_norm mention2cui in
  {| e_text := text ent;
     e_etype := etype ent;
     e_start := start ent;
     e_end := end_ ent;
     e_cui := match info with Some g => best_cui g | None => None end;
     e_cui_candidates := match info with Some g => candidates g | None => [] end |}.

Definition enrich_report (mention2cui : list (string * grounding))
  (ents : dict ExtractedEntity) : dict EnrichedEntity :=
  fold_left (fun enriched '(ent_id, ent) =>
               dict_set ent_id (enrich_entity mention2cui ent) enriched)
    ents [].

(** [enrich_entities_with_cui] *)
Definition enrich_entities_with_cui (all_entities : list (dict ExtractedEntity))
  (mention2cui : list (string * grounding)) : list (dict EnrichedEntity) :=
  map (enrich_report mention2cui) all_entities.

(** One row of the coverage table of [run_pipeline]. *)
Record coverage_row : Type := {
  cov_mention : string;
  cov_canonical : string;
  cov_types_seen : string;
  cov_is_measurement : bool;
  cov_excluded_reason : option string;
  cov_mapped : bool;
  cov_best_cui : option string;
  cov_num_candidates : nat;
  cov_top_sab : option string;
  cov_top_tty : option string;
  cov_top_match_type : option string;
  cov_top_matched_key : option string
}.

(** The body of the coverage loop of [run_pipeline]. *)
Definition coverage_of (m : string) (info : grounding) : coverage_row :=
  let cands := candidates info in
  {| cov_mention := m;
     cov_canonical := canonicalize_surface m;
     cov_types_seen := join "," (g_types_seen info);
     cov_is_measurement := is_measurement_like (canonicalize_surface m);
     cov_excluded_reason := excluded_reason info;
     cov_mapped := match best_cui info with Some _ => true | None => false end;
     cov_best_cui := best_cui info;
     cov_num_candidates := length cands;
     cov_top_sab := match cands with c :: _ => Some (sab c) | [] => None end;
     cov_top_tty := match cands with c :: _ => Some (tty c) | [] => None end;
     cov_top_match_type :=
       match cands with c :: _ => Some (matched_key_type c) | [] => None end;
     cov_top_matched_key :=
       match cands with c :: _ => Some (matched_key c) | [] => None end |}.

(** The coverage loop of [run_pipeline], over the items of [mention2cui]. *)
Definition coverage (mention2cui : list (string * grounding)) : list coverage_row :=
  map (fun '(m, info) => coverage_of m info) mention2cui.

(** The grounding steps of [run_pipeline]: from the extracted entities to the
    mention results, the enriched entities and the coverage rows. *)
Definition ground_entities (self : matcher) (lines : list string)
  (all_entities : list (dict ExtractedEntity))
  : list (string * grounding) * list (dict EnrichedEntity) * list coverage_row :=
  let '(mentions, mention_types) := collect_mentions all_entities in
  let mention2cui := map_mentions_to_cui self lines mentions mention_types in
  (mention2cui, enrich_entities_with_cui all_entities mention2cui, coverage mention2cui).

End Pipeline.

(** Two small reports, as [normalize_batch] of [knowledge/extraction.py]
    returns their entities. *)
Definition demo_reports : list (Pipeline.dict Pipeline.ExtractedEntity) :=
  [ [ ("1", {| Pipeline.text := "Pneumonia"; Pipeline.etype := "ANATOMY";
               Pipeline.start := Some 0%Z; Pipeline.end_ := Some 0%Z |});
      ("2", {| Pipeline.text := "  "; Pipeline.etype := "OBSERVATION";
               Pipeline.start := Some 1%Z; Pipeline.end_ := Some 1%Z |}) ];
    [ ("1", {| Pipeline.text := "pneumonia "; Pipeline.etype := "OBSERVATION";
               Pipeline.start := Some 3%Z; Pipeline.end_ := Some 3%Z |}) ] ].

(** A matcher with the semantic-type filter on, for which the first demo
    concept is a finding and not a body part. *)
Definition typed_matcher : matcher :=
  init "MRCONSO.RRF" None 5 true (Some {[ "C0032285" := ["T033"] ]})
    (Some ["T023"]) (Some ["T033"]).

(* ================================================================== *)
(** * The graph builder ([knowledge/graph_builder.py]) *)
(* ================================================================== *)

Module GraphBuilder.

(** [RELATION_MAP], as its items in insertion order. *)
Definition RELATION_MAP : Pipeline.dict Z :=
  [("located_at", 0%Z); ("modify", 1%Z); ("suggestive_of", 2%Z);
   ("associated_with", 3%Z)].

Record builder : Type := {
  add_self_loops : bool;
  bidirectional : bool
}.

(** [__init__]; [None] stands for an argument left out. *)
Definition init (loops : option bool) (both : option bool) : builder :=
  {| add_self_loops := default true loops; bidirectional := default false both |}.

(** One triplet dictionary, with its keys [head], [relation] and [tail]. *)
Record triplet : Type := {
  head : string;
  relation : string;
  tail : string
}.

(** [enumerate(l)], counting from [k]. *)
Fixpoint enumerate_from {A} (k : Z) (l : list A) : list (Z * A) :=
  match l with
  | [] => []
  | a :: l' => (k, a) :: enumerate_from (k + 1) l'
  end.

Definition enumerate {A} (l : list A) : list (Z * A) := enumerate_from 0 l.

(** [range(n)] *)
Definition range (n : nat) : list Z := map Z.of_nat (seq 0 n).

(** The [Data] object [build_graph] returns.  [edge_index] is the list of the
    columns of the 2 x E tensor, [edge_attr] the entries of the tensor of
    edge types; [x] is the tensor of node features, of a type left open.
    [entity_to_idx] is optional as [get_node_by_name] tests for it. *)
Record graph (X : Type) : Type := {
  x : X;
  edge_index : list (Z * Z);
  edge_attr : list Z;
  node_names : list string;
  entity_to_idx : option (Pipeline.dict Z);
  idx_to_entity : gmap Z string;
  num_relation_types : Z
}.

Arguments x {X} _.
Arguments edge_index {X} _.
Arguments edge_attr {X} _.
Arguments node_names {X} _.
Arguments entity_to_idx {X} _.
Arguments idx_to_entity {X} _.
Arguments num_relation_types {X} _.

(** [sorted(list(set(heads + tails)))] *)
Definition unique_entities (triplets : list triplet) : list string :=
  sorted_set (map head triplets ++ map tail triplets).

(** [{name: i for i, name in enumerate(unique_entities)}] *)
Definition index_entities (names : list string) : Pipeline.dict Z :=
  fold_left (fun d '(i, name) => Pipeline.dict_set name i d) (enumerate names) [].

(** [{v: k for k, v in entity_to_idx.items()}] *)
Definition invert (d : Pipeline.dict Z) : gmap Z string :=
  fold_left (fun m '(k, v) => <[v := k]> m) d ∅.

(** [RELATION_MAP.get(relation, 3)] *)
Definition relation_type (rel : string) : Z :=
  default 3%Z (Pipeline.dict_get rel RELATION_MAP).

(** The body of the loop over the triplets; the state is the three lists
    [edge_sources], [edge_targets] and [edge_types], and [None] once an index
    lookup has raised [KeyError]. *)
Definition add_edges (self : builder) (idx : Pipeline.dict Z)
  (acc : option (list Z * list Z * list Z)) (t : triplet)
  : option (list Z * list Z * list Z) :=
  match acc with
  | None => None
  | Some (sources, targets, types) =>
      match Pipeline.dict_get (head t) idx with
      | None => None
      | Some head_idx =>
          match Pipeline.dict_get (tail t) idx with
          | None => None
          | Some tail_idx =>
              let rel_type := relation_type (relation t) in
              let sources := sources ++ [head_idx] in
              let targets := targets ++ [tail_idx] in
              let types := types ++ [rel_type] in
              if bidirectional self
              then Some (sources ++ [tail_idx], targets ++ [head_idx], types ++ [rel_type])
              else Some (sources, targets, types)
          end
      end
  end.

(** [build_graph].  [node_features] stands for the loop over the node
    metadata and [torch.stack]: the tensor of node features for the given
    entity names, or [None] where that step raises.  [None] is returned
    where [build_graph] raises. *)
Definition build_graph {X} (self : builder) (node_features : list string -> option X)
  (triplets : list triplet) : option (graph X) :=
  let names := unique_entities triplets in
  let idx := index_entities names in
  let num_nodes := length names in
  match node_features names with
  | None => None
  | Some feats =>
      match fold_left (add_edges self idx) triplets (Some ([], [], [])) with
      | None => None
      | Some (sources, targets, types) =>
          let index := combine sources targets in
          let index :=
            if add_self_loops self
            then index ++ map (fun i => (i, i)) (range num_nodes) else index in
          let attr :=
            if add_self_loops self then types ++ repeat 0%Z num_nodes else types in
          Some {| x := feats;
                  edge_index := index;
                  edge_attr := attr;
                  node_names := names;
                  entity_to_idx := Some idx;
                  idx_to_entity := invert idx;
                  num_relation_types := Z.of_nat (length RELATION_MAP) |}
      end
  end.

(** [get_node_by_name] *)
Definition get_node_by_name {X} (g : graph X) (node_name : string) : option Z :=
  match entity_to_idx g with
  | Some idx => Pipeline.dict_get node_name idx
  | None => None
  end.

(** The loop of [get_node_neighbors] from column [i] on; [None] where
    [edge_attr[i]] raises [IndexError]. *)
Fixpoint scan_edges (i : nat) (columns : list (Z * Z)) (attr : list Z)
  (node_idx : Z) (rel : option Z) : option (list Z) :=
  match columns with
  | [] => Some []
  | (src, dst) :: columns' =>
      if Z.eqb src node_idx then
        match rel with
        | None => cons dst <$> scan_edges (S i) columns' attr node_idx rel
        | Some r =>
            match attr !! i with
            | None => None
            | Some a =>
                if Z.eqb a r
                then cons dst <$> scan_edges (S i) columns' attr node_idx rel
                else scan_edges (S i) columns' attr node_idx rel
            end
        end
      else scan_edges (S i) columns' attr node_idx rel
  end.

(** [get_node_neighbors] *)
Definition get_node_neighbors {X} (g : graph X) (node_idx : Z) (rel : option Z)
  : option (list Z) :=
  scan_edges 0 (edge_index g) (edge_attr g) node_idx rel.

End GraphBuilder.

(** The edges one triplet stands for, as (source, target, type): the forward
    edge, and the reverse edge of a bidirectional builder. *)
Definition triplet_edges (self : GraphBuilder.builder) (names : list string)
  (t : GraphBuilder.triplet) : list (Z * Z * Z) :=
  let idx := GraphBuilder.index_entities names in
  match Pipeline.dict_get (GraphBuilder.head t) idx,
        Pipeline.dict_get (GraphBuilder.tail t) idx with
  | Some i, Some j =>
      let r := GraphBuilder.relation_type (GraphBuilder.relation t) in
      (i, j, r) :: (if GraphBuilder.bidirectional self then [(j, i, r)] else [])
  | _, _ => []
  end.

(** All the edges of the graph built from [triplets]: those of the triplets
    in order, then one self-loop of type 0 for each node if the builder adds
    them. *)
Definition graph_edges (self : GraphBuilder.builder)
  (triplets : list GraphBuilder.triplet) : list (Z * Z * Z) :=
  let names := GraphBuilder.unique_entities triplets in
  flat_map (triplet_edges self names) triplets ++
  (if GraphBuilder.add_self_loops self
   then map (fun i => (i, i, 0%Z)) (GraphBuilder.range (length names)) else []).

(** Whether an edge of type [a] answers a query for the relation type [rel]. *)
Definition answers (rel : option Z) (a : Z) : bool :=
  match rel with None => true | Some r => Z.eqb a r end.

Definition demo_triplets : list GraphBuilder.triplet :=
  [ {| GraphBuilder.head := "opacity"; GraphBuilder.relation := "located_at";
       GraphBuilder.tail := "left lung" |};
    {| GraphBuilder.head := "opacity"; GraphBuilder.relation := "suggestive_of";
       GraphBuilder.tail := "pneumonia" |};
    {| GraphBuilder.head := "mild"; GraphBuilder.relation := "describes";
       GraphBuilder.tail := "opacity" |} ].

(** A feature step that succeeds on a non-empty list of names. *)
Definition demo_features (names : list string) : option nat :=
  match names with [] => None | _ => Some (length names) end.

(* ================================================================== *)
(** * Properties *)
(* ================================================================== *)

(** ** The model on concrete inputs *)

Example lower_ex : lower "Left Pleural-Effusion/X" = "left pleural-effusion/x".
Proof. reflexivity. Qed.

Example strip_ex : strip "  a b  " = "a b".
Proof. reflexivity. Qed.

Example collapse_ex : collapse_ws "a  b   c " = "a b c ".
Proof. reflexivity. Qed.

Example split_ex : split_ws "  small left  pleural effusion " = ["small"; "left"; "pleural"; "effusion"].
Proof. reflexivity. Qed.

Example split_on_ex : split_on "|" "a|b||c|" = ["a"; "b"; ""; "c"; ""].
Proof. reflexivity. Qed.

Example parse_line_ex :
  parse_line (file_line "C0032286|ENG|P|L1|PF|S1|N|A2||M1|D1|MSH|ET|D011014|pneumonia|0|N||")
  = Some {| r_cui := "C0032286"; r_lat := "ENG"; r_ispref := "N"; r_sab := "MSH";
            r_tty := "ET"; r_str := "pneumonia" |}
  /\ parse_line (file_line "short|ENG|line") = None.
Proof. vm_compute. split; reflexivity. Qed.

Example normalize_ex1 : normalize_text "  Small LEFT   Pleural-Effusion! " = "small left pleural-effusion".
Proof. reflexivity. Qed.

Example canonicalize_ex1 : canonicalize_surface "Pleural-Effusion, (left/right)" = "pleural effusion left right".
Proof. reflexivity. Qed.

Example meas_ex1 : map (fun s => is_measurement_like (canonicalize_surface s))
   ["3.5 cm"; "10mm"; "2 m"; "pneumonia"; "3 masses"; "x2m"; "2 mmm"; "1.5cm nodule"; "12"; "a 5   cm"]
   = [true; true; true; false; false; false; false; true; false; true].
Proof. reflexivity. Qed.

Example meas_ex2 : map is_measurement_like ["3.5 cm"; "3. cm"; "a2 m"; "2 m."; "_2m"; "2m_"; ".5mm"]
   = [true; false; false; true; false; false; true].
Proof. reflexivity. Qed.

Example head_ex1 : head_candidates "small left pleural effusion" = ["pleural effusion"; "effusion"].
Proof. vm_compute. reflexivity. Qed.

Example head_ex2 : head_candidates "no focal airspace consolidation" = ["focal airspace consolidation"; "airspace consolidation"; "consolidation"].
Proof. vm_compute. reflexivity. Qed.

Example build_keys_ex1 : keys (build_keys "small left pleural-effusion" []) =
  [("full_norm", "small left pleural-effusion"); ("full_can", "small left pleural effusion");
   ("head", "pleural effusion"); ("head", "effusion")].
Proof. vm_compute. reflexivity. Qed.

Example build_keys_ex2 : keys (build_keys "effusion" ["B"; "A"; "B"]) = [("full_norm", "effusion")]
  /\ types_seen (build_keys "effusion" ["B"; "A"; "B"]) = ["A"; "B"].
Proof. vm_compute. split; reflexivity. Qed.

Example e2e_demo :
  map (fun '(m, g) => (m, best_cui g, map cui (candidates g), excluded_reason g))
      (map_mentions_to_cui demo_matcher mrconso_demo ["pneumonia"; "3 cm"; "pneumonia"; ""] ∅)
  = [("", None, [], None);
     ("3 cm", None, [], Some "measurement_like");
     ("pneumonia", Some "C0032285", ["C0032285"; "C0032286"], None)].
Proof. vm_compute. reflexivity. Qed.

(** ** The character classes, code point by code point *)

Example is_space_codes :
  codes_where is_space = [9; 10; 11; 12; 13; 28; 29; 30; 31; 32; 133; 160].
Proof. vm_compute. reflexivity. Qed.

Example is_digit_codes : codes_where is_digit = seq 48 10.
Proof. vm_compute. reflexivity. Qed.

Example is_word_codes :
  codes_where is_word =
  seq 48 10 ++ seq 65 26 ++ [95] ++ seq 97 26
  ++ [170; 178; 179; 181; 185; 186; 188; 189; 190]
  ++ seq 192 23 ++ seq 216 31 ++ seq 248 8.
Proof. vm_compute. reflexivity. Qed.

Example lower_char_codes :
  codes_where (fun c => negb (Ascii.eqb (lower_char c) c)) =
    seq 65 26 ++ seq 192 23 ++ seq 216 7 /\
  forallb (fun c => Ascii.eqb (lower_char c) c
                    || Nat.eqb (nat_of_ascii (lower_char c)) (nat_of_ascii c + 32))
    all_chars = true.
Proof. vm_compute. split; reflexivity. Qed.

(** ** Whitespace handling *)

Lemma rstrip_cons c s :
  rstrip (String c s) =
  if String.eqb (rstrip s) "" && is_space c then "" else String c (rstrip s).
Proof.
  simpl. destruct (rstrip s); simpl; [destruct (is_space c)|]; reflexivity.
Qed.

Lemma rstrip_all_space s : sforall is_space s = true -> rstrip s = "".
Proof.
  induction s as [|c s IH]; simpl; [reflexivity|].
  intros [Hc Hs]%andb_prop. rewrite (IH Hs), Hc. reflexivity.
Qed.

Lemma rstrip_empty_inv s : rstrip s = "" -> sforall is_space s = true.
Proof.
  induction s as [|c s IH]; simpl; [reflexivity|].
  destruct (rstrip s) eqn:E; [|discriminate].
  destruct (is_space c); [|discriminate]. intros _. simpl. auto.
Qed.

Lemma lstrip_rstrip s : rstrip (lstrip s) = lstrip (rstrip s).
Proof.
  induction s as [|c s IH]; [reflexivity|].
  rewrite rstrip_cons. simpl lstrip at 1.
  destruct (is_space c) eqn:Hc.
  - rewrite IH, andb_true_r.
    destruct (rstrip s) eqn:E; simpl; [reflexivity|]. rewrite Hc. reflexivity.
  - rewrite andb_false_r, rstrip_cons, Hc, andb_false_r. simpl. rewrite Hc. reflexivity.
Qed.

Lemma collapse_all_space b s :
  sforall is_space s = true -> sforall is_space (collapse_from b s) = true.
Proof.
  revert b. induction s as [|c s IH]; intros b; simpl; [reflexivity|].
  intros [Hc Hs]%andb_prop. rewrite Hc. destruct b; simpl; auto.
Qed.

Lemma smap_all_space g s :
  (forall c, is_space c = true -> is_space (g c) = true) ->
  sforall is_space s = true -> sforall is_space (smap g s) = true.
Proof.
  intros Hg. induction s as [|c s IH]; simpl; [reflexivity|].
  intros [Hc Hs]%andb_prop. rewrite (Hg _ Hc). auto.
Qed.

Lemma lstrip_collapse_space b c s :
  is_space c = true ->
  lstrip (collapse_from b (String c s)) = lstrip (collapse_from true s).
Proof. intros Hc. simpl. rewrite Hc. destruct b; reflexivity. Qed.

Lemma lstrip_collapse_flag b b' s :
  lstrip (collapse_from b s) = lstrip (collapse_from b' s).
Proof.
  destruct s as [|c s]; [reflexivity|].
  destruct (is_space c) eqn:Hc.
  - rewrite !lstrip_collapse_space by assumption. reflexivity.
  - simpl. rewrite Hc. reflexivity.
Qed.

Lemma lstrip_collapse_smap_lstrip g b s :
  (forall c, is_space c = true -> is_space (g c) = true) ->
  lstrip (collapse_from b (smap g (lstrip s))) = lstrip (collapse_from b (smap g s)).
Proof.
  intros Hg. revert b. induction s as [|c s IH]; intros b; [reflexivity|].
  simpl lstrip at 2. destruct (is_space c) eqn:Hc; [|reflexivity].
  simpl smap. rewrite lstrip_collapse_space by auto.
  rewrite <- (IH true). apply lstrip_collapse_flag.
Qed.

Lemma rstrip_collapse_smap_rstrip g b s :
  (forall c, is_space c = true -> is_space (g c) = true) ->
  rstrip (collapse_from b (smap g (rstrip s))) = rstrip (collapse_from b (smap g s)).
Proof.
  intros Hg. revert b. induction s as [|c s IH]; intros b; [reflexivity|].
  rewrite rstrip_cons.
  destruct (String.eqb_spec (rstrip s) "") as [E|E].
  - pose proof (rstrip_empty_inv _ E) as Hs.
    assert (Ht : forall b', rstrip (collapse_from b' (smap g s)) = "").
    { intros b'. apply rstrip_all_space, collapse_all_space, smap_all_space; auto. }
    destruct (is_space c) eqn:Hc; simpl.
    + rewrite (Hg _ Hc). destruct b; [apply eq_sym, Ht|].
      rewrite rstrip_cons, Ht. reflexivity.
    + rewrite E. simpl. destruct (is_space (g c)) eqn:Hgc.
      * destruct b; [apply eq_sym, Ht|]. rewrite !rstrip_cons, Ht. reflexivity.
      * rewrite !rstrip_cons, Ht. reflexivity.
  - simpl andb. cbv iota. simpl smap. simpl collapse_from.
    destruct (is_space (g c)); [destruct b|]; rewrite ?rstrip_cons, IH; reflexivity.
Qed.

Lemma strip_collapse_smap_strip g s :
  (forall c, is_space c = true -> is_space (g c) = true) ->
  strip (collapse_ws (smap g (strip s))) = strip (collapse_ws (smap g s)).
Proof.
  intros Hg. unfold strip at 2. unfold collapse_ws.
  transitivity (strip (collapse_from false (smap g (lstrip s)))).
  - unfold strip.
    rewrite !(lstrip_rstrip (collapse_from _ _)). f_equal.
    apply rstrip_collapse_smap_rstrip, Hg.
  - unfold strip. f_equal. apply lstrip_collapse_smap_lstrip, Hg.
Qed.

Lemma smap_smap f g s : smap g (smap f s) = smap (fun c => g (f c)) s.
Proof. induction s as [|c s IH]; simpl; [|rewrite IH]; reflexivity. Qed.

Lemma space_not_hyphen_slash c :
  is_space c = true -> Ascii.eqb c "-" || Ascii.eqb c "/" = false.
Proof.
  intros H. destruct (Ascii.eqb_spec c "-") as [->|_]; [discriminate H|].
  destruct (Ascii.eqb_spec c "/") as [->|_]; [discriminate H|]. reflexivity.
Qed.

(** ** Normalisation ([normalize_text], [canonicalize_surface]) *)

(** C6, as stated, fails: a punctuation character between two letters is
    turned into a space by [canonicalize_surface], where the claim has it
    removed without a separator. *)
Lemma C6_canonicalize_removing_counterexample :
  canonicalize_surface "a.b" = "a b" /\
  Spec.canonicalize_removing "a.b" = "ab" /\
  canonicalize_surface "a.b" <> Spec.canonicalize_removing "a.b".
Proof. vm_compute. repeat split; discriminate. Qed.

(** C6, amended: for every string [s], [canonicalize_surface s] is [s]
    lowercased, with each hyphen and slash replaced by a space, each remaining
    character outside [a-z], [0-9] and whitespace replaced by a space (not
    removed), whitespace runs collapsed to one space, and trimmed. *)
Theorem C6_canonicalize_spacing (s : string) :
  canonicalize_surface s = Spec.canonicalize_spacing s.
Proof.
  unfold canonicalize_surface, Spec.canonicalize_spacing.
  rewrite !smap_smap. apply strip_collapse_smap_strip.
  intros c Hc. unfold Spec.hyphen_slash_to_space.
  rewrite (space_not_hyphen_slash c Hc), Hc, orb_true_r. exact Hc.
Qed.

(** C7 at the failing inputs: [normalize_text] removes punctuation after it
    has collapsed and trimmed whitespace, so a punctuation character between
    two spaces leaves a run of two spaces, and one in front leaves a leading
    space. *)
Theorem C7_normalize_text_keeps_space_run :
  normalize_text "a . b" = "a  b" /\
  Spec.no_space_run (normalize_text "a . b") = false /\
  normalize_text ". a" = " a" /\
  Spec.trimmed (normalize_text ". a") = false.
Proof. vm_compute. repeat split. Qed.

(** ** What [normalize_text] does guarantee *)

Lemma collapse_spaces b s :
  sforall (fun c => negb (is_space c) || Ascii.eqb c " ") (collapse_from b s) = true.
Proof.
  revert b. induction s as [|c s IH]; intros b; simpl; [reflexivity|].
  destruct (is_space c) eqn:Hc.
  - destruct b; simpl; rewrite ?IH; reflexivity.
  - simpl. rewrite Hc, IH. reflexivity.
Qed.

Lemma sfilter_sforall p q s :
  sforall q s = true -> sforall (fun c => p c && q c) (sfilter p s) = true.
Proof.
  induction s as [|c s IH]; simpl; [reflexivity|].
  intros [Hc Hs]%andb_prop. destruct (p c) eqn:Hp; simpl; [rewrite Hp, Hc|]; auto.
Qed.

Lemma sforall_impl (p q : ascii -> bool) s :
  (forall c, p c = true -> q c = true) -> sforall p s = true -> sforall q s = true.
Proof.
  intros H. induction s as [|c s IH]; simpl; [reflexivity|].
  intros [Hc Hs]%andb_prop. rewrite (H c Hc). auto.
Qed.

(** The output of [normalize_text] is made of lowercase letters, digits,
    hyphens and spaces only. *)
Lemma normalize_text_chars s :
  sforall Spec.normalized_char (normalize_text s) = true.
Proof.
  unfold normalize_text.
  eapply sforall_impl; [|apply sfilter_sforall, (collapse_spaces false)].
  intros c. unfold Spec.normalized_char. simpl.
  destruct (is_az c), (is_digit c), (Ascii.eqb c "-"), (is_space c), (Ascii.eqb c " ");
    simpl; congruence.
Qed.

(** ** Comparisons and the insertion sort *)

Section GoodCmp.
Context {A : Type} (cmp : A -> A -> comparison) (Hc : good_cmp cmp).

Lemma cmp_refl x : cmp x x = Eq.
Proof. apply (cmp_eq _ Hc). reflexivity. Qed.

Lemma leb_of_total x y : leb_of cmp x y = true \/ leb_of cmp y x = true.
Proof.
  unfold leb_of. rewrite (cmp_opp _ Hc x y). destruct (cmp x y); simpl; auto.
Qed.

Lemma leb_of_trans x y z :
  leb_of cmp x y = true -> leb_of cmp y z = true -> leb_of cmp x z = true.
Proof.
  unfold leb_of. destruct (cmp x y) eqn:Exy; [| |discriminate]; intros _.
  - apply (cmp_eq _ Hc) in Exy. subst y. auto.
  - destruct (cmp y z) eqn:Eyz; [| |discriminate]; intros _.
    + apply (cmp_eq _ Hc) in Eyz. subst z. rewrite Exy. reflexivity.
    + rewrite (cmp_trans _ Hc x y z Exy Eyz). reflexivity.
Qed.

Lemma leb_of_antisym x y :
  leb_of cmp x y = true -> leb_of cmp y x = true -> x = y.
Proof.
  unfold leb_of. rewrite (cmp_opp _ Hc x y).
  destruct (cmp x y) eqn:E; simpl; try discriminate.
  intros _ _. apply (cmp_eq _ Hc), E.
Qed.
End GoodCmp.

Lemma lex_assoc a b c : lex (lex a b) c = lex a (lex b c).
Proof. destruct a; reflexivity. Qed.

Lemma good_cmp_lex {A B} (ca : A -> A -> comparison) (cb : B -> B -> comparison) :
  good_cmp ca -> good_cmp cb ->
  good_cmp (fun x y : A * B => lex (ca (fst x) (fst y)) (cb (snd x) (snd y))).
Proof.
  intros Ha Hb. split.
  - intros [a1 b1] [a2 b2]. simpl. destruct (ca a1 a2) eqn:E; simpl.
    + apply (cmp_eq _ Ha) in E. subst a2. rewrite (cmp_eq _ Hb). split; congruence.
    + split; [discriminate|]. intros [= -> _]. rewrite (cmp_refl _ Ha) in E. discriminate.
    + split; [discriminate|]. intros [= -> _]. rewrite (cmp_refl _ Ha) in E. discriminate.
  - intros [a1 b1] [a2 b2]. simpl. rewrite (cmp_opp _ Ha a1 a2), (cmp_opp _ Hb b1 b2).
    destruct (ca a1 a2); reflexivity.
  - intros [a1 b1] [a2 b2] [a3 b3]. simpl.
    destruct (ca a1 a2) eqn:E12; simpl; [| |discriminate].
    + apply (cmp_eq _ Ha) in E12. subst a2.
      destruct (ca a1 a3) eqn:E13; simpl; [|reflexivity|discriminate].
      apply (cmp_trans _ Hb).
    + intros _. destruct (ca a2 a3) eqn:E23; simpl; [| |discriminate].
      * apply (cmp_eq _ Ha) in E23. subst a3. rewrite E12. reflexivity.
      * rewrite (cmp_trans _ Ha _ _ _ E12 E23). reflexivity.
Qed.

Lemma good_cmp_nat : good_cmp Nat.compare.
Proof.
  split.
  - apply Nat.compare_eq_iff.
  - intros x y. apply Nat.compare_antisym.
  - intros x y z. rewrite !Nat.compare_lt_iff. lia.
Qed.

Lemma good_cmp_ascii : good_cmp Ascii.compare.
Proof.
  unfold Ascii.compare. split.
  - intros x y. rewrite N.compare_eq_iff. split; [|congruence].
    intros H. rewrite <- (ascii_N_embedding x), <- (ascii_N_embedding y), H. reflexivity.
  - intros x y. apply N.compare_antisym.
  - intros x y z. rewrite !N.compare_lt_iff. lia.
Qed.

Lemma good_cmp_string : good_cmp String.compare.
Proof.
  split.
  - intros x y. split; [apply String.compare_eq_iff|]. intros <-.
    pose proof (String.compare_antisym x x) as H.
    destruct (String.compare x x); [reflexivity|discriminate..].
  - intros x y. apply String.compare_antisym.
  - intros x. induction x as [|a x IH]; intros [|b y] [|c z]; simpl; try congruence.
    destruct (Ascii.compare a b) eqn:Eab; [| |discriminate].
    + apply (cmp_eq _ good_cmp_ascii) in Eab. subst b.
      destruct (Ascii.compare a c); [apply IH|reflexivity|discriminate].
    + intros _. destruct (Ascii.compare b c) eqn:Ebc; [| |discriminate].
      * apply (cmp_eq _ good_cmp_ascii) in Ebc. subst c. rewrite Eab. reflexivity.
      * rewrite (cmp_trans _ good_cmp_ascii _ _ _ Eab Ebc). reflexivity.
Qed.

Lemma String_leb_leb_of : String.leb = leb_of String.compare.
Proof. reflexivity. Qed.

Lemma good_cmp_rank : good_cmp rank_compare.
Proof.
  pose proof good_cmp_nat as Hn. pose proof good_cmp_string as Hs.
  pose proof (good_cmp_lex _ _ (good_cmp_lex _ _ (good_cmp_lex _ _ (good_cmp_lex _ _
    (good_cmp_lex _ _ (good_cmp_lex _ _ Hn Hn) Hn) Hn) Hs) Hs) Hs) as H.
  assert (E : forall a b : rank, rank_compare a b =
     lex (lex (lex (lex (lex (lex
       (Nat.compare (fst (fst (fst (fst (fst (fst a)))))) (fst (fst (fst (fst (fst (fst b)))))))
       (Nat.compare (snd (fst (fst (fst (fst (fst a)))))) (snd (fst (fst (fst (fst (fst b))))))))
       (Nat.compare (snd (fst (fst (fst (fst a))))) (snd (fst (fst (fst (fst b)))))))
       (Nat.compare (snd (fst (fst (fst a)))) (snd (fst (fst (fst b))))))
       (String.compare (snd (fst (fst a))) (snd (fst (fst b)))))
       (String.compare (snd (fst a)) (snd (fst b))))
       (String.compare (snd a) (snd b))).
  { intros [[[[[[k1 p1] s1] t1] sa1] ty1] cu1] [[[[[[k2 p2] s2] t2] sa2] ty2] cu2].
    simpl. rewrite !lex_assoc. reflexivity. }
  split.
  - intros x y. rewrite E. apply (cmp_eq _ H).
  - intros x y. rewrite !E. apply (cmp_opp _ H).
  - intros x y z. rewrite !E. apply (cmp_trans _ H).
Qed.

Section SortLemmas.
Context {A : Type} (leb : A -> A -> bool).
Hypothesis leb_total : forall x y, leb x y = true \/ leb y x = true.
Hypothesis leb_trans : forall x y z, leb x y = true -> leb y z = true -> leb x z = true.

Lemma insert_sorted_perm x l : insert_sorted leb x l ≡ₚ x :: l.
Proof.
  induction l as [|y l IH]; simpl; [reflexivity|].
  destruct (leb x y); [reflexivity|]. rewrite IH. apply Permutation_swap.
Qed.

Lemma sort_by_perm l : sort_by leb l ≡ₚ l.
Proof.
  induction l as [|x l IH]; simpl; [reflexivity|].
  rewrite insert_sorted_perm, IH. reflexivity.
Qed.

Lemma insert_sorted_sorted x l :
  StronglySorted (fun a b => leb a b = true) l ->
  StronglySorted (fun a b => leb a b = true) (insert_sorted leb x l).
Proof.
  induction l as [|y l IH]; simpl; intros Hs.
  - repeat constructor.
  - apply StronglySorted_inv in Hs as [Hs Hy].
    destruct (leb x y) eqn:E.
    + constructor; [constructor; assumption|].
      constructor; [assumption|].
      eapply Forall_impl; [exact Hy|]. intros z Hz. simpl in *. eauto.
    + constructor; [auto|].
      rewrite insert_sorted_perm. constructor; [|assumption].
      destruct (leb_total x y) as [H|H]; congruence.
Qed.

Lemma sort_by_sorted l : StronglySorted (fun a b => leb a b = true) (sort_by leb l).
Proof.
  induction l as [|x l IH]; simpl; [constructor|].
  apply insert_sorted_sorted, IH.
Qed.

(** Sorting forgets the order of the input when no two of its elements tie. *)
Lemma sort_by_perm_eq l1 l2 :
  (forall x y, x ∈ l1 -> y ∈ l1 -> leb x y = true -> leb y x = true -> x = y) ->
  l1 ≡ₚ l2 -> sort_by leb l1 = sort_by leb l2.
Proof.
  intros Hanti Hp.
  apply (StronglySorted_unique_strong (fun a b => leb a b = true)).
  - intros x y Hx Hy. rewrite sort_by_perm in Hx. rewrite sort_by_perm, <- Hp in Hy.
    auto.
  - apply sort_by_sorted.
  - apply sort_by_sorted.
  - rewrite !sort_by_perm. exact Hp.
Qed.
End SortLemmas.

Lemma sort_by_ext {A} (f g : A -> A -> bool) l :
  (forall x y, x ∈ l -> y ∈ l -> f x y = g x y) -> sort_by f l = sort_by g l.
Proof.
  induction l as [|x l IH]; intros H; simpl; [reflexivity|].
  rewrite <- IH by (intros; apply H; constructor; assumption).
  assert (Hin : forall y, y ∈ sort_by f l -> f x y = g x y).
  { intros y Hy. apply H; [constructor|].
    constructor. rewrite <- (sort_by_perm f l). exact Hy. }
  revert Hin. generalize (sort_by f l) as l'.
  induction l' as [|y l' IH']; intros Hin; simpl; [reflexivity|].
  rewrite <- (Hin y) by constructor.
  destruct (f x y); [reflexivity|]. f_equal. apply IH'.
  intros z Hz. apply Hin. constructor. exact Hz.
Qed.

(** ** [sorted(set(l))] *)

Lemma sorted_set_elem x l : x ∈ sorted_set l <-> x ∈ l.
Proof. unfold sorted_set. rewrite sort_by_perm. apply elem_of_remove_dups. Qed.

Lemma sorted_set_NoDup l : NoDup (sorted_set l).
Proof. unfold sorted_set. rewrite sort_by_perm. apply NoDup_remove_dups. Qed.

Lemma sorted_set_sorted l :
  StronglySorted (fun a b => String.leb a b = true) (sorted_set l).
Proof.
  apply sort_by_sorted.
  - apply (leb_of_total _ good_cmp_string).
  - apply (leb_of_trans _ good_cmp_string).
Qed.

(** The result only depends on which strings occur in the list. *)
Lemma sorted_set_same_elements l1 l2 :
  (forall x, x ∈ l1 <-> x ∈ l2) -> sorted_set l1 = sorted_set l2.
Proof.
  intros H. apply (StronglySorted_unique_strong (fun a b => String.leb a b = true)).
  - intros x y _ _. apply (leb_of_antisym _ good_cmp_string).
  - apply sorted_set_sorted.
  - apply sorted_set_sorted.
  - apply NoDup_Permutation; [apply sorted_set_NoDup..|].
    intros x. rewrite !sorted_set_elem. apply H.
Qed.

(** ** The semantic-type filter *)

Lemma size_pos_ltb (X : gset string) : Nat.ltb 0 (size X) = true <-> exists x, x ∈ X.
Proof.
  rewrite Nat.ltb_lt. split; [apply size_pos_elem_of|].
  intros [x Hx]. destruct (size X) eqn:E; [|lia].
  apply size_empty_inv in E. set_solver.
Qed.

Lemma apply_mrsty_filter_disabled self c t :
  use_mrsty_filter self = false -> _apply_mrsty_filter self c t = true.
Proof. unfold _apply_mrsty_filter. intros ->. reflexivity. Qed.

Lemma apply_mrsty_filter_other self c t :
  t <> "ANATOMY" -> t <> "OBSERVATION" -> _apply_mrsty_filter self c t = true.
Proof.
  intros Ha Ho. unfold _apply_mrsty_filter.
  destruct (negb (use_mrsty_filter self)); [reflexivity|].
  destruct (String.eqb_spec t "ANATOMY"); [contradiction|].
  destruct (String.eqb_spec t "OBSERVATION"); [contradiction|]. reflexivity.
Qed.

Lemma apply_mrsty_filter_enabled self c t :
  use_mrsty_filter self = true ->
  _apply_mrsty_filter self c t = true <->
  ~ Spec.target_hint t \/ Spec.hint_supports self c t.
Proof.
  intros Hen. unfold _apply_mrsty_filter, Spec.hint_supports, Spec.hint_codes,
    Spec.cui_codes, Spec.target_hint.
  rewrite Hen. simpl.
  destruct (String.eqb_spec t "ANATOMY") as [->|Ha].
  - rewrite size_pos_ltb. split.
    + intros [x Hx]. right. exists x. apply elem_of_intersection in Hx. tauto.
    + intros [H|[x Hx]]; [exfalso; apply H; auto|]. exists x.
      apply elem_of_intersection. tauto.
  - destruct (String.eqb_spec t "OBSERVATION") as [->|Ho].
    + rewrite size_pos_ltb. split.
      * intros [x Hx]. right. exists x. apply elem_of_intersection in Hx. tauto.
      * intros [H|[x Hx]]; [exfalso; apply H; auto|]. exists x.
        apply elem_of_intersection. tauto.
    + split; [|reflexivity]. intros _. left. intros [?|?]; contradiction.
Qed.

Lemma passes_filter_nil self c : passes_filter self [] c = true.
Proof. reflexivity. Qed.

(** With the filter disabled, which is the default, nothing is filtered out. *)
Lemma passes_filter_disabled self ts c :
  use_mrsty_filter self = false -> passes_filter self ts c = true.
Proof.
  intros H. destruct ts as [|t ts]; [reflexivity|].
  cbn [passes_filter existsb]. rewrite apply_mrsty_filter_disabled by assumption.
  reflexivity.
Qed.

Lemma passes_filter_existsb self ts c :
  ts <> [] -> passes_filter self ts c = existsb (_apply_mrsty_filter self (cui c)) ts.
Proof. destruct ts; [congruence|reflexivity]. Qed.

Lemma filter_all {A} (p : A -> bool) l :
  (forall x, In x l -> p x = true) -> List.filter p l = l.
Proof.
  induction l as [|x l IH]; simpl; intros H; [reflexivity|].
  rewrite (H x) by auto. f_equal. auto.
Qed.

(** C10: with the filter enabled, a mention whose observed type hints
    include one that is neither "ANATOMY" nor "OBSERVATION" keeps every
    candidate, whatever the concept-to-type-code mapping and the two
    allowed-code sets are. *)
Theorem C10_other_hint_passes_every_candidate
  (self : matcher) (m : string) (hints : list string) (t : string) (cands : list cand) :
  use_mrsty_filter self = true ->
  In t hints -> t <> "ANATOMY" -> t <> "OBSERVATION" ->
  List.filter (passes_filter self (types_seen (build_keys m hints))) cands = cands.
Proof.
  intros _ Hin Ha Ho. apply filter_all. intros c _.
  assert (Ht : t ∈ types_seen (build_keys m hints)).
  { simpl. apply sorted_set_elem, list_elem_of_In, Hin. }
  rewrite passes_filter_existsb by (intros E; rewrite E in Ht; inversion Ht).
  apply existsb_exists. exists t. split.
  - apply list_elem_of_In, Ht.
  - apply apply_mrsty_filter_other; assumption.
Qed.

Lemma C10_other_hint_witness :
  List.filter (passes_filter strict_filter_matcher
                 (types_seen (build_keys "pneumonia" ["ANATOMY"; "UNKNOWN"]))) [some_cand]
  = [some_cand].
Proof.
  apply (C10_other_hint_passes_every_candidate strict_filter_matcher "pneumonia"
           ["ANATOMY"; "UNKNOWN"] "UNKNOWN" [some_cand]).
  - reflexivity.
  - simpl. auto.
  - discriminate.
  - discriminate.
Defined.

(** C5, as stated, fails: with the filter enabled and the single hint
    "UNKNOWN", which maps to no type code at all, the candidate survives. *)
Lemma C5_filter_counterexample :
  use_mrsty_filter strict_filter_matcher = true /\
  passes_filter strict_filter_matcher ["UNKNOWN"] some_cand = true /\
  ~ (exists t, In t ["UNKNOWN"] /\
               Spec.hint_supports strict_filter_matcher (cui some_cand) t).
Proof.
  split; [reflexivity|]. split; [reflexivity|].
  intros [t [[<-|[]] [code [Hc _]]]].
  unfold Spec.hint_codes in Hc. simpl in Hc. set_solver.
Qed.

(** C5, amended: with the filter enabled, a candidate of a mention with a
    non-empty hint set survives exactly when one of the hints either is
    neither "ANATOMY" nor "OBSERVATION", or maps to an allowed code that is
    among the type codes of the candidate's CUI; a mention with no hints keeps
    every candidate. *)
Theorem C5_filter_survival (self : matcher) (hints : list string) (c : cand) :
  use_mrsty_filter self = true ->
  (hints <> [] ->
     passes_filter self hints c = true <->
     exists t, In t hints /\
       (~ Spec.target_hint t \/ Spec.hint_supports self (cui c) t)) /\
  (hints = [] -> passes_filter self hints c = true).
Proof.
  intros Hen. split.
  - intros Hne. rewrite passes_filter_existsb by assumption.
    rewrite existsb_exists. split.
    + intros [t [Hin Ht]]. exists t. split; [assumption|].
      apply (apply_mrsty_filter_enabled self (cui c) t Hen), Ht.
    + intros [t [Hin Ht]]. exists t. split; [assumption|].
      apply (apply_mrsty_filter_enabled self (cui c) t Hen), Ht.
  - intros ->. reflexivity.
Qed.

Lemma C5_filter_survival_witness :
  (["ANATOMY"] <> [] ->
     passes_filter strict_filter_matcher ["ANATOMY"] some_cand = true <->
     exists t, In t ["ANATOMY"] /\
       (~ Spec.target_hint t \/
        Spec.hint_supports strict_filter_matcher (cui some_cand) t)) /\
  (["ANATOMY"] = [] -> passes_filter strict_filter_matcher ["ANATOMY"] some_cand = true).
Proof.
  apply (C5_filter_survival strict_filter_matcher ["ANATOMY"] some_cand). reflexivity.
Defined.

(** ** The source rank of [_rank_candidate] *)

Lemma index_of_None x l : index_of x l = None <-> x ∉ l.
Proof.
  induction l as [|y l IH]; simpl.
  - split; [intros _ H; inversion H|reflexivity].
  - destruct (String.eqb_spec x y) as [->|Hne].
    + split; [discriminate|]. intros H. exfalso. apply H. constructor.
    + destruct (index_of x l) eqn:E; simpl.
      * split; [discriminate|]. intros H. exfalso. apply H. constructor.
        apply dec_stable. intros Hn. apply IH in Hn. discriminate.
      * split; [|reflexivity]. intros _ H. inversion H; subst; [congruence|].
        apply (proj1 IH); auto.
Qed.

Lemma index_of_Some x l i :
  index_of x l = Some i <->
  l !! i = Some x /\ (forall j, j < i -> l !! j <> Some x).
Proof.
  revert i. induction l as [|y l IH]; intros i; simpl.
  - split; [discriminate|]. intros [H _]. discriminate.
  - destruct (String.eqb_spec x y) as [->|Hne].
    + split.
      * intros [= <-]. split; [reflexivity|]. intros j Hj. lia.
      * intros [Hi Hmin]. destruct i as [|i]; [reflexivity|].
        exfalso. apply (Hmin 0); [lia|reflexivity].
    + split.
      * destruct (index_of x l) as [i'|] eqn:E; [|discriminate].
        intros [= <-]. destruct (proj1 (IH i') eq_refl) as [Hi Hmin].
        split; [exact Hi|]. intros [|j] Hj; simpl; [congruence|].
        apply Hmin. lia.
      * intros [Hi Hmin]. destruct i as [|i]; simpl in Hi; [congruence|].
        rewrite (proj2 (IH i)); [reflexivity|].
        split; [exact Hi|]. intros j Hj. apply (Hmin (S j)). lia.
Qed.

Lemma index_of_lt x l i : index_of x l = Some i -> i < length l.
Proof.
  intros H. apply index_of_Some in H as [H _]. eapply lookup_lt_Some, H.
Qed.

Lemma index_of_elem x l : x ∈ l -> exists i, index_of x l = Some i.
Proof.
  intros H. destruct (index_of x l) as [i|] eqn:E; [eauto|].
  apply index_of_None in E. contradiction.
Qed.

(** [__init__] never leaves the attribute unset: the configured list, or the
    default one when none or an empty one is given. *)
Lemma init_sab_preference path cfg k u c2t a o :
  sab_preference (init path cfg k u c2t a o) =
  Some (match cfg with Some (x :: l) => x :: l | _ => DEFAULT_SAB_PREFERENCE end).
Proof. reflexivity. Qed.

(** The branch of [_rank_candidate] for an unset attribute. *)
Lemma sab_rank_unset self c : sab_preference self = None -> sab_rank self c = 0.
Proof. unfold sab_rank. intros ->. reflexivity. Qed.

Lemma sab_rank_listed self pref c i :
  sab_preference self = Some pref -> index_of (sab c) pref = Some i ->
  sab_rank self c = i.
Proof. unfold sab_rank. intros -> ->. reflexivity. Qed.

Lemma sab_rank_absent self pref c :
  sab_preference self = Some pref -> index_of (sab c) pref = None ->
  sab_rank self c = 999.
Proof. unfold sab_rank. intros -> ->. reflexivity. Qed.

(** C8, as stated, fails in its last part: a matcher configured with no
    source-preference list ranks by the default list, so an "MSH" row has source
    rank 2 and a row of an unlisted source 999, not 0. *)
Lemma C8_no_list_counterexample :
  sab_rank (init "MRCONSO.RRF" None 5 false None None None) msh_cand = 2 /\
  sab_rank (init "MRCONSO.RRF" None 5 false None None None) other_cand = 999.
Proof. split; reflexivity. Qed.

(** C8, amended: the source rank of a candidate follows the attribute
    [sab_preference] of the matcher.  When the attribute holds a list, the rank
    is the first index of the candidate's source in it, and 999 for a source
    absent from it, which is after every listed source when the list has at
    most 999 entries.  When the attribute is [None], every candidate has rank
    0.  The constructor sets the attribute to the configured list or, when no
    list or an empty one is configured, to the default
    [SNOMEDCT_US; RXNORM; MSH]: never to [None]. *)
Theorem C8_source_rank (self : matcher) (c : cand) :
  (forall pref, sab_preference self = Some pref ->
     (forall i, pref !! i = Some (sab c) ->
                (forall j, j < i -> pref !! j <> Some (sab c)) ->
                sab_rank self c = i) /\
     (sab c ∉ pref ->
      sab_rank self c = 999 /\
      (length pref <= 999 ->
       forall c', sab c' ∈ pref -> sab_rank self c' < sab_rank self c))) /\
  (sab_preference self = None -> sab_rank self c = 0) /\
  (forall path cfg k u c2t a o,
     sab_preference (init path cfg k u c2t a o) =
     Some (match cfg with Some (x :: l) => x :: l | _ => DEFAULT_SAB_PREFERENCE end)).
Proof.
  split; [|split].
  - intros pref Hp. split.
    + intros i Hi Hmin. apply (sab_rank_listed self pref c i Hp).
      apply index_of_Some. auto.
    + intros Habs.
      assert (E : sab_rank self c = 999)
        by (apply (sab_rank_absent self pref c Hp), index_of_None, Habs).
      split; [exact E|]. intros Hlen c' Hin. rewrite E.
      destruct (index_of_elem _ _ Hin) as [i Hi].
      rewrite (sab_rank_listed self pref c' i Hp Hi).
      apply index_of_lt in Hi. lia.
  - apply sab_rank_unset.
  - intros. apply init_sab_preference.
Qed.

Lemma C8_source_rank_witness :
  sab_rank demo_matcher msh_cand = 2 /\
  sab_rank demo_matcher other_cand = 999 /\
  sab_rank demo_matcher msh_cand < sab_rank demo_matcher other_cand /\
  sab_rank unset_pref_matcher other_cand = 0.
Proof.
  assert (Habs : sab other_cand ∉ DEFAULT_SAB_PREFERENCE).
  { intros H. apply list_elem_of_In in H. simpl in H.
    destruct H as [H|[H|[H|[]]]]; discriminate. }
  split; [|split; [|split]].
  - apply (proj1 (proj1 (C8_source_rank demo_matcher msh_cand)
                    DEFAULT_SAB_PREFERENCE eq_refl)).
    + reflexivity.
    + intros [|[|j]] Hj; simpl; [discriminate|discriminate|lia].
  - apply (proj2 (proj1 (C8_source_rank demo_matcher other_cand)
                    DEFAULT_SAB_PREFERENCE eq_refl)), Habs.
  - apply (proj2 (proj1 (C8_source_rank demo_matcher other_cand)
                    DEFAULT_SAB_PREFERENCE eq_refl)).
    + exact Habs.
    + simpl. lia.
    + apply list_elem_of_In. simpl. auto.
  - apply (proj1 (proj2 (C8_source_rank unset_pref_matcher other_cand))). reflexivity.
Defined.

(** ** The key maps of the first loop *)

Lemma register_keys_lookup m ks (km : gmap string (list (string * string))) k :
  default [] (register_keys m ks km !! k) =
  default [] (km !! k) ++
  map (fun p => (m, fst p)) (List.filter (fun p => String.eqb (snd p) k) ks).
Proof.
  unfold register_keys. revert km.
  induction ks as [|[kt k'] ks IH]; intros km; simpl.
  - rewrite app_nil_r. reflexivity.
  - rewrite IH. destruct (String.eqb_spec k' k) as [->|Hne].
    + rewrite lookup_insert_eq. simpl. rewrite <- app_assoc. reflexivity.
    + rewrite lookup_insert_ne by assumption. reflexivity.
Qed.

Lemma build_key_maps_requests mt ms (acc : key_maps) k :
  default [] (snd (fold_left (add_mention mt) ms acc) !! k) =
  default [] (snd acc !! k) ++ flat_map (Spec.requests_of mt k) ms.
Proof.
  revert acc. induction ms as [|m ms IH]; intros acc; simpl.
  - rewrite app_nil_r. reflexivity.
  - rewrite IH. unfold add_mention. simpl.
    rewrite register_keys_lookup, <- app_assoc. reflexivity.
Qed.

Lemma build_key_maps_info_other mt ms (acc : key_maps) m :
  m ∉ ms -> fst (fold_left (add_mention mt) ms acc) !! m = fst acc !! m.
Proof.
  revert acc. induction ms as [|m' ms IH]; intros acc Hm; simpl; [reflexivity|].
  apply not_elem_of_cons in Hm as [Hne Hm].
  rewrite IH by assumption. simpl. apply lookup_insert_ne. congruence.
Qed.

Lemma build_key_maps_info mt ms (acc : key_maps) m :
  m ∈ ms ->
  fst (fold_left (add_mention mt) ms acc) !! m =
  Some (build_keys m (Spec.hints_of mt m)).
Proof.
  revert acc. induction ms as [|m' ms IH]; intros acc Hm; [inversion Hm|].
  simpl. destruct (decide (m ∈ ms)) as [Hin|Hnin].
  - apply IH, Hin.
  - apply elem_of_cons in Hm as [->|Hm]; [|contradiction].
    rewrite build_key_maps_info_other by assumption. simpl.
    apply lookup_insert_eq.
Qed.

(** Every [mention_keys[m]] the function evaluates is defined. *)
Lemma mention_keys_total mt ms m :
  m ∈ ms ->
  fst (build_key_maps ms mt) !!! m = build_keys m (Spec.hints_of mt m).
Proof.
  intros Hm. unfold build_key_maps. rewrite lookup_total_alt.
  rewrite build_key_maps_info by assumption. reflexivity.
Qed.

Lemma key_to_mentions_requests mt ms k :
  default [] (snd (build_key_maps ms mt) !! k) = flat_map (Spec.requests_of mt k) ms.
Proof.
  unfold build_key_maps. rewrite build_key_maps_requests. reflexivity.
Qed.

Lemma request_of_its_mention mt k m q : q ∈ Spec.requests_of mt k m -> fst q = m.
Proof.
  unfold Spec.requests_of. intros H. apply list_elem_of_In, in_map_iff in H as [p [<- _]].
  reflexivity.
Qed.

Lemma requests_mention_in mt ms k q :
  q ∈ flat_map (Spec.requests_of mt k) ms -> fst q ∈ ms.
Proof.
  intros H. apply list_elem_of_In, in_flat_map in H as [m [Hm Hq]].
  apply list_elem_of_In in Hq. rewrite (request_of_its_mention _ _ _ _ Hq).
  apply list_elem_of_In, Hm.
Qed.

(** ** The scan, mention by mention *)

Lemma existsb_same_key c b :
  existsb (Spec.same_key c) b = true <->
  exists x, x ∈ b /\ cui x = cui c /\ sab x = sab c /\ tty x = tty c.
Proof.
  rewrite existsb_exists. unfold Spec.same_key. split.
  - intros [x [Hx H]]. exists x. apply list_elem_of_In in Hx.
    apply andb_prop in H as [H H3]. apply andb_prop in H as [H1 H2].
    apply String.eqb_eq in H1, H2, H3. auto.
  - intros [x [Hx [H1 [H2 H3]]]]. exists x. split; [apply list_elem_of_In, Hx|].
    rewrite H1, H2, H3, !String.eqb_refl. reflexivity.
Qed.

Lemma bucket_insert (b : gmap string (list cand)) seen m l m' :
  Spec.bucket (<[m := l]> b, seen) m' = if decide (m = m') then l else Spec.bucket (b, seen) m'.
Proof.
  unfold Spec.bucket. simpl. rewrite lookup_insert. destruct (decide (m = m')); reflexivity.
Qed.

Lemma record_match_spec mk r s_key st q :
  Spec.scan_inv st ->
  Spec.scan_inv (record_match mk r s_key st q) /\
  forall m, Spec.bucket (record_match mk r s_key st q) m =
            fold_left Spec.add_cand (Spec.offered mk m r s_key [q]) (Spec.bucket st m).
Proof.
  intros Hinv. destruct q as [m' kt]. destruct st as [b seen].
  unfold record_match, Spec.offered. simpl.
  destruct (is_measurement (mk !!! m')) eqn:Hmeas.
  { split; [assumption|]. intros m. rewrite andb_false_r. reflexivity. }
  change (negb false) with true.
  set (cd := mk_cand r s_key kt).
  assert (Hseen : (m', r_cui r, r_sab r, r_tty r) ∈ seen <->
                  existsb (Spec.same_key cd) (Spec.bucket (b, seen) m') = true).
  { rewrite existsb_same_key. apply Hinv. }
  destruct (bool_decide_reflect ((m', r_cui r, r_sab r, r_tty r) ∈ seen)) as [Hin|Hnin].
  - split; [assumption|]. intros m. rewrite andb_true_r.
    destruct (String.eqb_spec m' m) as [<-|Hne]; [|reflexivity].
    cbn [map fold_left snd]. fold cd. unfold Spec.add_cand.
    rewrite (proj1 Hseen Hin). reflexivity.
  - assert (Hex : existsb (Spec.same_key cd) (Spec.bucket (b, seen) m') = false).
    { apply not_true_is_false. intros E. apply Hnin, Hseen, E. }
    split.
    + intros m c s t. rewrite bucket_insert. simpl snd.
      rewrite elem_of_union, elem_of_singleton, (Hinv m c s t).
      fold (Spec.bucket (b, seen) m').
      destruct (decide (m' = m)) as [<-|Hne].
      * split.
        -- intros [[= -> -> ->]|[x [Hx Hf]]].
           ++ exists cd. split; [|auto]. apply elem_of_app. right. constructor.
           ++ exists x. split; [|exact Hf]. apply elem_of_app. left. exact Hx.
        -- intros [x [Hx Hf]]. apply elem_of_app in Hx as [Hx|Hx].
           ++ right. exists x. auto.
           ++ apply list_elem_of_singleton in Hx. subst x.
              destruct Hf as [<- [<- <-]]. left. reflexivity.
      * split.
        -- intros [[= Hm _ _ _]|H]; [congruence|exact H].
        -- intros H. right. exact H.
    + intros m. rewrite bucket_insert, andb_true_r. fold (Spec.bucket (b, seen) m').
      destruct (String.eqb_spec m' m) as [<-|Hne].
      * rewrite decide_True by reflexivity. cbn [map fold_left snd]. fold cd.
        unfold Spec.add_cand. rewrite Hex. reflexivity.
      * rewrite decide_False by assumption. reflexivity.
Qed.

Lemma offered_app mk m r s_key l1 l2 :
  Spec.offered mk m r s_key (l1 ++ l2) =
  Spec.offered mk m r s_key l1 ++ Spec.offered mk m r s_key l2.
Proof. unfold Spec.offered. rewrite List.filter_app, map_app. reflexivity. Qed.

Lemma record_matches_spec mk r s_key reqs st :
  Spec.scan_inv st ->
  Spec.scan_inv (fold_left (record_match mk r s_key) reqs st) /\
  forall m, Spec.bucket (fold_left (record_match mk r s_key) reqs st) m =
            fold_left Spec.add_cand (Spec.offered mk m r s_key reqs) (Spec.bucket st m).
Proof.
  revert st. induction reqs as [|q reqs IH]; intros st Hinv.
  - split; [assumption|reflexivity].
  - simpl fold_left at 1 3.
    destruct (record_match_spec mk r s_key st q Hinv) as [Hinv' Hb].
    destruct (IH _ Hinv') as [Hinv'' Hb'].
    split; [assumption|]. intros m.
    rewrite Hb', Hb. change (q :: reqs) with ([q] ++ reqs).
    rewrite offered_app, fold_left_app. reflexivity.
Qed.

Lemma scan_line_spec maps st line :
  Spec.scan_inv st ->
  Spec.scan_inv (scan_line maps st line) /\
  forall m, Spec.bucket (scan_line maps st line) m =
            fold_left Spec.add_cand (Spec.line_offers maps m line) (Spec.bucket st m).
Proof.
  intros Hinv. unfold scan_line, Spec.line_offers.
  destruct (parse_line line) as [r|]; [|split; [assumption|reflexivity]].
  destruct (negb (String.eqb (r_lat r) "ENG")); [split; [assumption|reflexivity]|].
  destruct (snd maps !! canonicalize_surface (r_str r)) as [reqs|]; simpl.
  - apply record_matches_spec, Hinv.
  - split; [assumption|reflexivity].
Qed.

Lemma scan_lines_spec maps lines st :
  Spec.scan_inv st ->
  Spec.scan_inv (fold_left (scan_line maps) lines st) /\
  forall m, Spec.bucket (fold_left (scan_line maps) lines st) m =
            fold_left Spec.add_cand (flat_map (Spec.line_offers maps m) lines)
              (Spec.bucket st m).
Proof.
  revert st. induction lines as [|line lines IH]; intros st Hinv.
  - split; [assumption|reflexivity].
  - simpl fold_left at 1 3.
    destruct (scan_line_spec maps st line Hinv) as [Hinv' Hb].
    destruct (IH _ Hinv') as [Hinv'' Hb'].
    split; [assumption|]. intros m.
    rewrite Hb', Hb. simpl flat_map. rewrite fold_left_app. reflexivity.
Qed.

Lemma scan_inv_empty : Spec.scan_inv (∅, ∅).
Proof.
  intros m c s t. unfold Spec.bucket. simpl. rewrite lookup_empty. simpl. split.
  - intros H. apply not_elem_of_empty in H. contradiction.
  - intros [x [Hx _]]. inversion Hx.
Qed.

(** The bucket of a mention after the scan: the first candidate of every
    (CUI, source, term type) among those the lines offered it. *)
Lemma scan_file_bucket maps lines m :
  Spec.bucket (scan_file maps lines) m =
  Spec.first_per_key (flat_map (Spec.line_offers maps m) lines).
Proof.
  unfold scan_file, Spec.first_per_key.
  destruct (scan_lines_spec maps lines _ scan_inv_empty) as [_ H].
  rewrite H. reflexivity.
Qed.

(** ** The matcher of regular expressions against their meaning *)

Lemma sapp_assoc (a b c : string) : (a +:+ b) +:+ c = a +:+ (b +:+ c).
Proof. induction a as [|x a IH]; simpl; [|rewrite IH]; reflexivity. Qed.

Lemma sapp_nil_r (a : string) : a +:+ "" = a.
Proof. induction a as [|x a IH]; simpl; [|rewrite IH]; reflexivity. Qed.

Lemma after_app prev t1 t2 :
  Spec.after prev (t1 +:+ t2) = Spec.after (Spec.after prev t1) t2.
Proof. revert prev. induction t1 as [|c t1 IH]; intros prev; simpl; auto. Qed.

Lemma eat_lit_spec lit prev s p' s' :
  eat_lit lit prev s = Some (p', s') <-> s = lit +:+ s' /\ p' = Spec.after prev lit.
Proof.
  revert prev s. induction lit as [|a lit IH]; intros prev s; simpl.
  - split; [intros [= -> ->]; auto|intros [-> ->]; reflexivity].
  - destruct s as [|c s]; [split; [discriminate|intros [[=] _]]|].
    destruct (Ascii.eqb_spec a c) as [->|Hne].
    + rewrite IH. split; [intros [-> ->]; auto|intros [[= ->] ->]; auto].
    + split; [discriminate|]. intros [[= ? _] _]. congruence.
Qed.

Lemma star_from_spec p prev s k :
  star_from p prev s k = true <->
  exists t rest, s = t +:+ rest /\ sforall p t = true /\ k (Spec.after prev t) rest = true.
Proof.
  revert prev. induction s as [|c s IH]; intros prev; simpl.
  - rewrite orb_false_r. split.
    + intros H. exists "", "". auto.
    + intros [t [rest [Hs [_ Hk]]]]. destruct t; [|discriminate].
      simpl in Hs. subst rest. exact Hk.
  - rewrite orb_true_iff, andb_true_iff, IH. split.
    + intros [H|[Hc [t [rest [-> [Ht Hk]]]]]].
      * exists "", (String c s). auto.
      * exists (String c t), rest. simpl. rewrite Hc, Ht. auto.
    + intros [t [rest [Hs [Ht Hk]]]]. destruct t as [|c' t]; simpl in *.
      * subst rest. left. exact Hk.
      * injection Hs as -> ->. apply andb_prop in Ht as [Hc Ht].
        right. split; [exact Hc|]. exists t, rest. auto.
Qed.

Lemma rmatch_spec r prev s k :
  rmatch r prev s k = true <->
  exists t rest, s = t +:+ rest /\ Spec.Matches r prev t rest /\
                 k (Spec.after prev t) rest = true.
Proof.
  revert prev s k. induction r as [|lit|r1 IH1 r2 IH2|r1 IH1 r2 IH2|r IH|p|p];
    intros prev s k; simpl.
  - rewrite andb_true_iff. split.
    + intros [Hb Hk]. exists "", s. split; [reflexivity|]. split; [constructor; exact Hb|exact Hk].
    + intros [t [rest [-> [Hm Hk]]]]. inversion Hm; subst. simpl in *. auto.
  - split.
    + destruct (eat_lit lit prev s) as [[p' s']|] eqn:E; [|discriminate].
      apply eat_lit_spec in E as [-> ->]. intros Hk.
      exists lit, s'. split; [reflexivity|]. split; [constructor|exact Hk].
    + intros [t [rest [-> [Hm Hk]]]]. inversion Hm; subst.
      rewrite (proj2 (eat_lit_spec t prev (t +:+ rest) (Spec.after prev t) rest))
        by auto.
      exact Hk.
  - rewrite IH1. split.
    + intros [t1 [rest1 [-> [Hm1 H2]]]]. apply IH2 in H2 as [t2 [rest [-> [Hm2 Hk]]]].
      exists (t1 +:+ t2), rest. rewrite sapp_assoc, after_app.
      split; [reflexivity|]. split; [constructor; assumption|exact Hk].
    + intros [t [rest [-> [Hm Hk]]]]. inversion Hm; subst.
      exists t1, (t2 +:+ rest). rewrite sapp_assoc. split; [reflexivity|].
      split; [assumption|]. apply IH2. exists t2, rest.
      rewrite <- after_app. auto.
  - rewrite orb_true_iff, IH1, IH2. split.
    + intros [[t [rest [-> [Hm Hk]]]]|[t [rest [-> [Hm Hk]]]]]; exists t, rest;
        (split; [reflexivity|]); (split; [|exact Hk]).
      * apply Spec.MAltL, Hm.
      * apply Spec.MAltR, Hm.
    + intros [t [rest [-> [Hm Hk]]]]. inversion Hm; subst; [left|right]; eauto.
  - rewrite orb_true_iff, IH. split.
    + intros [[t [rest [-> [Hm Hk]]]]|Hk].
      * exists t, rest. split; [reflexivity|]. split; [apply Spec.MOptSome, Hm|exact Hk].
      * exists "", s. split; [reflexivity|]. split; [constructor|exact Hk].
    + intros [t [rest [-> [Hm Hk]]]]. inversion Hm; subst; [right; exact Hk|left; eauto].
  - rewrite star_from_spec. split.
    + intros [t [rest [-> [Ht Hk]]]]. exists t, rest.
      split; [reflexivity|]. split; [constructor; exact Ht|exact Hk].
    + intros [t [rest [-> [Hm Hk]]]]. inversion Hm; subst. eauto.
  - split.
    + destruct s as [|c s]; [discriminate|].
      intros [Hc H]%andb_prop. apply star_from_spec in H as [t [rest [-> [Ht Hk]]]].
      exists (String c t), rest. split; [reflexivity|].
      split; [|exact Hk]. constructor; [discriminate|]. simpl. rewrite Hc, Ht. reflexivity.
    + intros [t [rest [-> [Hm Hk]]]]. inversion Hm; subst.
      destruct t as [|c t]; [congruence|]. simpl in *.
      match goal with H : _ && _ = true |- _ => apply andb_prop in H as [Hc Ht] end.
      rewrite Hc. simpl. apply star_from_spec. eauto.
Qed.

Lemma rsearch_from_spec r prev s :
  rsearch_from r prev s = true <->
  exists pre t post, s = pre +:+ t +:+ post /\ Spec.Matches r (Spec.after prev pre) t post.
Proof.
  revert prev. induction s as [|c s IH]; intros prev; simpl.
  - rewrite orb_false_r, rmatch_spec. split.
    + intros [t [rest [Hs [Hm _]]]]. exists "", t, rest. auto.
    + intros [pre [t [post [Hs Hm]]]]. destruct pre; [|discriminate].
      exists t, post. auto.
  - rewrite orb_true_iff, rmatch_spec, IH. split.
    + intros [[t [rest [Hs [Hm _]]]]|[pre [t [post [-> Hm]]]]].
      * exists "", t, rest. auto.
      * exists (String c pre), t, post. auto.
    + intros [pre [t [post [Hs Hm]]]]. destruct pre as [|c' pre]; simpl in *.
      * left. exists t, post. auto.
      * injection Hs as -> ->. right. exists pre, t, post. auto.
Qed.

(** [is_measurement_like] holds exactly for the texts that contain a match of
    [MEAS_RE]. *)
Lemma is_measurement_like_spec s :
  is_measurement_like s = true <-> Spec.has_match MEAS_RE s.
Proof. apply rsearch_from_spec. Qed.

(** ** The shape of a match of [MEAS_RE] *)

Lemma Matches_bound_inv prev t rest :
  Spec.Matches RBound prev t rest -> t = "" /\ at_boundary prev rest = true.
Proof. inversion 1; subst. auto. Qed.

Lemma Matches_str_inv lit prev t rest : Spec.Matches (RStr lit) prev t rest -> t = lit.
Proof. inversion 1; subst. reflexivity. Qed.

Lemma Matches_seq_inv r1 r2 prev t rest :
  Spec.Matches (RSeq r1 r2) prev t rest ->
  exists t1 t2, t = t1 +:+ t2 /\ Spec.Matches r1 prev t1 (t2 +:+ rest) /\
                Spec.Matches r2 (Spec.after prev t1) t2 rest.
Proof. inversion 1; subst. eauto. Qed.

Lemma Matches_alt_inv r1 r2 prev t rest :
  Spec.Matches (RAlt r1 r2) prev t rest ->
  Spec.Matches r1 prev t rest \/ Spec.Matches r2 prev t rest.
Proof. inversion 1; subst; auto. Qed.

Lemma Matches_opt_inv r prev t rest :
  Spec.Matches (ROpt r) prev t rest -> t = "" \/ Spec.Matches r prev t rest.
Proof. inversion 1; subst; auto. Qed.

Lemma Matches_star_inv p prev t rest :
  Spec.Matches (RStar p) prev t rest -> sforall p t = true.
Proof. inversion 1; subst. assumption. Qed.

Lemma Matches_plus_inv p prev t rest :
  Spec.Matches (RPlus p) prev t rest -> t <> "" /\ sforall p t = true.
Proof. inversion 1; subst. auto. Qed.

Lemma Matches_MEAS_RE prev t rest :
  Spec.Matches MEAS_RE prev t rest <->
  Spec.measurement_token t /\
  at_boundary prev (t +:+ rest) = true /\
  at_boundary (Spec.after prev t) rest = true.
Proof.
  unfold MEAS_RE. split.
  - intros H.
    apply Matches_seq_inv in H as [t0 [t1 [-> [H0 H]]]].
    apply Matches_bound_inv in H0 as [-> Hb0]. simpl in *.
    apply Matches_seq_inv in H as [ds [t2 [-> [Hds H]]]].
    apply Matches_plus_inv in Hds.
    apply Matches_seq_inv in H as [frac [t3 [-> [Hfrac H]]]].
    apply Matches_seq_inv in H as [ws [t4 [-> [Hws H]]]].
    apply Matches_star_inv in Hws.
    apply Matches_seq_inv in H as [u [t5 [-> [Hu H]]]].
    apply Matches_bound_inv in H as [-> Hb1].
    rewrite !sapp_nil_r in *. rewrite !after_app.
    split; [|split; assumption].
    exists ds, frac, ws, u. split; [reflexivity|]. split; [exact Hds|].
    split; [|split; [exact Hws|]].
    + apply Matches_opt_inv in Hfrac as [->|Hfrac]; [auto|]. right.
      apply Matches_seq_inv in Hfrac as [dot [fs [-> [Hdot Hfs]]]].
      apply Matches_str_inv in Hdot. subst dot.
      apply Matches_plus_inv in Hfs. eauto.
    + apply Matches_alt_inv in Hu as [Hu|Hu];
        [|apply Matches_alt_inv in Hu as [Hu|Hu]];
        apply Matches_str_inv in Hu; auto.
  - intros [[ds [frac [ws [u [-> [Hds [Hfrac [Hws Hu]]]]]]]] [Hb0 Hb1]].
    rewrite !after_app in Hb1.
    change (ds +:+ frac +:+ ws +:+ u) with ("" +:+ (ds +:+ frac +:+ ws +:+ u)).
    constructor; [constructor; exact Hb0|]. simpl Spec.after.
    constructor; [constructor; apply Hds|].
    constructor.
    { destruct Hfrac as [->|[fs [-> Hfs]]]; [constructor|].
      apply Spec.MOptSome. constructor; [constructor|]. constructor; apply Hfs. }
    constructor; [constructor; exact Hws|].
    rewrite <- (sapp_nil_r u).
    constructor.
    + destruct Hu as [ -> | [ -> | -> ] ];
        [apply Spec.MAltL|apply Spec.MAltR, Spec.MAltL|apply Spec.MAltR, Spec.MAltR];
        constructor.
    + constructor. exact Hb1.
Qed.

(** [is_measurement_like] holds exactly for the texts that contain a
    measurement token as a whole word. *)
Lemma is_measurement_like_token s :
  is_measurement_like s = true <-> Spec.contains_measurement s.
Proof.
  rewrite is_measurement_like_spec. unfold Spec.has_match, Spec.contains_measurement.
  split.
  - intros [pre [t [post [-> H]]]]. apply Matches_MEAS_RE in H as [Ht [Hb0 Hb1]].
    exists pre, t, post. auto.
  - intros [pre [t [post [-> [Ht [Hb0 Hb1]]]]]]. exists pre, t, post.
    split; [reflexivity|]. apply Matches_MEAS_RE. auto.
Qed.

(** ** The shared scan against grounding a mention on its own *)

Lemma filter_none {A} (p : A -> bool) l :
  (forall x, x ∈ l -> p x = false) -> List.filter p l = [].
Proof.
  induction l as [|x l IH]; intros H; simpl; [reflexivity|].
  rewrite (H x) by constructor. apply IH. intros y Hy. apply H. constructor. exact Hy.
Qed.

Lemma filter_requests_other (mk : gmap string keys_info) mt k m m' :
  m' <> m ->
  List.filter (fun q => String.eqb (fst q) m && negb (is_measurement (mk !!! fst q)))
    (Spec.requests_of mt k m') = [].
Proof.
  intros Hne. apply filter_none. intros q Hq.
  rewrite (request_of_its_mention _ _ _ _ Hq).
  destruct (String.eqb_spec m' m); [contradiction|reflexivity].
Qed.

Lemma filter_requests_own (mk : gmap string keys_info) mt k m :
  List.filter (fun q => String.eqb (fst q) m && negb (is_measurement (mk !!! fst q)))
    (Spec.requests_of mt k m) =
  if is_measurement (mk !!! m) then [] else Spec.requests_of mt k m.
Proof.
  destruct (is_measurement (mk !!! m)) eqn:E.
  - apply filter_none. intros q Hq. rewrite (request_of_its_mention _ _ _ _ Hq), E.
    apply andb_false_r.
  - apply filter_all. intros q Hq. apply list_elem_of_In in Hq.
    rewrite (request_of_its_mention _ _ _ _ Hq), E, String.eqb_refl. reflexivity.
Qed.

Lemma filter_requests (mk : gmap string keys_info) mt k ms m :
  NoDup ms -> m ∈ ms ->
  List.filter (fun q => String.eqb (fst q) m && negb (is_measurement (mk !!! fst q)))
    (flat_map (Spec.requests_of mt k) ms) =
  if is_measurement (mk !!! m) then [] else Spec.requests_of mt k m.
Proof.
  induction ms as [|m' ms IH]; intros Hnd Hm; [inversion Hm|].
  apply NoDup_cons in Hnd as [Hnin Hnd]. simpl. rewrite List.filter_app.
  destruct (decide (m' = m)) as [->|Hne].
  - rewrite filter_requests_own.
    rewrite (filter_none _ (flat_map _ ms)); [apply app_nil_r|].
    intros q Hq. apply requests_mention_in in Hq.
    destruct (String.eqb_spec (fst q) m) as [E|_]; [|reflexivity].
    rewrite E in Hq. contradiction.
  - rewrite filter_requests_other by assumption. simpl. apply IH; [assumption|].
    apply elem_of_cons in Hm as [->|Hm]; [contradiction|assumption].
Qed.

(** During the shared scan a line offers a mention exactly what it would offer
    it if the mention were grounded on its own. *)
Lemma line_offers_own mt ms m line :
  NoDup ms -> m ∈ ms ->
  Spec.line_offers (build_key_maps ms mt) m line = Spec.own_cands mt m line.
Proof.
  intros Hnd Hm. unfold Spec.line_offers, Spec.own_cands.
  destruct (parse_line line) as [r|]; [|destruct (is_measurement _); reflexivity].
  destruct (negb (String.eqb (r_lat r) "ENG")); [destruct (is_measurement _); reflexivity|].
  unfold Spec.offered.
  rewrite key_to_mentions_requests, filter_requests by assumption.
  rewrite mention_keys_total by assumption.
  destruct (is_measurement _); [reflexivity|].
  unfold Spec.requests_of. rewrite map_map. reflexivity.
Qed.

Lemma collected_in_batch mt lines ms m :
  NoDup ms -> m ∈ ms ->
  Spec.bucket (scan_file (build_key_maps ms mt) lines) m =
  Spec.collected_alone mt lines m.
Proof.
  intros Hnd Hm. rewrite scan_file_bucket. unfold Spec.collected_alone. f_equal.
  apply flat_map_ext. intros line. apply line_offers_own; assumption.
Qed.

Lemma lookup_result_map (f : string -> grounding) ms m :
  m ∈ ms -> lookup_result m (map (fun m => (m, f m)) ms) = Some (f m).
Proof.
  induction ms as [|m' ms IH]; intros Hm; [inversion Hm|]. simpl.
  destruct (String.eqb_spec m m') as [->|Hne]; [reflexivity|].
  apply IH. apply elem_of_cons in Hm as [->|Hm]; [contradiction|assumption].
Qed.

Lemma lookup_result_map_None (f : string -> grounding) ms m :
  m ∉ ms -> lookup_result m (map (fun m => (m, f m)) ms) = None.
Proof.
  induction ms as [|m' ms IH]; intros Hm; [reflexivity|]. simpl.
  apply not_elem_of_cons in Hm as [Hne Hm].
  destruct (String.eqb_spec m m') as [->|_]; [contradiction|]. apply IH, Hm.
Qed.

(** The batch function, mention by mention. *)
Lemma map_mentions_to_cui_alone self lines mentions mt :
  map_mentions_to_cui self lines mentions mt =
  map (fun m => (m, Spec.ground_alone self lines mt m)) (sorted_set mentions).
Proof.
  unfold map_mentions_to_cui. apply map_ext_in. intros m Hm.
  apply list_elem_of_In in Hm. f_equal. unfold Spec.ground_alone.
  rewrite mention_keys_total by assumption.
  f_equal. apply (collected_in_batch mt lines (sorted_set mentions) m);
    [apply sorted_set_NoDup|assumption].
Qed.

(** ** Measurement-like mentions *)

Lemma build_keys_is_measurement m hints :
  is_measurement (build_keys m hints) = is_measurement_like (canonicalize_surface m).
Proof. reflexivity. Qed.

Lemma flat_map_nil {A B} (f : A -> list B) l :
  (forall x, f x = []) -> flat_map f l = [].
Proof. intros H. induction l as [|x l IH]; simpl; [|rewrite H, IH]; reflexivity. Qed.

Lemma own_cands_measurement mt m line :
  is_measurement_like (canonicalize_surface m) = true -> Spec.own_cands mt m line = [].
Proof.
  intros H. unfold Spec.own_cands. rewrite build_keys_is_measurement, H. reflexivity.
Qed.

Lemma record_match_no_empty mk r s_key st q :
  Spec.no_empty_bucket st -> Spec.no_empty_bucket (record_match mk r s_key st q).
Proof.
  intros H. destruct q as [m' kt]. unfold record_match.
  destruct (is_measurement _); [assumption|].
  destruct (bool_decide _); [assumption|].
  intros m. simpl. rewrite lookup_insert. destruct (decide (m' = m)); [|apply H].
  intros [= E]. apply app_eq_nil in E as [_ E]. discriminate.
Qed.

Lemma scan_line_no_empty maps st line :
  Spec.no_empty_bucket st -> Spec.no_empty_bucket (scan_line maps st line).
Proof.
  intros H. unfold scan_line.
  destruct (parse_line line) as [r|]; [|assumption].
  destruct (negb _); [assumption|].
  destruct (snd maps !! _) as [reqs|]; [|assumption].
  revert st H. induction reqs as [|q reqs IH]; intros st H; simpl; [assumption|].
  apply IH, record_match_no_empty, H.
Qed.

Lemma scan_file_no_empty maps lines : Spec.no_empty_bucket (scan_file maps lines).
Proof.
  unfold scan_file.
  assert (H0 : Spec.no_empty_bucket (∅, ∅)).
  { intros m. simpl. rewrite lookup_empty. discriminate. }
  revert H0. generalize ((∅, ∅) : scan_state) as st.
  induction lines as [|line lines IH]; intros st H; simpl; [assumption|].
  apply IH, scan_line_no_empty, H.
Qed.

Lemma scan_file_inv maps lines : Spec.scan_inv (scan_file maps lines).
Proof. apply scan_lines_spec, scan_inv_empty. Qed.

(** C2: a mention of the batch whose canonical form contains, as a whole
    word, a token of the form [<digits>[.<digits>]<whitespace?><mm|cm|m>] is
    grounded to no CUI, with the reason "measurement_like" and no candidates,
    whatever the reference file holds; and at no point of the scan does it have
    a bucket or an entry among the seen (mention, CUI, source, term type)
    tuples. *)
Theorem C2_measurement_excluded
  (self : matcher) (lines mentions : list string)
  (mention_types : gmap string (list string)) (m : string) :
  In m mentions ->
  Spec.contains_measurement (canonicalize_surface m) ->
  lookup_result m (map_mentions_to_cui self lines mentions mention_types) =
    Some {| best_cui := None; candidates := [];
            g_types_seen := sorted_set (Spec.hints_of mention_types m);
            excluded_reason := Some "measurement_like" |} /\
  forall n,
    let st := scan_file (build_key_maps (sorted_set mentions) mention_types)
                (firstn n lines) in
    fst st !! m = None /\ forall c s t, (m, c, s, t) ∉ snd st.
Proof.
  intros Hin Hmeas. apply is_measurement_like_token in Hmeas.
  assert (Hm : m ∈ sorted_set mentions) by (apply sorted_set_elem, list_elem_of_In, Hin).
  split.
  - rewrite map_mentions_to_cui_alone, lookup_result_map by assumption.
    unfold Spec.ground_alone, finish_mention.
    rewrite build_keys_is_measurement, Hmeas. reflexivity.
  - intros n st.
    assert (Hb : Spec.bucket st m = []).
    { unfold st. rewrite collected_in_batch by (apply sorted_set_NoDup || assumption).
      unfold Spec.collected_alone. rewrite flat_map_nil; [reflexivity|].
      intros line. apply own_cands_measurement, Hmeas. }
    split.
    + pose proof (scan_file_no_empty (build_key_maps (sorted_set mentions) mention_types)
                    (firstn n lines) m) as Hne.
      fold st in Hne. unfold Spec.bucket in Hb.
      destruct (fst st !! m) as [l|]; [|reflexivity].
      simpl in Hb. subst l. contradiction.
    + intros c s t Hs. apply (scan_file_inv _ _ m c s t) in Hs as [x [Hx _]].
      fold st in Hx. rewrite Hb in Hx. inversion Hx.
Qed.

Lemma C2_measurement_excluded_witness :
  lookup_result "3.5 cm" (map_mentions_to_cui demo_matcher mrconso_demo ["3.5 cm"; "10mm"] ∅) =
    Some {| best_cui := None; candidates := [];
            g_types_seen := sorted_set (Spec.hints_of ∅ "3.5 cm");
            excluded_reason := Some "measurement_like" |} /\
  forall n,
    let st := scan_file (build_key_maps (sorted_set ["3.5 cm"; "10mm"]) ∅)
                (firstn n mrconso_demo) in
    fst st !! "3.5 cm" = None /\ forall c s t, ("3.5 cm", c, s, t) ∉ snd st.
Proof.
  apply (C2_measurement_excluded demo_matcher mrconso_demo ["3.5 cm"; "10mm"] ∅ "3.5 cm").
  - simpl. auto.
  - apply is_measurement_like_token. vm_compute. reflexivity.
Defined.

(** ** The batch *)

(** C4: two mention lists with the same set of mention strings, in any order
    and with any duplication, give identical results over the same type-hint
    map and reference file: the same keys in the same order, each with the same
    best CUI and the same ordered candidates. *)
Theorem C4_mention_order_irrelevant
  (self : matcher) (lines : list string) (mentions1 mentions2 : list string)
  (mention_types : gmap string (list string)) :
  (forall m, In m mentions1 <-> In m mentions2) ->
  map_mentions_to_cui self lines mentions1 mention_types =
  map_mentions_to_cui self lines mentions2 mention_types.
Proof.
  intros H. unfold map_mentions_to_cui.
  rewrite (sorted_set_same_elements mentions1 mentions2); [reflexivity|].
  intros m. rewrite !list_elem_of_In. apply H.
Qed.

Lemma C4_mention_order_irrelevant_witness :
  map_mentions_to_cui demo_matcher mrconso_demo ["pneumonia"; "3 cm"; "pneumonia"] ∅ =
  map_mentions_to_cui demo_matcher mrconso_demo ["3 cm"; "pneumonia"] ∅.
Proof.
  apply (C4_mention_order_irrelevant demo_matcher mrconso_demo
           ["pneumonia"; "3 cm"; "pneumonia"] ["3 cm"; "pneumonia"] ∅).
  intros m. simpl. tauto.
Defined.

(** The loops of the step-by-step function: what they compute, and the steps
    they log. *)
Lemma for_each_steps {A St} (e : A -> Traced.event) (f : St -> A -> St) l s w :
  Traced.for_each
    (fun s a => Traced.bind (Traced.emit (e a)) (fun _ => Traced.ret (f s a))) l s w =
  Some (fold_left f l s,
        {| Traced.files := Traced.files w; Traced.log := Traced.log w ++ map e l |}).
Proof.
  revert s w. induction l as [|a l IH]; intros s w; simpl.
  - unfold Traced.ret. rewrite app_nil_r. destruct w; reflexivity.
  - unfold Traced.bind at 1. unfold Traced.bind at 1. unfold Traced.emit, Traced.ret.
    rewrite IH. simpl. rewrite <- app_assoc. reflexivity.
Qed.

Lemma for_lines_steps {St} path (f : St -> string -> St) n rest s w :
  Traced.for_lines path (fun s line => Traced.ret (f s line)) n rest s w =
  Some (fold_left f rest s,
        {| Traced.files := Traced.files w;
           Traced.log := Traced.log w ++ map (Traced.EvLine path) (seq n (length rest)) |}).
Proof.
  revert n s w. induction rest as [|line rest IH]; intros n s w; simpl.
  - unfold Traced.ret. rewrite app_nil_r. destruct w; reflexivity.
  - unfold Traced.bind at 1. unfold Traced.emit.
    unfold Traced.bind at 1. unfold Traced.ret at 1.
    rewrite IH. simpl. rewrite <- app_assoc. reflexivity.
Qed.

Lemma fold_left_snoc_map {A B} (g : A -> B) l acc :
  fold_left (fun acc a => acc ++ [g a]) l acc = acc ++ map g l.
Proof.
  revert acc. induction l as [|a l IH]; intros acc; simpl.
  - rewrite app_nil_r. reflexivity.
  - rewrite IH, <- app_assoc. reflexivity.
Qed.

(** The step-by-step function computes what [map_mentions_to_cui] computes on
    the lines of the file it opens, and logs its steps in this order. *)
Lemma traced_run self lines mentions mt w :
  Traced.files w !! mrconso_path self = Some lines ->
  Traced.map_mentions_to_cui self mentions mt w =
  Some (map_mentions_to_cui self lines mentions mt,
        {| Traced.files := Traced.files w;
           Traced.log :=
             Traced.log w ++
             map Traced.EvBuildKeys (sorted_set mentions) ++
             [Traced.EvOpen (mrconso_path self)] ++
             map (Traced.EvLine (mrconso_path self)) (seq 0 (length lines)) ++
             [Traced.EvClose (mrconso_path self)] ++
             map Traced.EvFinish (sorted_set mentions) |}).
Proof.
  intros Hfile. unfold Traced.map_mentions_to_cui.
  unfold Traced.bind at 1. rewrite for_each_steps.
  unfold Traced.bind at 1. unfold Traced.open_file. cbn [Traced.files Traced.log].
  rewrite Hfile.
  unfold Traced.bind at 1. rewrite for_lines_steps. cbn [Traced.files Traced.log].
  unfold Traced.bind at 1. unfold Traced.emit at 1. cbn [Traced.files Traced.log].
  rewrite for_each_steps. cbn [Traced.files Traced.log].
  rewrite fold_left_snoc_map. cbn [app].
  rewrite <- !app_assoc. reflexivity.
Qed.



(** The steps of the demo batch: two calls of [build_keys] for three
    mentions, one opening of the file, its four lines, and two results. *)
Example demo_batch_steps :
  (Traced.log ∘ snd) <$>
    Traced.map_mentions_to_cui demo_matcher ["pneumonia"; "3 cm"; "pneumonia"] ∅ demo_world =
  Some [Traced.EvBuildKeys "3 cm"; Traced.EvBuildKeys "pneumonia";
        Traced.EvOpen "MRCONSO.RRF";
        Traced.EvLine "MRCONSO.RRF" 0; Traced.EvLine "MRCONSO.RRF" 1;
        Traced.EvLine "MRCONSO.RRF" 2; Traced.EvLine "MRCONSO.RRF" 3;
        Traced.EvClose "MRCONSO.RRF";
        Traced.EvFinish "3 cm"; Traced.EvFinish "pneumonia"].
Proof.
  rewrite (traced_run demo_matcher mrconso_demo _ ∅ demo_world eq_refl). reflexivity.
Qed.

(** A missing reference file: the function raises, after the key maps are
    built. *)
Example missing_file_raises :
  Traced.map_mentions_to_cui demo_matcher ["pneumonia"] ∅
    {| Traced.files := ∅; Traced.log := [] |} = None.
Proof.
  unfold Traced.map_mentions_to_cui. unfold Traced.bind at 1. rewrite for_each_steps.
  reflexivity.
Qed.

(** ** Ranking *)

Lemma source_rank_compare self pref x y :
  sab_preference self = Some pref -> length pref <= 999 ->
  Nat.compare (sab_rank self x) (sab_rank self y) =
  Nat.compare (Spec.source_rank_claimed pref (sab x)) (Spec.source_rank_claimed pref (sab y)).
Proof.
  intros Hp Hlen. unfold sab_rank, Spec.source_rank_claimed. rewrite Hp.
  destruct (index_of (sab x) pref) as [i|] eqn:Ex;
    destruct (index_of (sab y) pref) as [j|] eqn:Ey; cbn [default from_option id];
    try apply index_of_lt in Ex; try apply index_of_lt in Ey.
  - reflexivity.
  - rewrite (proj2 (Nat.compare_lt_iff i 999)) by lia.
    rewrite (proj2 (Nat.compare_lt_iff i (length pref))) by lia. reflexivity.
  - rewrite (proj2 (Nat.compare_gt_iff 999 j)) by lia.
    rewrite (proj2 (Nat.compare_gt_iff (length pref) j)) by lia. reflexivity.
  - rewrite !Nat.compare_refl. reflexivity.
Qed.

Lemma cand_leb_claimed self pref x y :
  sab_preference self = Some pref -> length pref <= 999 ->
  cand_leb self x y = Spec.claimed_leb pref x y.
Proof.
  intros Hp Hlen.
  unfold cand_leb, Spec.claimed_leb, rank_leb, _rank_candidate, Spec.rank_claimed,
    rank_compare.
  rewrite (source_rank_compare self pref x y Hp Hlen). reflexivity.
Qed.

Lemma claimed_leb_total pref x y :
  Spec.claimed_leb pref x y = true \/ Spec.claimed_leb pref y x = true.
Proof. apply (leb_of_total _ good_cmp_rank). Qed.

Lemma claimed_leb_trans pref x y z :
  Spec.claimed_leb pref x y = true -> Spec.claimed_leb pref y z = true ->
  Spec.claimed_leb pref x z = true.
Proof. apply (leb_of_trans _ good_cmp_rank). Qed.

Lemma slice_to_nonneg {A} (k : Z) (l : list A) :
  (0 <= k)%Z -> slice_to k l = firstn (Z.to_nat k) l.
Proof. intros H. unfold slice_to. rewrite (proj2 (Z.leb_le 0 k) H). reflexivity. Qed.

Lemma lookup_result_map_inv (f : string -> grounding) ms m g :
  lookup_result m (map (fun m => (m, f m)) ms) = Some g -> m ∈ ms /\ g = f m.
Proof.
  intros H. destruct (decide (m ∈ ms)) as [Hm|Hm].
  - rewrite lookup_result_map in H by assumption. split; congruence.
  - rewrite lookup_result_map_None in H by assumption. discriminate.
Qed.

(** C1, as stated, fails for a preference list with more than 999 entries:
    the source listed at index 1000 ranks after an absent source, whose rank
    is the constant 999, so the best CUI is the one of the absent source. *)
Lemma C1_long_preference_counterexample :
  mem "S1000" long_pref = true /\ mem "ZZZ" long_pref = false /\
  (best_cui <$> lookup_result "pneumonia"
     (map_mentions_to_cui long_pref_matcher mrconso_two_sources ["pneumonia"] ∅))
    = Some (Some "C0000002") /\
  (cui <$> head (Spec.ranked_claimed long_pref 5
     (Spec.bucket (scan_file (build_key_maps (sorted_set ["pneumonia"]) ∅)
                     mrconso_two_sources) "pneumonia")))
    = Some "C0000001".
Proof. vm_compute. repeat split. Qed.

(** C1, amended: when the source-preference list has at most 999 entries and
    [top_k] is not negative, the candidates of every mention of the result are
    the candidates collected for it that pass the filter, sorted ascending by
    the composite key (key-kind rank, preferred-flag rank, source rank with
    absent sources after every listed one, term-type rank, then source, term
    type and CUI), cut to the first [top_k]; and the best CUI is the CUI of the
    first retained candidate, or none when none is retained. *)
Theorem C1_ranked_top_k
  (self : matcher) (pref : list string) (lines mentions : list string)
  (mention_types : gmap string (list string)) (m : string) (g : grounding) :
  sab_preference self = Some pref -> length pref <= 999 -> (0 <= top_k self)%Z ->
  lookup_result m (map_mentions_to_cui self lines mentions mention_types) = Some g ->
  let collected :=
    Spec.bucket (scan_file (build_key_maps (sorted_set mentions) mention_types) lines) m in
  let kept := List.filter (passes_filter self (g_types_seen g)) collected in
  let sorted := sort_by (Spec.claimed_leb pref) kept in
  sorted ≡ₚ kept /\
  StronglySorted (fun x y => Spec.claimed_leb pref x y = true) sorted /\
  candidates g = firstn (Z.to_nat (top_k self)) sorted /\
  best_cui g = match candidates g with c :: _ => Some (cui c) | [] => None end.
Proof.
  intros Hp Hlen Hk Hg collected kept sorted.
  split; [apply sort_by_perm|].
  split; [apply sort_by_sorted; [apply claimed_leb_total|apply claimed_leb_trans]|].
  rewrite map_mentions_to_cui_alone in Hg.
  apply lookup_result_map_inv in Hg as [Hm ->].
  assert (Hc : collected = Spec.collected_alone mention_types lines m).
  { apply collected_in_batch; [apply sorted_set_NoDup|assumption]. }
  unfold sorted, kept. rewrite Hc. unfold Spec.ground_alone, finish_mention.
  destruct (is_measurement (build_keys m (Spec.hints_of mention_types m))) eqn:Hmeas.
  - rewrite build_keys_is_measurement in Hmeas.
    unfold Spec.collected_alone.
    rewrite flat_map_nil by (intros; apply own_cands_measurement, Hmeas).
    simpl. rewrite firstn_nil. auto.
  - cbn [candidates best_cui g_types_seen].
    rewrite slice_to_nonneg by assumption.
    rewrite (sort_by_ext (cand_leb self) (Spec.claimed_leb pref))
      by (intros; apply cand_leb_claimed; assumption).
    auto.
Qed.

Lemma C1_ranked_top_k_witness :
  let g := {| best_cui := Some "C0032285";
              candidates := [some_cand; msh_cand];
              g_types_seen := [];
              excluded_reason := None |} in
  let collected :=
    Spec.bucket (scan_file (build_key_maps (sorted_set ["pneumonia"]) ∅) mrconso_demo)
      "pneumonia" in
  let kept := List.filter (passes_filter demo_matcher (g_types_seen g)) collected in
  let sorted := sort_by (Spec.claimed_leb DEFAULT_SAB_PREFERENCE) kept in
  sorted ≡ₚ kept /\
  StronglySorted (fun x y => Spec.claimed_leb DEFAULT_SAB_PREFERENCE x y = true) sorted /\
  candidates g = firstn (Z.to_nat (top_k demo_matcher)) sorted /\
  best_cui g = match candidates g with c :: _ => Some (cui c) | [] => None end.
Proof.
  apply (C1_ranked_top_k demo_matcher DEFAULT_SAB_PREFERENCE mrconso_demo
           ["pneumonia"] ∅ "pneumonia").
  - reflexivity.
  - simpl. lia.
  - simpl. lia.
  - vm_compute. reflexivity.
Defined.

(** ** Independence of the order of the reference file *)

Lemma same_key_key3 x y : Spec.same_key x y = true <-> Spec.key3 x = Spec.key3 y.
Proof.
  unfold Spec.same_key, Spec.key3. rewrite !andb_true_iff, !String.eqb_eq.
  split; [intros [[-> ->] ->]; reflexivity|intros [= -> -> ->]; auto].
Qed.

Lemma existsb_same_key3 c b :
  existsb (Spec.same_key c) b = true <-> exists x, x ∈ b /\ Spec.key3 x = Spec.key3 c.
Proof.
  rewrite existsb_exists. split; intros [x [Hx H]]; exists x.
  - apply list_elem_of_In in Hx. apply same_key_key3 in H. auto.
  - split; [apply list_elem_of_In, Hx|]. apply same_key_key3. auto.
Qed.

Lemma add_cand_keeps acc c x : x ∈ acc -> x ∈ Spec.add_cand acc c.
Proof.
  intros H. unfold Spec.add_cand. destruct (existsb _ _); [assumption|].
  apply elem_of_app. auto.
Qed.

Lemma fold_add_cand_keeps l acc x : x ∈ acc -> x ∈ fold_left Spec.add_cand l acc.
Proof.
  revert acc. induction l as [|c l IH]; intros acc H; simpl; [assumption|].
  apply IH, add_cand_keeps, H.
Qed.

Lemma fold_add_cand_elem l acc x :
  x ∈ fold_left Spec.add_cand l acc -> x ∈ acc \/ x ∈ l.
Proof.
  revert acc. induction l as [|c l IH]; intros acc H; simpl in H; [auto|].
  apply IH in H as [H|H]; [|right; constructor; exact H].
  unfold Spec.add_cand in H. destruct (existsb _ _); [auto|].
  apply elem_of_app in H as [H|H]; [auto|].
  apply list_elem_of_singleton in H. subst x. right. constructor.
Qed.

Lemma fold_add_cand_covers l acc x :
  x ∈ acc \/ x ∈ l ->
  exists y, y ∈ fold_left Spec.add_cand l acc /\ Spec.key3 y = Spec.key3 x.
Proof.
  revert acc x. induction l as [|c l IH]; intros acc x H; simpl.
  - destruct H as [H|H]; [eauto|inversion H].
  - destruct H as [H|H].
    + apply IH. left. apply add_cand_keeps, H.
    + apply elem_of_cons in H as [->|H]; [|apply IH; auto].
      unfold Spec.add_cand. destruct (existsb _ _) eqn:E.
      * apply existsb_same_key3 in E as [z [Hz Hk]].
        destruct (IH acc z (or_introl Hz)) as [y [Hy Hyk]].
        exists y. split; [assumption|congruence].
      * apply IH. left. apply elem_of_app. right. constructor.
Qed.

Lemma fold_add_cand_NoDup l acc :
  NoDup (map Spec.key3 acc) -> NoDup (map Spec.key3 (fold_left Spec.add_cand l acc)).
Proof.
  revert acc. induction l as [|c l IH]; intros acc H; simpl; [assumption|].
  apply IH. unfold Spec.add_cand. destruct (existsb _ _) eqn:E; [assumption|].
  rewrite map_app. apply NoDup_app. split; [assumption|]. split.
  - intros k Hk Hc. apply list_elem_of_singleton in Hc. subst k.
    apply list_elem_of_In, in_map_iff in Hk as [x [Hx Hin]].
    assert (existsb (Spec.same_key c) acc = true); [|congruence].
    apply existsb_same_key3. exists x. split; [apply list_elem_of_In, Hin|exact Hx].
  - apply NoDup_singleton.
Qed.

Lemma first_per_key_NoDup l : NoDup (map Spec.key3 (Spec.first_per_key l)).
Proof. apply fold_add_cand_NoDup. constructor. Qed.

Lemma NoDup_map_inj_on {A B} (f : A -> B) l x y :
  NoDup (map f l) -> x ∈ l -> y ∈ l -> f x = f y -> x = y.
Proof.
  induction l as [|a l IH]; intros Hnd Hx Hy Hf; [inversion Hx|].
  simpl in Hnd. apply NoDup_cons in Hnd as [Hnin Hnd].
  assert (Hmem : forall z, z ∈ l -> f z ∈ map f l).
  { intros z Hz. apply list_elem_of_In, in_map, list_elem_of_In, Hz. }
  apply elem_of_cons in Hx as [->|Hx]; apply elem_of_cons in Hy as [->|Hy].
  - reflexivity.
  - exfalso. apply Hnin. rewrite Hf. auto.
  - exfalso. apply Hnin. rewrite <- Hf. auto.
  - auto.
Qed.

Lemma NoDup_map_inv' {A B} (f : A -> B) l : NoDup (map f l) -> NoDup l.
Proof.
  induction l as [|a l IH]; simpl; intros H; [constructor|].
  apply NoDup_cons in H as [Hnin H]. apply NoDup_cons. split; [|auto].
  intros Ha. apply Hnin. apply list_elem_of_In, in_map, list_elem_of_In, Ha.
Qed.

Lemma unambiguous_spec l :
  Spec.unambiguous l = true <->
  forall x y, x ∈ l -> y ∈ l -> Spec.key3 x = Spec.key3 y -> x = y.
Proof.
  unfold Spec.unambiguous. rewrite forallb_forall. split.
  - intros H x y Hx Hy Hk. apply list_elem_of_In in Hx, Hy.
    specialize (H x Hx). rewrite forallb_forall in H. specialize (H y Hy).
    rewrite (proj2 (same_key_key3 x y) Hk) in H. simpl in H.
    apply bool_decide_eq_true in H. exact H.
  - intros H x Hx. apply forallb_forall. intros y Hy.
    destruct (Spec.same_key x y) eqn:E; [|reflexivity]. simpl.
    apply bool_decide_eq_true, H; [apply list_elem_of_In; assumption..|].
    apply same_key_key3, E.
Qed.

Lemma first_per_key_elem l x :
  Spec.unambiguous l = true -> x ∈ Spec.first_per_key l <-> x ∈ l.
Proof.
  intros Hu. split.
  - intros H. apply fold_add_cand_elem in H as [H|H]; [inversion H|exact H].
  - intros H. destruct (fold_add_cand_covers l [] x (or_intror H)) as [y [Hy Hk]].
    assert (y = x); [|subst; exact Hy].
    apply (proj1 (unambiguous_spec l) Hu); [|assumption..].
    apply fold_add_cand_elem in Hy as [Hy|Hy]; [inversion Hy|exact Hy].
Qed.

Lemma first_per_key_perm l1 l2 :
  Spec.unambiguous l1 = true -> l1 ≡ₚ l2 ->
  Spec.first_per_key l1 ≡ₚ Spec.first_per_key l2.
Proof.
  intros Hu Hp.
  assert (Hu2 : Spec.unambiguous l2 = true).
  { apply unambiguous_spec. intros x y Hx Hy. rewrite <- Hp in Hx, Hy.
    apply (proj1 (unambiguous_spec l1) Hu); assumption. }
  apply NoDup_Permutation.
  - eapply NoDup_map_inv', first_per_key_NoDup.
  - eapply NoDup_map_inv', first_per_key_NoDup.
  - intros x. rewrite !first_per_key_elem by assumption. rewrite Hp. reflexivity.
Qed.

Lemma list_filter_perm {A} (p : A -> bool) l1 l2 :
  l1 ≡ₚ l2 -> List.filter p l1 ≡ₚ List.filter p l2.
Proof.
  induction 1 as [|x l1 l2 _ IH|x y l|l1 l2 l3 _ IH1 _ IH2]; simpl.
  - reflexivity.
  - destruct (p x); [constructor|]; exact IH.
  - destruct (p x), (p y); try reflexivity. apply perm_swap.
  - etransitivity; eassumption.
Qed.

Lemma cand_leb_total self x y : cand_leb self x y = true \/ cand_leb self y x = true.
Proof. apply (leb_of_total _ good_cmp_rank). Qed.

Lemma cand_leb_trans self x y z :
  cand_leb self x y = true -> cand_leb self y z = true -> cand_leb self x z = true.
Proof. apply (leb_of_trans _ good_cmp_rank). Qed.

Lemma cand_leb_antisym self x y :
  cand_leb self x y = true -> cand_leb self y x = true -> Spec.key3 x = Spec.key3 y.
Proof.
  intros H1 H2.
  pose proof (leb_of_antisym _ good_cmp_rank _ _ H1 H2) as E.
  unfold _rank_candidate in E. injection E as _ _ _ _ Hs Ht Hc.
  unfold Spec.key3. congruence.
Qed.

(** The result of a mention is a function of the set of candidates in its
    bucket: the order in which they were collected does not matter. *)
Lemma finish_mention_perm self info b1 b2 :
  NoDup (map Spec.key3 b1) -> b1 ≡ₚ b2 ->
  finish_mention self info b1 = finish_mention self info b2.
Proof.
  intros Hnd Hp. unfold finish_mention.
  destruct (is_measurement info); [reflexivity|].
  rewrite (sort_by_perm_eq (cand_leb self) (cand_leb_total self) (cand_leb_trans self)
             (List.filter (passes_filter self (types_seen info)) b1)
             (List.filter (passes_filter self (types_seen info)) b2)).
  - reflexivity.
  - intros x y Hx Hy Hxy Hyx.
    apply list_elem_of_In, filter_In in Hx as [Hx _].
    apply list_elem_of_In, filter_In in Hy as [Hy _].
    apply (NoDup_map_inj_on Spec.key3 b1); [assumption|apply list_elem_of_In; assumption..|].
    apply (cand_leb_antisym self); assumption.
  - apply list_filter_perm, Hp.
Qed.

(** C3, as stated, fails: the two files hold the same lines in a different
    order, and the mention is grounded to a different CUI.  Of the two rows
    with the same (CUI, source, term type) the scan keeps the one it meets
    first, and the preferred flag of that row enters the ranking. *)
Lemma C3_scan_order_counterexample :
  mrconso_dup_a ≡ₚ mrconso_dup_b /\
  (best_cui <$> lookup_result "pneumonia"
     (map_mentions_to_cui demo_matcher mrconso_dup_a ["pneumonia"] ∅))
    = Some (Some "C0000001") /\
  (best_cui <$> lookup_result "pneumonia"
     (map_mentions_to_cui demo_matcher mrconso_dup_b ["pneumonia"] ∅))
    = Some (Some "C0000002").
Proof.
  split; [apply perm_swap|]. vm_compute. split; reflexivity.
Qed.

(** C3, amended: for every reference file, the result of every mention is a
    function of the set of candidates collected for it, whatever the order in
    which they were collected; and the whole output is the same under every
    permutation of the lines of the reference file, provided that, for each
    mention, two rows offered to it with the same (CUI, source, term type)
    give the same candidate record. *)
Theorem C3_scan_order_irrelevant
  (self : matcher) (lines1 lines2 mentions : list string)
  (mention_types : gmap string (list string)) :
  (forall lines m b,
     b ≡ₚ Spec.bucket (scan_file (build_key_maps (sorted_set mentions) mention_types)
                          lines) m ->
     finish_mention self (build_keys m (Spec.hints_of mention_types m)) b =
     finish_mention self (build_keys m (Spec.hints_of mention_types m))
       (Spec.bucket (scan_file (build_key_maps (sorted_set mentions) mention_types)
                       lines) m)) /\
  ((forall m, In m mentions ->
      Spec.unambiguous (flat_map (Spec.own_cands mention_types m) lines1) = true) ->
   lines1 ≡ₚ lines2 ->
   map_mentions_to_cui self lines1 mentions mention_types =
   map_mentions_to_cui self lines2 mentions mention_types).
Proof.
  split.
  - intros lines m b Hb. symmetry. apply finish_mention_perm; [|symmetry; exact Hb].
    rewrite scan_file_bucket. apply first_per_key_NoDup.
  - intros Hu Hp.
    rewrite !map_mentions_to_cui_alone. apply map_ext_in. intros m Hm.
    apply list_elem_of_In, (proj1 (sorted_set_elem m mentions)) in Hm.
    apply (proj1 (list_elem_of_In mentions m)) in Hm.
    f_equal. unfold Spec.ground_alone. apply finish_mention_perm.
    + apply first_per_key_NoDup.
    + apply first_per_key_perm; [apply Hu, Hm|].
      apply Permutation_flat_map, Hp.
Qed.

(** The first part at the file on which the order of the lines matters, the
    second at a file on which it does not. *)
Lemma C3_scan_order_irrelevant_witness :
  finish_mention demo_matcher (build_keys "pneumonia" (Spec.hints_of ∅ "pneumonia"))
    (rev (Spec.bucket (scan_file (build_key_maps (sorted_set ["pneumonia"; "3 cm"]) ∅)
                         mrconso_dup_a) "pneumonia")) =
  finish_mention demo_matcher (build_keys "pneumonia" (Spec.hints_of ∅ "pneumonia"))
    (Spec.bucket (scan_file (build_key_maps (sorted_set ["pneumonia"; "3 cm"]) ∅)
                    mrconso_dup_a) "pneumonia") /\
  Spec.unambiguous (flat_map (Spec.own_cands ∅ "pneumonia") mrconso_dup_a) = false /\
  length (Spec.bucket (scan_file (build_key_maps (sorted_set ["pneumonia"; "3 cm"]) ∅)
                         mrconso_dup_a) "pneumonia") = 2 /\
  map_mentions_to_cui demo_matcher mrconso_demo ["pneumonia"; "3 cm"] ∅ =
  map_mentions_to_cui demo_matcher (rev mrconso_demo) ["pneumonia"; "3 cm"] ∅.
Proof.
  destruct (C3_scan_order_irrelevant demo_matcher mrconso_demo (rev mrconso_demo)
              ["pneumonia"; "3 cm"] ∅) as [Hset Hfile].
  split; [|split; [|split]].
  - apply Hset. symmetry. apply Permutation_rev.
  - vm_compute. reflexivity.
  - vm_compute. reflexivity.
  - apply Hfile.
    + intros m [<-|[<-|[]]]; vm_compute; reflexivity.
    + apply Permutation_rev.
Defined.

(** ** A condition on the rows that rules out ambiguous offers *)

Lemma keys_unique_fresh seen ks kt k :
  (kt, k) ∈ keys_unique seen ks -> k ∉ seen.
Proof.
  revert seen. induction ks as [|[kt' k'] ks IH]; intros seen H; simpl in H.
  - inversion H.
  - destruct (nonempty k' && negb (bool_decide (k' ∈ seen))) eqn:E.
    + apply andb_prop in E as [_ E]. apply negb_true_iff, bool_decide_eq_false in E.
      apply elem_of_cons in H as [[= -> ->]|H]; [exact E|].
      apply IH in H. intros Hk. apply H, elem_of_union. auto.
    + apply IH, H.
Qed.

Lemma keys_unique_functional seen ks kt1 kt2 k :
  (kt1, k) ∈ keys_unique seen ks -> (kt2, k) ∈ keys_unique seen ks -> kt1 = kt2.
Proof.
  revert seen. induction ks as [|[kt' k'] ks IH]; intros seen H1 H2; simpl in *.
  - inversion H1.
  - destruct (nonempty k' && negb (bool_decide (k' ∈ seen))); [|eapply IH; eassumption].
    apply elem_of_cons in H1 as [E1|H1]; apply elem_of_cons in H2 as [E2|H2].
    + congruence.
    + injection E1 as -> ->. apply keys_unique_fresh in H2. exfalso.
      apply H2, elem_of_union. left. apply elem_of_singleton. reflexivity.
    + injection E2 as -> ->. apply keys_unique_fresh in H1. exfalso.
      apply H1, elem_of_union. left. apply elem_of_singleton. reflexivity.
    + eapply IH; eassumption.
Qed.

Lemma own_cands_elem mt m line x :
  x ∈ Spec.own_cands mt m line ->
  exists r kt,
    parse_line line = Some r /\ r_lat r = "ENG" /\
    (kt, canonicalize_surface (r_str r)) ∈ keys (build_keys m (Spec.hints_of mt m)) /\
    x = mk_cand r (canonicalize_surface (r_str r)) kt.
Proof.
  unfold Spec.own_cands. destruct (is_measurement _); [intros H; inversion H|].
  destruct (parse_line line) as [r|]; [|intros H; inversion H].
  destruct (String.eqb_spec (r_lat r) "ENG") as [Hlat|_]; simpl; [|intros H; inversion H].
  intros H. apply list_elem_of_In, in_map_iff in H as [[kt k] [<- Hin]].
  apply filter_In in Hin as [Hin Hk]. simpl in Hk. apply String.eqb_eq in Hk. subst k.
  exists r, kt. split; [reflexivity|]. split; [assumption|].
  split; [apply list_elem_of_In, Hin|reflexivity].
Qed.

(** Rows that agree whenever they share (CUI, source, term type) offer no
    mention two different candidates of the same (CUI, source, term type). *)
Lemma consistent_rows_unambiguous mt lines m :
  Spec.consistent_rows lines ->
  Spec.unambiguous (flat_map (Spec.own_cands mt m) lines) = true.
Proof.
  intros Hc. apply unambiguous_spec. intros x y Hx Hy Hk.
  apply list_elem_of_In, in_flat_map in Hx as [l1 [Hl1 Hx]].
  apply list_elem_of_In, in_flat_map in Hy as [l2 [Hl2 Hy]].
  apply list_elem_of_In in Hl1, Hl2, Hx, Hy.
  apply own_cands_elem in Hx as [r1 [kt1 [Hp1 [Hlat1 [Hk1 ->]]]]].
  apply own_cands_elem in Hy as [r2 [kt2 [Hp2 [Hlat2 [Hk2 ->]]]]].
  unfold Spec.key3 in Hk. simpl in Hk. injection Hk as Hcui Hsab Htty.
  destruct (Hc l1 l2 r1 r2 Hl1 Hl2 Hp1 Hp2 Hlat1 Hlat2 Hcui Hsab Htty) as [Hpref Hstr].
  rewrite Hstr in Hk1.
  assert (kt1 = kt2) as ->.
  { unfold build_keys in Hk1, Hk2. cbn [keys] in Hk1, Hk2.
    eapply keys_unique_functional; eassumption. }
  unfold mk_cand. rewrite Hcui, Hsab, Htty, Hpref, Hstr. reflexivity.
Qed.

(* ================================================================== *)
(** * Further properties of the grounding engine *)
(* ================================================================== *)

(** ** The canonical form *)

Lemma lstrip_idem s : lstrip (lstrip s) = lstrip s.
Proof.
  induction s as [|c s IH]; simpl; [reflexivity|].
  destruct (is_space c) eqn:Hc; [exact IH|]. simpl. rewrite Hc. reflexivity.
Qed.

Lemma rstrip_idem s : rstrip (rstrip s) = rstrip s.
Proof.
  induction s as [|c s IH]; [reflexivity|].
  rewrite rstrip_cons.
  destruct (String.eqb (rstrip s) "" && is_space c) eqn:E; [reflexivity|].
  rewrite rstrip_cons, IH, E. reflexivity.
Qed.

Lemma strip_idem s : strip (strip s) = strip s.
Proof.
  unfold strip. rewrite <- (lstrip_rstrip (lstrip s)), lstrip_idem, rstrip_idem.
  reflexivity.
Qed.

Lemma sforall_lstrip p s : sforall p s = true -> sforall p (lstrip s) = true.
Proof.
  induction s as [|c s IH]; simpl; [reflexivity|].
  intros [Hc Hs]%andb_prop. destruct (is_space c); [auto|]. simpl. rewrite Hc, Hs. reflexivity.
Qed.

Lemma sforall_rstrip p s : sforall p s = true -> sforall p (rstrip s) = true.
Proof.
  induction s as [|c s IH]; [reflexivity|].
  intros H. simpl in H. apply andb_prop in H as [Hc Hs]. rewrite rstrip_cons.
  destruct (_ && _); [reflexivity|]. simpl. rewrite Hc, IH; auto.
Qed.

Lemma sforall_strip p s : sforall p s = true -> sforall p (strip s) = true.
Proof. intros H. apply sforall_rstrip, sforall_lstrip, H. Qed.

Lemma sforall_smap p f s :
  (forall c, p (f c) = true) -> sforall p (smap f s) = true.
Proof. intros H. induction s as [|c s IH]; simpl; [|rewrite H, IH]; reflexivity. Qed.

Lemma sforall_and p q s :
  sforall p s = true -> sforall q s = true -> sforall (fun c => p c && q c) s = true.
Proof.
  induction s as [|c s IH]; simpl; [reflexivity|].
  intros [Hp Hs]%andb_prop [Hq Hs']%andb_prop. rewrite Hp, Hq, IH; auto.
Qed.

Lemma sforall_collapse p b s :
  p " "%char = true -> sforall p s = true -> sforall p (collapse_from b s) = true.
Proof.
  intros Hsp. revert b. induction s as [|c s IH]; intros b; simpl; [reflexivity|].
  intros [Hc Hs]%andb_prop. destruct (is_space c); [destruct b|]; simpl;
    rewrite ?Hsp, ?Hc, IH; auto.
Qed.

Lemma no_space_run_cons c s :
  Spec.no_space_run (String c s) =
  (negb (is_space c) || Form.starts_tight s) && Spec.no_space_run s.
Proof.
  destruct s as [|d s]; simpl.
  - rewrite orb_true_r. reflexivity.
  - rewrite negb_andb. reflexivity.
Qed.

Lemma collapse_no_space_run b s :
  Spec.no_space_run (collapse_from b s) = true /\
  (b = true -> Form.starts_tight (collapse_from b s) = true).
Proof.
  revert b. induction s as [|c s IH]; intros b; [split; reflexivity|].
  cbn [collapse_from]. destruct (is_space c) eqn:Hc.
  - destruct b.
    + apply IH.
    + split; [|discriminate]. rewrite no_space_run_cons.
      destruct (IH true) as [H1 H2]. rewrite H1, (H2 eq_refl), orb_true_r. reflexivity.
  - split.
    + rewrite no_space_run_cons, Hc. simpl. apply IH.
    + intros _. simpl. rewrite Hc. reflexivity.
Qed.

Lemma no_space_run_tail c s :
  Spec.no_space_run (String c s) = true -> Spec.no_space_run s = true.
Proof. rewrite no_space_run_cons. intros [_ H]%andb_prop. exact H. Qed.

Lemma no_space_run_lstrip s :
  Spec.no_space_run s = true -> Spec.no_space_run (lstrip s) = true.
Proof.
  induction s as [|c s IH]; [reflexivity|]. intros H. simpl lstrip.
  destruct (is_space c); [|exact H]. apply IH. eapply no_space_run_tail, H.
Qed.

Lemma starts_tight_rstrip s :
  Form.starts_tight s = true -> Form.starts_tight (rstrip s) = true.
Proof.
  destruct s as [|c s]; [reflexivity|]. rewrite rstrip_cons. simpl. intros H.
  destruct (_ && _); [reflexivity|]. exact H.
Qed.

Lemma no_space_run_rstrip s :
  Spec.no_space_run s = true -> Spec.no_space_run (rstrip s) = true.
Proof.
  induction s as [|c s IH]; [reflexivity|].
  rewrite no_space_run_cons. intros [Hc Hs]%andb_prop. rewrite rstrip_cons.
  destruct (_ && _); [reflexivity|].
  rewrite no_space_run_cons, (IH Hs), andb_true_r.
  destruct (is_space c); [|reflexivity]. simpl in *. apply starts_tight_rstrip, Hc.
Qed.

Lemma canonical_is_space c : Form.canonical_char c = true -> is_space c = true -> c = " "%char.
Proof.
  destruct c as [[] [] [] [] [] [] [] []]; vm_compute;
    intros H Hs; (reflexivity || discriminate).
Qed.

Lemma canonicalize_surface_form (s : string) :
  Form.canonical_form (canonicalize_surface s).
Proof.
  unfold Form.canonical_form, canonicalize_surface. split; [|split].
  - eapply sforall_impl; [|apply sforall_strip, sforall_and;
      [apply (collapse_spaces false)|apply (sforall_collapse
         (fun c => is_az c || is_digit c || is_space c) false); [reflexivity|]]].
    + intros c. unfold Form.canonical_char. simpl.
      destruct (is_az c), (is_digit c), (is_space c), (Ascii.eqb c " "); simpl; congruence.
    + apply sforall_smap. intros c.
      destruct (is_az c || is_digit c || is_space c) eqn:E; [exact E|reflexivity].
  - apply no_space_run_rstrip, no_space_run_lstrip, collapse_no_space_run.
  - apply strip_idem.
Qed.

(** X1: every output of [canonicalize_surface] is made of the letters
    [a]..[z], digits and single spaces only, and has no space at either end. *)
Theorem X1_canonicalize_surface_form (s : string) :
  sforall Form.canonical_char (canonicalize_surface s) = true /\
  Spec.no_space_run (canonicalize_surface s) = true /\
  strip (canonicalize_surface s) = canonicalize_surface s.
Proof. apply canonicalize_surface_form. Qed.

Lemma smap_id f s : sforall (fun c => Ascii.eqb (f c) c) s = true -> smap f s = s.
Proof.
  induction s as [|c s IH]; simpl; [reflexivity|].
  intros [Hc Hs]%andb_prop. apply Ascii.eqb_eq in Hc. rewrite Hc, IH; auto.
Qed.

Lemma canonical_char_fixed (f : ascii -> ascii) :
  forallb (fun c => negb (Form.canonical_char c) || Ascii.eqb (f c) c) all_chars = true ->
  forall c, Form.canonical_char c = true -> Ascii.eqb (f c) c = true.
Proof.
  intros H c Hc. rewrite forallb_forall in H.
  assert (Hin : In c all_chars).
  { unfold all_chars. rewrite <- (ascii_nat_embedding c). apply in_map, in_seq.
    pose proof (nat_ascii_bounded c). lia. }
  specialize (H c Hin). rewrite Hc in H. exact H.
Qed.

Lemma collapse_fixed b s :
  sforall Form.canonical_char s = true -> Spec.no_space_run s = true ->
  (b = true -> Form.starts_tight s = true) ->
  collapse_from b s = s.
Proof.
  revert b. induction s as [|c s IH]; intros b Hch Hrun Hb; [reflexivity|].
  simpl in Hch. apply andb_prop in Hch as [Hc Hs].
  rewrite no_space_run_cons in Hrun. apply andb_prop in Hrun as [Ht Hrun].
  cbn [collapse_from]. destruct (is_space c) eqn:Hsp.
  - rewrite (canonical_is_space c Hc Hsp) in *.
    destruct b; [specialize (Hb eq_refl); simpl in Hb; discriminate|].
    f_equal. apply IH; auto.
  - f_equal. apply IH; auto. discriminate.
Qed.

(** A text in canonical form is left as it is. *)
Lemma canonicalize_surface_fixed s :
  Form.canonical_form s -> canonicalize_surface s = s.
Proof.
  intros [Hch [Hrun Hst]]. unfold canonicalize_surface, lower.
  rewrite (smap_id lower_char s).
  2:{ eapply sforall_impl; [|exact Hch]. apply canonical_char_fixed. vm_compute. reflexivity. }
  rewrite Hst, smap_smap, smap_id.
  2:{ eapply sforall_impl; [|exact Hch]. apply canonical_char_fixed. vm_compute. reflexivity. }
  unfold collapse_ws. rewrite collapse_fixed; auto. discriminate.
Qed.

(** X2: [canonicalize_surface] is idempotent: a canonical form is its own
    canonical form, so a key and the surface string it was built from meet
    under the same function. *)
Theorem X2_canonicalize_surface_idempotent (s : string) :
  canonicalize_surface (canonicalize_surface s) = canonicalize_surface s.
Proof. apply canonicalize_surface_fixed, canonicalize_surface_form. Qed.

(** ** [normalize_text] and [is_measurement_like] *)

(** X3: every output of [normalize_text] is made of the letters [a]..[z],
    digits, hyphens and spaces only; in particular it has no uppercase letter
    and no whitespace other than the space. *)
Theorem X3_normalize_text_alphabet (s : string) :
  sforall (fun c => is_az c || is_digit c || Ascii.eqb c "-" || Ascii.eqb c " ")
    (normalize_text s) = true.
Proof. apply normalize_text_chars. Qed.

(** X4: [is_measurement_like] answers true exactly for the texts that
    contain, between two word boundaries, one or more digits, optionally a dot
    and more digits, any amount of whitespace, and one of the units [mm], [cm]
    and [m]. *)
Theorem X4_is_measurement_like_shape (s : string) :
  is_measurement_like s = true <->
  exists pre t post,
    s = pre +:+ t +:+ post /\
    Spec.measurement_token t /\
    at_boundary (Spec.after None pre) (t +:+ post) = true /\
    at_boundary (Spec.after (Spec.after None pre) t) post = true.
Proof. apply is_measurement_like_token. Qed.

(** ** [build_keys] *)

Lemma keys_unique_sub seen ks q : q ∈ keys_unique seen ks -> q ∈ ks.
Proof.
  revert seen. induction ks as [|[kt k] ks IH]; intros seen H; simpl in H; [inversion H|].
  destruct (_ && _).
  - apply elem_of_cons in H as [->|H]; [constructor|]. constructor. eapply IH, H.
  - constructor. eapply IH, H.
Qed.

Lemma keys_unique_nonempty seen ks kt k :
  (kt, k) ∈ keys_unique seen ks -> nonempty k = true.
Proof.
  revert seen. induction ks as [|[kt' k'] ks IH]; intros seen H; simpl in H; [inversion H|].
  destruct (nonempty k' && _) eqn:E; [|eapply IH, H].
  apply elem_of_cons in H as [[= -> ->]|H]; [|eapply IH, H].
  apply andb_prop in E as [E _]. exact E.
Qed.

Lemma keys_unique_NoDup seen ks : NoDup (map snd (keys_unique seen ks)).
Proof.
  revert seen. induction ks as [|[kt k] ks IH]; intros seen; simpl; [constructor|].
  destruct (_ && _); [|apply IH]. simpl. apply NoDup_cons. split; [|apply IH].
  intros Hin. apply list_elem_of_In, in_map_iff in Hin as [[kt' k'] [E Hin]].
  simpl in E. subst k'. apply list_elem_of_In, keys_unique_fresh in Hin.
  apply Hin, elem_of_union. left. apply elem_of_singleton. reflexivity.
Qed.

Lemma keys_unique_covers seen ks kt k :
  (kt, k) ∈ ks -> nonempty k = true -> k ∉ seen ->
  exists kt', (kt', k) ∈ keys_unique seen ks.
Proof.
  revert seen. induction ks as [|[kt0 k0] ks IH]; intros seen Hin Hne Hk; [inversion Hin|].
  simpl. destruct (decide (k0 = k)) as [->|Hd].
  - rewrite Hne. rewrite (bool_decide_eq_false_2 _ Hk). simpl.
    exists kt0. constructor.
  - apply elem_of_cons in Hin as [[= _ E]|Hin]; [congruence|].
    destruct (_ && _).
    + destruct (IH ({[k0]} ∪ seen) Hin Hne) as [kt' H].
      { intros [E%elem_of_singleton|E]%elem_of_union; [congruence|contradiction]. }
      exists kt'. constructor. exact H.
    + destruct (IH seen Hin Hne Hk) as [kt' H]. exists kt'. exact H.
Qed.

Lemma build_keys_kinds m hints kt k :
  (kt, k) ∈ keys (build_keys m hints) ->
  (kt = "full_norm" /\ k = m) \/
  (kt = "full_can" /\ k = canonicalize_surface m) \/
  (kt = "head" /\ k ∈ head_candidates (canonicalize_surface m)).
Proof.
  unfold build_keys. cbn [keys]. intros H. apply keys_unique_sub in H.
  apply elem_of_app in H as [H|H].
  - destruct (_ && _).
    + apply elem_of_app in H as [H|H]; apply list_elem_of_singleton in H;
        injection H as -> ->; auto.
    + apply list_elem_of_singleton in H. injection H as -> ->. auto.
  - apply list_elem_of_In, in_map_iff in H as [hc [[= <- <-] H]].
    right. right. split; [reflexivity|apply list_elem_of_In, H].
Qed.

(** X5: the keys [build_keys] returns are non-empty and pairwise different
    strings, each of kind "full_norm" (the mention itself), "full_can" (its
    canonical form) or "head" (one of its head candidates); and a non-empty
    mention always has itself as its first key. *)
Theorem X5_build_keys_shape (m : string) (hints : list string) :
  NoDup (map snd (keys (build_keys m hints))) /\
  (forall kt k, (kt, k) ∈ keys (build_keys m hints) ->
     k <> "" /\
     ((kt = "full_norm" /\ k = m) \/
      (kt = "full_can" /\ k = canonicalize_surface m) \/
      (kt = "head" /\ k ∈ head_candidates (canonicalize_surface m)))) /\
  (m <> "" -> head (keys (build_keys m hints)) = Some ("full_norm", m)).
Proof.
  split; [apply keys_unique_NoDup|]. split.
  - intros kt k H. split; [|eapply build_keys_kinds, H].
    apply keys_unique_nonempty in H. intros ->. discriminate.
  - intros Hm. unfold build_keys. cbn [keys].
    assert (Hne : nonempty m = true) by (destruct m; [contradiction|reflexivity]).
    destruct (nonempty (canonicalize_surface m) && _); simpl; rewrite Hne; reflexivity.
Qed.

Lemma X5_build_keys_shape_nonvacuous :
  head (keys (build_keys "pleural-effusion" [])) = Some ("full_norm", "pleural-effusion").
Proof.
  apply (proj2 (proj2 (X5_build_keys_shape "pleural-effusion" []))). discriminate.
Defined.

(** ** What a result holds *)

Lemma result_lookup self lines mentions mt m g :
  lookup_result m (map_mentions_to_cui self lines mentions mt) = Some g <->
  In m mentions /\ g = Spec.ground_alone self lines mt m.
Proof.
  rewrite map_mentions_to_cui_alone. split.
  - intros H. apply lookup_result_map_inv in H as [Hm ->].
    split; [|reflexivity]. apply list_elem_of_In, sorted_set_elem, Hm.
  - intros [Hm ->]. apply lookup_result_map, sorted_set_elem, list_elem_of_In, Hm.
Qed.

Lemma collected_alone_measurement mt lines m :
  is_measurement_like (canonicalize_surface m) = true ->
  Spec.collected_alone mt lines m = [].
Proof.
  intros H. unfold Spec.collected_alone.
  rewrite flat_map_nil; [reflexivity|]. intros line. apply own_cands_measurement, H.
Qed.

Lemma slice_to_nil {A} k : slice_to k (@nil A) = [].
Proof. unfold slice_to. destruct (0 <=? k)%Z; apply firstn_nil. Qed.

(** The candidates of a result: the collected ones that pass the filter,
    sorted and sliced. *)
Lemma ground_alone_candidates self lines mt m :
  candidates (Spec.ground_alone self lines mt m) =
  slice_to (top_k self)
    (sort_by (cand_leb self)
       (List.filter (passes_filter self (sorted_set (Spec.hints_of mt m)))
          (Spec.collected_alone mt lines m))).
Proof.
  unfold Spec.ground_alone, finish_mention.
  destruct (is_measurement _) eqn:E; [|reflexivity].
  rewrite build_keys_is_measurement in E.
  rewrite collected_alone_measurement by assumption. simpl. rewrite slice_to_nil. reflexivity.
Qed.

Lemma ground_alone_best self lines mt m :
  best_cui (Spec.ground_alone self lines mt m) =
  match candidates (Spec.ground_alone self lines mt m) with
  | c :: _ => Some (cui c)
  | [] => None
  end.
Proof.
  unfold Spec.ground_alone, finish_mention. destruct (is_measurement _); reflexivity.
Qed.

Lemma slice_to_prefix {A} k (l : list A) : exists rest, l = slice_to k l ++ rest.
Proof.
  unfold slice_to. destruct (0 <=? k)%Z; eexists; symmetry; apply firstn_skipn.
Qed.

Lemma slice_to_elem {A} k (l : list A) x : x ∈ slice_to k l -> x ∈ l.
Proof.
  destruct (slice_to_prefix k l) as [rest E]. intros H. rewrite E.
  apply elem_of_app. auto.
Qed.

Lemma list_filter_elem {A} (p : A -> bool) l x :
  x ∈ List.filter p l <-> x ∈ l /\ p x = true.
Proof. rewrite !list_elem_of_In. apply filter_In. Qed.

Lemma ground_alone_candidate_collected self lines mt m c :
  c ∈ candidates (Spec.ground_alone self lines mt m) ->
  c ∈ Spec.collected_alone mt lines m.
Proof.
  rewrite ground_alone_candidates. intros H. apply slice_to_elem in H.
  rewrite sort_by_perm in H. apply list_filter_elem in H as [H _]. exact H.
Qed.

Lemma collected_alone_offered mt lines m c :
  c ∈ Spec.collected_alone mt lines m ->
  exists line, In line lines /\ c ∈ Spec.own_cands mt m line.
Proof.
  intros H. apply fold_add_cand_elem in H as [H|H]; [inversion H|].
  apply list_elem_of_In, in_flat_map in H as [line [Hl H]].
  exists line. split; [exact Hl|apply list_elem_of_In, H].
Qed.

Lemma own_cands_not_measurement mt m line c :
  c ∈ Spec.own_cands mt m line -> is_measurement_like (canonicalize_surface m) = false.
Proof.
  unfold Spec.own_cands. rewrite build_keys_is_measurement.
  destruct (is_measurement_like _); [intros H; inversion H|reflexivity].
Qed.

(** X6: every candidate of a result is the record of an English row of the
    reference file with at least 15 fields: its five fields are the row's, its
    matched key is the canonical form of the row's surface string, and that
    key, with the candidate's key type, is one of the keys of the mention.  No
    candidate is ever given to a measurement-like mention. *)
Theorem X6_candidates_come_from_rows
  (self : matcher) (lines mentions : list string)
  (mention_types : gmap string (list string)) (m : string) (g : grounding) (c : cand) :
  lookup_result m (map_mentions_to_cui self lines mentions mention_types) = Some g ->
  c ∈ candidates g ->
  exists line r,
    In line lines /\ parse_line line = Some r /\ r_lat r = "ENG" /\
    c = {| cui := r_cui r; sab := r_sab r; tty := r_tty r; ispref := r_ispref r;
           str := r_str r; matched_key := canonicalize_surface (r_str r);
           matched_key_type := matched_key_type c |} /\
    (matched_key_type c, matched_key c)
      ∈ keys (build_keys m (Spec.hints_of mention_types m)) /\
    is_measurement_like (canonicalize_surface m) = false.
Proof.
  intros Hg Hc. apply result_lookup in Hg as [_ ->].
  apply ground_alone_candidate_collected, collected_alone_offered in Hc
    as [line [Hl Hc]].
  pose proof (own_cands_not_measurement _ _ _ _ Hc) as Hmeas.
  apply own_cands_elem in Hc as [r [kt [Hp [Hlat [Hk ->]]]]].
  exists line, r. repeat split; assumption.
Qed.

Lemma X6_candidates_come_from_rows_witness :
  exists line r,
    In line mrconso_demo /\ parse_line line = Some r /\ r_lat r = "ENG" /\
    msh_cand = {| cui := r_cui r; sab := r_sab r; tty := r_tty r; ispref := r_ispref r;
                  str := r_str r; matched_key := canonicalize_surface (r_str r);
                  matched_key_type := matched_key_type msh_cand |} /\
    (matched_key_type msh_cand, matched_key msh_cand)
      ∈ keys (build_keys "pneumonia" (Spec.hints_of ∅ "pneumonia")) /\
    is_measurement_like (canonicalize_surface "pneumonia") = false.
Proof.
  apply (X6_candidates_come_from_rows demo_matcher mrconso_demo ["pneumonia"] ∅ "pneumonia"
           {| best_cui := Some "C0032285"; candidates := [some_cand; msh_cand];
              g_types_seen := []; excluded_reason := None |} msh_cand).
  - vm_compute. reflexivity.
  - simpl. apply elem_of_cons. right. apply elem_of_cons. left. reflexivity.
Defined.

Lemma flat_map_nil_in {A B} (f : A -> list B) l :
  (forall x, In x l -> f x = []) -> flat_map f l = [].
Proof.
  induction l as [|x l IH]; intros H; simpl; [reflexivity|].
  rewrite (H x) by (left; reflexivity). apply IH. intros y Hy. apply H. right. exact Hy.
Qed.

Lemma own_cands_unmatched mt m line :
  (forall r kt, parse_line line = Some r -> r_lat r = "ENG" ->
     (kt, canonicalize_surface (r_str r)) ∉ keys (build_keys m (Spec.hints_of mt m))) ->
  Spec.own_cands mt m line = [].
Proof.
  intros H. unfold Spec.own_cands. destruct (is_measurement _); [reflexivity|].
  destruct (parse_line line) as [r|]; [|reflexivity].
  destruct (String.eqb_spec (r_lat r) "ENG") as [Hlat|]; [|reflexivity]. simpl.
  rewrite filter_none; [reflexivity|]. intros [kt k] Hk. simpl.
  destruct (String.eqb_spec k (canonicalize_surface (r_str r))) as [->|]; [|reflexivity].
  exfalso. eapply H; eauto.
Qed.

Lemma ground_alone_no_candidates self lines mt m :
  Spec.collected_alone mt lines m = [] ->
  Spec.ground_alone self lines mt m =
  {| best_cui := None; candidates := [];
     g_types_seen := sorted_set (Spec.hints_of mt m);
     excluded_reason := if is_measurement_like (canonicalize_surface m)
                        then Some "measurement_like" else None |}.
Proof.
  intros H. unfold Spec.ground_alone, finish_mention. rewrite H, build_keys_is_measurement.
  destruct (is_measurement_like _); [reflexivity|]. simpl. rewrite slice_to_nil. reflexivity.
Qed.

(** X7: a mention none of whose keys is the canonical surface string of an
    English row of the file is recorded as unmapped: no best CUI, no
    candidates, and no exclusion reason unless it is measurement-like.  Having
    no match is not an error. *)
Theorem X7_unmatched_mention_is_unmapped
  (self : matcher) (lines mentions : list string)
  (mention_types : gmap string (list string)) (m : string) :
  In m mentions ->
  (forall line r kt, In line lines -> parse_line line = Some r -> r_lat r = "ENG" ->
     (kt, canonicalize_surface (r_str r))
       ∉ keys (build_keys m (Spec.hints_of mention_types m))) ->
  lookup_result m (map_mentions_to_cui self lines mentions mention_types) =
  Some {| best_cui := None; candidates := [];
          g_types_seen := sorted_set (Spec.hints_of mention_types m);
          excluded_reason := if is_measurement_like (canonicalize_surface m)
                             then Some "measurement_like" else None |}.
Proof.
  intros Hm Hno. apply result_lookup. split; [exact Hm|]. symmetry.
  apply ground_alone_no_candidates. unfold Spec.collected_alone.
  rewrite flat_map_nil_in; [reflexivity|].
  intros line Hl. apply own_cands_unmatched. intros r kt. apply Hno, Hl.
Qed.

Lemma X7_unmatched_mention_is_unmapped_witness :
  lookup_result "effusion" (map_mentions_to_cui demo_matcher mrconso_demo ["effusion"] ∅) =
  Some {| best_cui := None; candidates := [];
          g_types_seen := sorted_set (Spec.hints_of ∅ "effusion");
          excluded_reason := if is_measurement_like (canonicalize_surface "effusion")
                             then Some "measurement_like" else None |}.
Proof.
  apply (X7_unmatched_mention_is_unmapped demo_matcher mrconso_demo ["effusion"] ∅
           "effusion").
  - simpl. auto.
  - intros line r kt Hl Hp Hlat Hk.
    assert (E : canonicalize_surface (r_str r) = "pneumonia").
    { destruct Hl as [<-|[<-|[<-|[<-|[]]]]]; vm_compute in Hp;
        try discriminate; injection Hp as <-; reflexivity. }
    rewrite E in Hk. apply list_elem_of_In in Hk. vm_compute in Hk.
    destruct Hk as [Hk|[]]. discriminate.
Defined.

Lemma keys_empty_canonical m hints kt k :
  canonicalize_surface m = "" ->
  (kt, k) ∈ keys (build_keys m hints) -> k = m /\ m <> "".
Proof.
  intros Hc H. pose proof (keys_unique_nonempty _ _ _ _ H) as Hne.
  apply build_keys_kinds in H as [[_ ->]|[[_ ->]|[_ H]]].
  - split; [reflexivity|]. intros ->. discriminate.
  - rewrite Hc in Hne. discriminate.
  - rewrite Hc in H. vm_compute in H. inversion H.
Qed.

(** X8: a mention whose canonical form is empty (the empty mention, or one
    made of punctuation only) is never mapped, whatever the reference file
    holds: no best CUI, no candidates and no exclusion reason. *)
Theorem X8_empty_canonical_form_is_unmapped
  (self : matcher) (lines mentions : list string)
  (mention_types : gmap string (list string)) (m : string) :
  In m mentions ->
  canonicalize_surface m = "" ->
  lookup_result m (map_mentions_to_cui self lines mentions mention_types) =
  Some {| best_cui := None; candidates := [];
          g_types_seen := sorted_set (Spec.hints_of mention_types m);
          excluded_reason := None |}.
Proof.
  intros Hm Hc. apply result_lookup. split; [exact Hm|]. symmetry.
  rewrite ground_alone_no_candidates.
  - rewrite Hc. reflexivity.
  - unfold Spec.collected_alone. rewrite flat_map_nil; [reflexivity|].
    intros line. apply own_cands_unmatched. intros r kt _ _ Hk.
    apply (keys_empty_canonical m _ kt _ Hc) in Hk as [Hk Hne].
    apply Hne. rewrite <- Hc, <- Hk. symmetry. apply canonicalize_surface_fixed,
      canonicalize_surface_form.
Qed.

Lemma X8_empty_canonical_form_is_unmapped_witness :
  lookup_result "?!" (map_mentions_to_cui demo_matcher mrconso_demo [""; "?!"] ∅) =
  Some {| best_cui := None; candidates := [];
          g_types_seen := sorted_set (Spec.hints_of ∅ "?!");
          excluded_reason := None |}.
Proof.
  apply (X8_empty_canonical_form_is_unmapped demo_matcher mrconso_demo [""; "?!"] ∅ "?!").
  - simpl. auto.
  - reflexivity.
Defined.

(** ** Mapped mentions, and the order and number of their candidates *)

Lemma own_cands_matched mt m line r kt :
  is_measurement_like (canonicalize_surface m) = false ->
  parse_line line = Some r -> r_lat r = "ENG" ->
  (kt, canonicalize_surface (r_str r)) ∈ keys (build_keys m (Spec.hints_of mt m)) ->
  mk_cand r (canonicalize_surface (r_str r)) kt ∈ Spec.own_cands mt m line.
Proof.
  intros Hmeas Hp Hlat Hk. unfold Spec.own_cands.
  rewrite build_keys_is_measurement, Hmeas, Hp, Hlat. simpl.
  apply list_elem_of_In, in_map_iff. exists (kt, canonicalize_surface (r_str r)).
  split; [reflexivity|]. apply filter_In. split; [apply list_elem_of_In, Hk|].
  apply String.eqb_refl.
Qed.

Lemma slice_to_positive {A} k (x : A) l :
  (1 <= k)%Z -> exists rest, slice_to k (x :: l) = x :: rest.
Proof.
  intros Hk. rewrite slice_to_nonneg by lia.
  destruct (Z.to_nat k) as [|n] eqn:E; [lia|]. simpl. eauto.
Qed.

(** X9: with the filter disabled and [top_k] at least 1, a mention of the
    batch that is not measurement-like is mapped (has a best CUI) exactly when
    some English row of the file has a canonical surface string that is one of
    the mention's keys. *)
Theorem X9_mapped_iff_some_row_matches
  (self : matcher) (lines mentions : list string)
  (mention_types : gmap string (list string)) (m : string) (g : grounding) :
  use_mrsty_filter self = false -> (1 <= top_k self)%Z ->
  is_measurement_like (canonicalize_surface m) = false ->
  lookup_result m (map_mentions_to_cui self lines mentions mention_types) = Some g ->
  best_cui g <> None <->
  exists line r kt,
    In line lines /\ parse_line line = Some r /\ r_lat r = "ENG" /\
    (kt, canonicalize_surface (r_str r))
      ∈ keys (build_keys m (Spec.hints_of mention_types m)).
Proof.
  intros Hoff Hk Hmeas Hg. apply result_lookup in Hg as [_ ->].
  rewrite ground_alone_best. split.
  - destruct (candidates _) as [|c cs] eqn:E; [congruence|]. intros _.
    assert (Hc : c ∈ candidates (Spec.ground_alone self lines mention_types m))
      by (rewrite E; constructor).
    apply ground_alone_candidate_collected, collected_alone_offered in Hc
      as [line [Hl Hc]].
    apply own_cands_elem in Hc as [r [kt [Hp [Hlat [Hkey _]]]]]. eauto 10.
  - intros [line [r [kt [Hl [Hp [Hlat Hkey]]]]]].
    pose proof (own_cands_matched mention_types m line r kt Hmeas Hp Hlat Hkey) as Hc.
    assert (Hin : mk_cand r (canonicalize_surface (r_str r)) kt
                    ∈ flat_map (Spec.own_cands mention_types m) lines).
    { apply list_elem_of_In, in_flat_map. exists line.
      split; [exact Hl|apply list_elem_of_In, Hc]. }
    destruct (fold_add_cand_covers _ [] _ (or_intror Hin)) as [y [Hy _]].
    fold (Spec.first_per_key (flat_map (Spec.own_cands mention_types m) lines)) in Hy.
    fold (Spec.collected_alone mention_types lines m) in Hy.
    rewrite ground_alone_candidates.
    rewrite (filter_all (passes_filter self _))
      by (intros; apply passes_filter_disabled, Hoff).
    rewrite <- (sort_by_perm (cand_leb self)) in Hy.
    destruct (sort_by (cand_leb self) _) as [|b bs]; [inversion Hy|].
    destruct (slice_to_positive (top_k self) b bs Hk) as [rest ->]. discriminate.
Qed.

Lemma X9_mapped_iff_some_row_matches_witness :
  best_cui {| best_cui := Some "C0032285"; candidates := [some_cand; msh_cand];
              g_types_seen := []; excluded_reason := None |} <> None <->
  exists line r kt,
    In line mrconso_demo /\ parse_line line = Some r /\ r_lat r = "ENG" /\
    (kt, canonicalize_surface (r_str r))
      ∈ keys (build_keys "pneumonia" (Spec.hints_of ∅ "pneumonia")).
Proof.
  apply (X9_mapped_iff_some_row_matches demo_matcher mrconso_demo ["pneumonia"] ∅
           "pneumonia").
  - reflexivity.
  - simpl. lia.
  - reflexivity.
  - vm_compute. reflexivity.
Defined.

Lemma NoDup_map_sub {A B} (f : A -> B) (l1 l2 : list A) :
  NoDup (map f (l1 ++ l2)) -> NoDup (map f l1).
Proof. rewrite map_app. intros H. apply NoDup_app in H as [H _]. exact H. Qed.

Lemma NoDup_map_filter {A B} (f : A -> B) (p : A -> bool) l :
  NoDup (map f l) -> NoDup (map f (List.filter p l)).
Proof.
  induction l as [|x l IH]; simpl; intros H; [constructor|].
  apply NoDup_cons in H as [Hx H]. destruct (p x); [|auto]. simpl.
  apply NoDup_cons. split; [|auto]. intros Hin. apply Hx.
  apply list_elem_of_In, in_map_iff in Hin as [y [E Hy]].
  apply filter_In in Hy as [Hy _]. apply list_elem_of_In, in_map_iff. eauto.
Qed.

(** X10: the candidates of a result have pairwise different
    (CUI, source, term type) triples: a concept is listed at most once for each
    source and term type, however many rows matched. *)
Theorem X10_candidates_distinct_per_key
  (self : matcher) (lines mentions : list string)
  (mention_types : gmap string (list string)) (m : string) (g : grounding) :
  lookup_result m (map_mentions_to_cui self lines mentions mention_types) = Some g ->
  NoDup (map (fun c => (cui c, sab c, tty c)) (candidates g)).
Proof.
  intros Hg. apply result_lookup in Hg as [_ ->]. rewrite ground_alone_candidates.
  destruct (slice_to_prefix (top_k self)
              (sort_by (cand_leb self)
                 (List.filter (passes_filter self (sorted_set (Spec.hints_of mention_types m)))
                    (Spec.collected_alone mention_types lines m)))) as [rest E].
  apply (NoDup_map_sub _ _ rest). rewrite <- E.
  rewrite (Permutation_map _ (sort_by_perm (cand_leb self) _)).
  apply (NoDup_map_filter Spec.key3), first_per_key_NoDup.
Qed.

Lemma X10_candidates_distinct_per_key_witness :
  NoDup (map (fun c => (cui c, sab c, tty c)) [some_cand; msh_cand]).
Proof.
  apply (X10_candidates_distinct_per_key demo_matcher mrconso_demo ["pneumonia"] ∅
           "pneumonia"
           {| best_cui := Some "C0032285"; candidates := [some_cand; msh_cand];
              g_types_seen := []; excluded_reason := None |}).
  vm_compute. reflexivity.
Defined.

Lemma ground_alone_types self lines mt m :
  g_types_seen (Spec.ground_alone self lines mt m) = sorted_set (Spec.hints_of mt m).
Proof. unfold Spec.ground_alone, finish_mention. destruct (is_measurement _); reflexivity. Qed.

Lemma sort_by_length {A} (leb : A -> A -> bool) l : length (sort_by leb l) = length l.
Proof. apply Permutation_length, sort_by_perm. Qed.

(** X11: for a non-negative [top_k], a result holds exactly [top_k]
    candidates when at least that many collected candidates pass the filter,
    and all of them otherwise; never more than [top_k]. *)
Theorem X11_number_of_candidates
  (self : matcher) (lines mentions : list string)
  (mention_types : gmap string (list string)) (m : string) (g : grounding) :
  (0 <= top_k self)%Z ->
  lookup_result m (map_mentions_to_cui self lines mentions mention_types) = Some g ->
  length (candidates g) =
  Nat.min (Z.to_nat (top_k self))
    (length (List.filter (passes_filter self (g_types_seen g))
               (Spec.collected_alone mention_types lines m))).
Proof.
  intros Hk Hg. apply result_lookup in Hg as [_ ->].
  rewrite ground_alone_types, ground_alone_candidates, slice_to_nonneg by assumption.
  rewrite length_take, sort_by_length. reflexivity.
Qed.

Lemma X11_number_of_candidates_witness :
  length [some_cand; msh_cand] =
  Nat.min (Z.to_nat (top_k demo_matcher))
    (length (List.filter (passes_filter demo_matcher [])
               (Spec.collected_alone ∅ mrconso_demo "pneumonia"))).
Proof.
  apply (X11_number_of_candidates demo_matcher mrconso_demo ["pneumonia"] ∅ "pneumonia"
           {| best_cui := Some "C0032285"; candidates := [some_cand; msh_cand];
              g_types_seen := []; excluded_reason := None |}).
  - simpl. lia.
  - vm_compute. reflexivity.
Defined.

(** X12: a negative [top_k] does not mean "none": the slice [[:top_k]] then
    drops the last [-top_k] of the sorted candidates and keeps the others, in
    their order, so the result holds that many fewer candidates than passed
    the filter (and none when fewer passed). *)
Theorem X12_negative_top_k_drops_from_the_end
  (self : matcher) (lines mentions : list string)
  (mention_types : gmap string (list string)) (m : string) (g : grounding) :
  (top_k self < 0)%Z ->
  lookup_result m (map_mentions_to_cui self lines mentions mention_types) = Some g ->
  length (candidates g) =
  length (List.filter (passes_filter self (g_types_seen g))
            (Spec.collected_alone mention_types lines m))
  - Z.to_nat (- top_k self) /\
  exists dropped,
    sort_by (cand_leb self)
      (List.filter (passes_filter self (g_types_seen g))
         (Spec.collected_alone mention_types lines m)) = candidates g ++ dropped /\
    length dropped =
    Nat.min (Z.to_nat (- top_k self))
      (length (List.filter (passes_filter self (g_types_seen g))
                 (Spec.collected_alone mention_types lines m))).
Proof.
  intros Hk Hg. apply result_lookup in Hg as [_ ->].
  rewrite ground_alone_types, ground_alone_candidates. unfold slice_to.
  rewrite (proj2 (Z.leb_gt 0 (top_k self))) by assumption.
  set (sorted := sort_by (cand_leb self) _).
  assert (Hlen : length sorted =
                 length (List.filter
                           (passes_filter self (sorted_set (Spec.hints_of mention_types m)))
                           (Spec.collected_alone mention_types lines m)))
    by apply sort_by_length.
  split.
  - rewrite length_take. lia.
  - exists (skipn (length sorted - Z.to_nat (- top_k self)) sorted). split.
    + symmetry. apply firstn_skipn.
    + rewrite length_skipn. lia.
Qed.

Lemma X12_negative_top_k_drops_from_the_end_witness :
  length [some_cand] =
  length (List.filter (passes_filter (init "MRCONSO.RRF" None (-1) false None None None) [])
            (Spec.collected_alone ∅ mrconso_demo "pneumonia"))
  - Z.to_nat (- top_k (init "MRCONSO.RRF" None (-1) false None None None)) /\
  exists dropped,
    sort_by (cand_leb (init "MRCONSO.RRF" None (-1) false None None None))
      (List.filter (passes_filter (init "MRCONSO.RRF" None (-1) false None None None) [])
         (Spec.collected_alone ∅ mrconso_demo "pneumonia")) = [some_cand] ++ dropped /\
    length dropped =
    Nat.min (Z.to_nat (- top_k (init "MRCONSO.RRF" None (-1) false None None None)))
      (length (List.filter
                 (passes_filter (init "MRCONSO.RRF" None (-1) false None None None) [])
                 (Spec.collected_alone ∅ mrconso_demo "pneumonia"))).
Proof.
  apply (X12_negative_top_k_drops_from_the_end
           (init "MRCONSO.RRF" None (-1) false None None None)
           mrconso_demo ["pneumonia"] ∅ "pneumonia"
           {| best_cui := Some "C0032285"; candidates := [some_cand];
              g_types_seen := []; excluded_reason := None |}).
  - simpl. lia.
  - vm_compute. reflexivity.
Defined.

Lemma StronglySorted_middle {A} (R : A -> A -> Prop) l1 x l2 y l3 :
  StronglySorted R (l1 ++ x :: l2 ++ y :: l3) -> R x y.
Proof.
  intros H. apply StronglySorted_app_1_r in H.
  apply StronglySorted_inv in H as [_ H].
  rewrite Forall_forall in H. apply H, elem_of_app. right. constructor.
Qed.

Lemma candidates_sorted self lines mt m :
  StronglySorted (fun x y => cand_leb self x y = true)
    (candidates (Spec.ground_alone self lines mt m)).
Proof.
  rewrite ground_alone_candidates.
  match goal with |- context [slice_to ?k ?l] =>
    destruct (slice_to_prefix k l) as [rest E];
    pose proof (sort_by_sorted (cand_leb self) (cand_leb_total self)
                  (cand_leb_trans self)
                  (List.filter (passes_filter self (sorted_set (Spec.hints_of mt m)))
                     (Spec.collected_alone mt lines m))) as Hs
  end.
  rewrite E in Hs. eapply StronglySorted_app_1_l, Hs.
Qed.

Lemma rank_leb_first_two k1 p1 s1 t1 a1 y1 c1 k2 p2 s2 t2 a2 y2 c2 :
  rank_leb (k1, p1, s1, t1, a1, y1, c1) (k2, p2, s2, t2, a2, y2, c2) = true ->
  k1 <= k2 /\ (k1 = k2 -> p1 <= p2).
Proof.
  unfold rank_leb, rank_compare.
  destruct (Nat.compare_spec k1 k2) as [->|Hlt|Hgt]; simpl.
  - destruct (Nat.compare_spec p1 p2) as [->|Hlt|Hgt]; simpl.
    + intros _. split; [lia|]. intros _. lia.
    + intros _. split; lia.
    + discriminate.
  - intros _. split; lia.
  - discriminate.
Qed.

(** X13: in every result the candidates are ordered by match kind first: one
    matched by the mention itself never comes after one matched by its
    canonical form, nor that one after one matched by a head key; and among
    candidates of the same kind a preferred row never comes after a
    non-preferred one.  This holds for every configuration of the matcher. *)
Theorem X13_exact_matches_come_first
  (self : matcher) (lines mentions : list string)
  (mention_types : gmap string (list string)) (m : string) (g : grounding)
  (l1 l2 l3 : list cand) (x y : cand) :
  lookup_result m (map_mentions_to_cui self lines mentions mention_types) = Some g ->
  candidates g = l1 ++ x :: l2 ++ y :: l3 ->
  KEYTYPE_PRIORITY (matched_key_type x) <= KEYTYPE_PRIORITY (matched_key_type y) /\
  (KEYTYPE_PRIORITY (matched_key_type x) = KEYTYPE_PRIORITY (matched_key_type y) ->
   ispref y = "Y" -> ispref x = "Y").
Proof.
  intros Hg E. apply result_lookup in Hg as [_ ->].
  pose proof (candidates_sorted self lines mention_types m) as Hs.
  rewrite E in Hs. apply StronglySorted_middle in Hs.
  unfold cand_leb, _rank_candidate in Hs.
  apply rank_leb_first_two in Hs as [H1 H2]. split; [exact H1|].
  intros Hk Hy. specialize (H2 Hk). rewrite Hy in H2. simpl in H2.
  destruct (String.eqb_spec (ispref x) "Y"); [assumption|lia].
Qed.

Lemma X13_exact_matches_come_first_witness :
  KEYTYPE_PRIORITY (matched_key_type some_cand)
    <= KEYTYPE_PRIORITY (matched_key_type msh_cand) /\
  (KEYTYPE_PRIORITY (matched_key_type some_cand)
     = KEYTYPE_PRIORITY (matched_key_type msh_cand) ->
   ispref msh_cand = "Y" -> ispref some_cand = "Y").
Proof.
  apply (X13_exact_matches_come_first demo_matcher mrconso_demo ["pneumonia"] ∅
           "pneumonia"
           {| best_cui := Some "C0032285"; candidates := [some_cand; msh_cand];
              g_types_seen := []; excluded_reason := None |} [] [] []).
  - vm_compute. reflexivity.
  - reflexivity.
Defined.

(** X14: with [top_k] at least 1, the best CUI of a result is the CUI of a
    candidate that ranks no worse than any collected candidate that passed the
    filter: the cut to [top_k] never removes the best one. *)
Theorem X14_best_is_top_ranked
  (self : matcher) (lines mentions : list string)
  (mention_types : gmap string (list string)) (m : string) (g : grounding) (c : cand) :
  (1 <= top_k self)%Z ->
  lookup_result m (map_mentions_to_cui self lines mentions mention_types) = Some g ->
  c ∈ List.filter (passes_filter self (g_types_seen g))
        (Spec.collected_alone mention_types lines m) ->
  exists b, head (candidates g) = Some b /\ best_cui g = Some (cui b) /\
            cand_leb self b c = true.
Proof.
  intros Hk Hg Hc. apply result_lookup in Hg as [_ ->].
  rewrite ground_alone_types in Hc. rewrite ground_alone_best, ground_alone_candidates.
  pose proof (sort_by_sorted (cand_leb self) (cand_leb_total self) (cand_leb_trans self)
                (List.filter (passes_filter self (sorted_set (Spec.hints_of mention_types m)))
                   (Spec.collected_alone mention_types lines m))) as Hs.
  rewrite <- (sort_by_perm (cand_leb self)) in Hc.
  destruct (sort_by (cand_leb self) _) as [|b bs]; [inversion Hc|].
  destruct (slice_to_positive (top_k self) b bs Hk) as [rest ->].
  exists b. split; [reflexivity|]. split; [reflexivity|].
  apply StronglySorted_inv in Hs as [_ Hs].
  apply elem_of_cons in Hc as [->|Hc].
  - destruct (cand_leb_total self b b); assumption.
  - rewrite Forall_forall in Hs. apply Hs, Hc.
Qed.

Lemma X14_best_is_top_ranked_witness :
  exists b, head [some_cand; msh_cand] = Some b /\ Some "C0032285" = Some (cui b) /\
            cand_leb demo_matcher b msh_cand = true.
Proof.
  apply (X14_best_is_top_ranked demo_matcher mrconso_demo ["pneumonia"] ∅ "pneumonia"
           {| best_cui := Some "C0032285"; candidates := [some_cand; msh_cand];
              g_types_seen := []; excluded_reason := None |} msh_cand).
  - simpl. lia.
  - vm_compute. reflexivity.
  - apply list_elem_of_In. vm_compute. right. left. reflexivity.
Defined.

(** ** [head_candidates] *)

Lemma sforall_app p a b :
  sforall p (a +:+ b) = sforall p a && sforall p b.
Proof. induction a as [|c a IH]; simpl; [|rewrite IH, andb_assoc]; reflexivity. Qed.

Lemma split_from_nil cur :
  split_from cur "" = if nonempty cur then [cur] else [].
Proof. destruct cur; reflexivity. Qed.

Lemma split_from_space cur c rest :
  is_space c = true ->
  split_from cur (String c rest) =
  (if nonempty cur then [cur] else []) ++ split_from "" rest.
Proof. intros H. simpl. rewrite H. destruct cur; reflexivity. Qed.

Lemma split_from_word cur t rest :
  sforall (fun c => negb (is_space c)) t = true ->
  split_from cur (t +:+ rest) = split_from (cur +:+ t) rest.
Proof.
  revert cur. induction t as [|c t IH]; intros cur H; simpl.
  - rewrite sapp_nil_r. reflexivity.
  - simpl in H. apply andb_prop in H as [Hc Ht]. apply negb_true_iff in Hc.
    rewrite Hc, IH by assumption. rewrite sapp_assoc. reflexivity.
Qed.

Lemma split_from_tokens cur s :
  sforall (fun c => negb (is_space c)) cur = true ->
  Forall (fun t => Tokens.is_token t = true) (split_from cur s).
Proof.
  revert cur. induction s as [|c s IH]; intros cur Hcur.
  - rewrite split_from_nil. destruct (nonempty cur) eqn:E; constructor; [|constructor].
    unfold Tokens.is_token. rewrite E, Hcur. reflexivity.
  - destruct (is_space c) eqn:Hc.
    + rewrite split_from_space by assumption.
      apply Forall_app. split; [|apply IH; reflexivity].
      destruct (nonempty cur) eqn:E; constructor; [|constructor].
      unfold Tokens.is_token. rewrite E, Hcur. reflexivity.
    + simpl. rewrite Hc. apply IH. rewrite sforall_app, Hcur. simpl. rewrite Hc. reflexivity.
Qed.

(** Splitting a text made by joining tokens with single spaces gives the
    tokens back. *)
Lemma split_join toks :
  Forall (fun t => Tokens.is_token t = true) toks ->
  split_ws (join " " toks) = toks.
Proof.
  unfold split_ws. induction toks as [|t toks IH]; intros H; [reflexivity|].
  apply Forall_cons in H as [Ht H]. unfold Tokens.is_token in Ht.
  apply andb_prop in Ht as [Hne Hsp].
  destruct toks as [|t' toks].
  - simpl. rewrite <- (sapp_nil_r t) at 1.
    rewrite split_from_word, split_from_nil by assumption. simpl. rewrite Hne. reflexivity.
  - change (join " " (t :: t' :: toks)) with (t +:+ " " +:+ join " " (t' :: toks)).
    rewrite split_from_word by assumption.
    change (" " +:+ join " " (t' :: toks)) with (String " "%char (join " " (t' :: toks))).
    change ("" +:+ t) with t.
    rewrite split_from_space by reflexivity. rewrite Hne, IH by assumption. reflexivity.
Qed.

Lemma content_tokens_tokens s :
  Forall (fun t => Tokens.is_token t = true) (Tokens.content_tokens s).
Proof.
  unfold Tokens.content_tokens, split_ws.
  pose proof (split_from_tokens "" s eq_refl) as H.
  rewrite Forall_forall in H |- *. intros t Ht.
  apply list_filter_elem in Ht as [Ht _]. apply list_filter_elem in Ht as [Ht _]. auto.
Qed.

Lemma last_n_tokens n toks :
  Forall (fun t => Tokens.is_token t = true) toks ->
  Forall (fun t => Tokens.is_token t = true) (last_n n toks).
Proof.
  intros H. unfold last_n. rewrite <- (firstn_skipn (length toks - n) toks) in H.
  apply Forall_app in H as [_ H]. exact H.
Qed.

Lemma last_n_length {A} n (l : list A) : n <= length l -> length (last_n n l) = n.
Proof. intros H. unfold last_n. rewrite length_skipn. lia. Qed.

Lemma window_word_count n toks :
  Forall (fun t => Tokens.is_token t = true) toks -> n <= length toks ->
  length (split_ws (join " " (last_n n toks))) = n.
Proof.
  intros H Hn. rewrite split_join by (apply last_n_tokens, H). apply last_n_length, Hn.
Qed.

Lemma remove_dups_fixed {A} `{EqDecision A} (l : list A) : NoDup l -> remove_dups l = l.
Proof.
  induction l as [|x l IH]; intros H; [reflexivity|].
  apply NoDup_cons in H as [Hx H]. simpl.
  destruct (decide_rel elem_of x l); [contradiction|]. rewrite IH; auto.
Qed.

Lemma head_leb_counts x y nx ny :
  length (split_ws x) = nx -> length (split_ws y) = ny -> nx < ny ->
  head_leb x y = false /\ head_leb y x = true.
Proof.
  intros Hx Hy Hlt. unfold head_leb. rewrite Hx, Hy.
  rewrite (proj2 (Nat.ltb_ge ny nx)) by lia.
  rewrite (proj2 (Nat.eqb_neq nx ny)) by lia.
  rewrite (proj2 (Nat.ltb_lt nx ny)) by lia. split; reflexivity.
Qed.

Lemma different_counts x y :
  length (split_ws x) <> length (split_ws y) -> x <> y.
Proof. intros H ->. contradiction. Qed.

(** X15: [head_candidates] returns the trailing windows of one, two and
    three tokens of the text, taken after stop words, laterality terms and
    severity terms have been removed, as far as there are enough tokens, and
    the longest window first. *)
Theorem X15_head_candidates_are_trailing_windows (canonical : string) :
  head_candidates canonical =
  map (fun n => join " " (last_n n (Tokens.content_tokens canonical)))
      (List.filter (fun n => Nat.leb n (length (Tokens.content_tokens canonical)))
         [3; 2; 1]).
Proof.
  unfold head_candidates. fold (Tokens.content_tokens canonical).
  pose proof (content_tokens_tokens canonical) as Htok.
  set (toks := Tokens.content_tokens canonical) in *.
  pose proof (fun n => window_word_count n toks Htok) as Hcount.
  destruct (length toks) as [|[|[|n]]] eqn:Hlen; cbn [Nat.leb app List.filter map].
  - reflexivity.
  - rewrite remove_dups_fixed by apply NoDup_singleton. reflexivity.
  - specialize (Hcount 1 ltac:(lia)) as H1. specialize (Hcount 2 ltac:(lia)) as H2.
    rewrite remove_dups_fixed.
    2:{ apply NoDup_cons. split; [|apply NoDup_singleton].
        intros H. apply list_elem_of_singleton in H. revert H.
        apply different_counts. rewrite H1, H2. discriminate. }
    cbn [sort_by insert_sorted].
    destruct (head_leb_counts _ _ 1 2 H1 H2 ltac:(lia)) as [-> _]. reflexivity.
  - specialize (Hcount 1 ltac:(lia)) as H1. specialize (Hcount 2 ltac:(lia)) as H2.
    specialize (Hcount 3 ltac:(lia)) as H3.
    rewrite remove_dups_fixed.
    2:{ apply NoDup_cons. split.
        - intros H. apply elem_of_cons in H as [H|H]; revert H.
          + apply different_counts. rewrite H1, H2. discriminate.
          + intros H%list_elem_of_singleton. revert H.
            apply different_counts. rewrite H1, H3. discriminate.
        - apply NoDup_cons. split; [|apply NoDup_singleton].
          intros H%list_elem_of_singleton. revert H.
          apply different_counts. rewrite H2, H3. discriminate. }
    cbn [sort_by insert_sorted].
    destruct (head_leb_counts _ _ 2 3 H2 H3 ltac:(lia)) as [-> _].
    cbn [insert_sorted].
    destruct (head_leb_counts _ _ 1 3 H1 H3 ltac:(lia)) as [-> _].
    destruct (head_leb_counts _ _ 1 2 H1 H2 ltac:(lia)) as [-> _].
    reflexivity.
Qed.

(* ================================================================== *)
(** * Properties of the pipeline around the matcher *)
(* ================================================================== *)

Import Pipeline.

Example replace_blanks_ex :
  map replace_blanks ["a___b"; "__"; "____"; "_____"; "______"; "_ __"]
  = ["a b"; "__"; " _"; " __"; "  "; "_ __"].
Proof. reflexivity. Qed.

Example clean_report_ex :
  clean_report (Some "  Heart size ___ normal.   No ___  effusion ") =
  "Heart size normal. No effusion".
Proof. reflexivity. Qed.

(** ** [clean_report] *)

(** X16: a cleaned report has no whitespace but single spaces between other
    characters: every whitespace character is a space, no two spaces are
    adjacent, and there is none at either end.  A value that is not a string
    is cleaned to the empty text, which has this form too. *)
Theorem X16_clean_report_single_spaced (text : option string) :
  sforall (fun c => negb (is_space c) || Ascii.eqb c " ") (clean_report text) = true /\
  Spec.no_space_run (clean_report text) = true /\
  strip (clean_report text) = clean_report text /\
  clean_report None = "".
Proof.
  destruct text as [t|]; [|repeat split]. unfold clean_report. split; [|split; [|split]].
  - apply sforall_strip, (collapse_spaces false).
  - apply no_space_run_rstrip, no_space_run_lstrip, collapse_no_space_run.
  - apply strip_idem.
  - reflexivity.
Qed.

(** ** [collect_mentions] *)

Lemma fold_left_flat_map {A B C} (f : A -> C -> A) (g : B -> list C) l acc :
  fold_left (fun a b => fold_left f (g b) a) l acc = fold_left f (flat_map g l) acc.
Proof.
  revert acc. induction l as [|b l IH]; intros acc; simpl; [reflexivity|].
  rewrite IH, fold_left_app. reflexivity.
Qed.

Lemma collect_fold ents (acc : list string * gmap string (list string)) :
  fst (fold_left collect_entity ents acc) =
    fst acc ++ map (fun e => normalize_text (text e)) (List.filter has_text ents) /\
  forall m,
    snd (fold_left collect_entity ents acc) !! m =
    match List.filter (fun e => has_text e && String.eqb (normalize_text (text e)) m) ents with
    | [] => snd acc !! m
    | es => Some (default [] (snd acc !! m) ++ map etype es)
    end.
Proof.
  revert acc. induction ents as [|e ents IH]; intros acc.
  - simpl. rewrite app_nil_r. split; reflexivity.
  - cbn [fold_left]. destruct (IH (collect_entity acc e)) as [IH1 IH2].
    rewrite IH1. split.
    + unfold collect_entity. cbn [List.filter]. destruct (has_text e); simpl.
      * rewrite <- app_assoc. reflexivity.
      * reflexivity.
    + intros m. rewrite IH2. unfold collect_entity. cbn [List.filter].
      destruct (has_text e) eqn:Ht; cbn [andb]; [|reflexivity]. cbn [snd].
      destruct (String.eqb_spec (normalize_text (text e)) m) as [->|Hne].
      * rewrite lookup_insert_eq. simpl.
        generalize (List.filter
          (fun e0 => has_text e0 && String.eqb (normalize_text (text e0)) m) ents).
        intros [|e0 l]; simpl; [reflexivity|].
        rewrite <- app_assoc. reflexivity.
      * rewrite lookup_insert_ne by assumption. reflexivity.
Qed.

Lemma filter_both {A} (p q : A -> bool) l x :
  x ∈ List.filter (fun e => p e && q e) l <-> x ∈ List.filter p l /\ q x = true.
Proof.
  rewrite !list_filter_elem, andb_true_iff. tauto.
Qed.

(** X17: [collect_mentions] returns the normalized text of every entity that
    has a non-blank text, in the order of the documents, and a hint entry for
    exactly those mention strings: no mention of the batch is without hints,
    and no hint entry is without a mention. *)
Theorem X17_collect_mentions_keys (all_entities : list (dict ExtractedEntity)) :
  fst (collect_mentions all_entities) =
    map (fun e => normalize_text (text e))
        (List.filter has_text (flat_map (map snd) all_entities)) /\
  forall m, is_Some (snd (collect_mentions all_entities) !! m) <->
            In m (fst (collect_mentions all_entities)).
Proof.
  unfold collect_mentions, collect_raw. cbn [fst snd].
  rewrite fold_left_flat_map.
  destruct (collect_fold (flat_map (map snd) all_entities) ([], ∅)) as [H1 H2].
  split; [exact H1|]. intros m. rewrite H1, lookup_fmap, H2. cbn [fst snd app].
  rewrite lookup_empty, in_map_iff. split.
  - destruct (List.filter (fun e => has_text e && _) _) as [|e es] eqn:E;
      [intros [x Hx]; discriminate|]. intros _.
    assert (He : e ∈ e :: es) by constructor. rewrite <- E in He.
    apply filter_both in He as [He Hm]. apply String.eqb_eq in Hm.
    exists e. split; [exact Hm|apply list_elem_of_In, He].
  - intros [e [Hm He]]. apply list_elem_of_In in He.
    assert (He' : e ∈ List.filter
              (fun e => has_text e && String.eqb (normalize_text (text e)) m)
              (flat_map (map snd) all_entities)).
    { apply filter_both. split; [exact He|]. apply String.eqb_eq, Hm. }
    destruct (List.filter (fun e => has_text e && _) _); [inversion He'|].
    simpl. eauto.
Qed.

Lemma collect_mentions_hints
  (all_entities : list (dict ExtractedEntity)) (m : string) :
  Spec.hints_of (snd (collect_mentions all_entities)) m =
    sorted_set (map etype
      (List.filter (fun e => has_text e && String.eqb (normalize_text (text e)) m)
         (flat_map (map snd) all_entities))) /\
  forall t,
    In t (Spec.hints_of (snd (collect_mentions all_entities)) m) <->
    exists ents ent_id e,
      In ents all_entities /\ In (ent_id, e) ents /\
      has_text e = true /\ normalize_text (text e) = m /\ etype e = t.
Proof.
  assert (E : Spec.hints_of (snd (collect_mentions all_entities)) m =
    sorted_set (map etype
      (List.filter (fun e => has_text e && String.eqb (normalize_text (text e)) m)
         (flat_map (map snd) all_entities)))).
  { unfold Spec.hints_of, collect_mentions, collect_raw. cbn [snd].
    rewrite fold_left_flat_map, lookup_fmap.
    destruct (collect_fold (flat_map (map snd) all_entities) ([], ∅)) as [_ H2].
    rewrite H2. cbn [snd]. rewrite lookup_empty.
    destruct (List.filter _ _); reflexivity. }
  split; [exact E|]. intros t. rewrite E.
  rewrite <- list_elem_of_In, sorted_set_elem, list_elem_of_In, in_map_iff. split.
  - intros [e [Ht He]]. apply list_elem_of_In, filter_both in He as [He Hm].
    apply list_filter_elem in He as [He Htext].
    apply list_elem_of_In, in_flat_map in He as [ents [Hents He]].
    apply in_map_iff in He as [[ent_id e'] [<- He]].
    apply String.eqb_eq in Hm. exists ents, ent_id, e'. auto.
  - intros [ents [ent_id [e [Hents [He [Htext [Hm Ht]]]]]]].
    exists e. split; [exact Ht|]. apply list_elem_of_In, filter_both.
    split; [|apply String.eqb_eq, Hm]. apply list_filter_elem.
    split; [|exact Htext]. apply list_elem_of_In, in_flat_map.
    exists ents. split; [exact Hents|]. apply in_map_iff. exists (ent_id, e). auto.
Qed.

(** X18: the hints [collect_mentions] records for a mention are the entity
    types of all the entities, over all documents, whose non-blank text
    normalizes to that mention: merged as a set, sorted, without duplicates. *)
Theorem X18_collect_mentions_merges_types
  (all_entities : list (dict ExtractedEntity)) (m : string) :
  Spec.hints_of (snd (collect_mentions all_entities)) m =
    sorted_set (map etype
      (List.filter (fun e => has_text e && String.eqb (normalize_text (text e)) m)
         (flat_map (map snd) all_entities))) /\
  forall t,
    In t (Spec.hints_of (snd (collect_mentions all_entities)) m) <->
    exists ents ent_id e,
      In ents all_entities /\ In (ent_id, e) ents /\
      has_text e = true /\ normalize_text (text e) = m /\ etype e = t.
Proof. exact (collect_mentions_hints all_entities m). Qed.

(** ** [enrich_entities_with_cui] after [collect_mentions] and [map_mentions_to_cui] *)

Lemma lower_space c : is_space c = true -> is_space (lower_char c) = true.
Proof.
  destruct c as [[] [] [] [] [] [] [] []]; vm_compute; intros H;
    (reflexivity || discriminate).
Qed.

Lemma lstrip_all_space_inv s :
  sforall is_space (lstrip s) = true -> sforall is_space s = true.
Proof.
  induction s as [|c s IH]; simpl; [reflexivity|].
  destruct (is_space c) eqn:Hc; simpl; [exact IH|]. rewrite Hc. discriminate.
Qed.

Lemma lstrip_all_space s : sforall is_space s = true -> lstrip s = "".
Proof.
  induction s as [|c s IH]; simpl; [reflexivity|].
  intros [Hc Hs]%andb_prop. rewrite Hc. apply IH, Hs.
Qed.

Lemma strip_all_space s : sforall is_space s = true -> strip s = "".
Proof. intros H. unfold strip. rewrite lstrip_all_space by assumption. reflexivity. Qed.

Lemma strip_empty_inv s : strip s = "" -> sforall is_space s = true.
Proof. intros H. apply lstrip_all_space_inv, rstrip_empty_inv, H. Qed.

(** An entity that [collect_mentions] passes over has the empty normalized
    text. *)
Lemma no_text_normalizes_to_empty ent :
  has_text ent = false -> normalize_text (text ent) = "".
Proof.
  unfold has_text. intros H.
  assert (Hs : sforall is_space (text ent) = true).
  { destruct (text ent) as [|c s] eqn:E; [reflexivity|]. simpl in H.
    apply strip_empty_inv. destruct (strip (String c s)); [reflexivity|discriminate]. }
  unfold normalize_text, lower.
  rewrite (strip_all_space (smap lower_char (text ent))); [reflexivity|].
  apply smap_all_space; [exact lower_space|exact Hs].
Qed.

Lemma collected_alone_empty_canonical mt lines m :
  canonicalize_surface m = "" -> Spec.collected_alone mt lines m = [].
Proof.
  intros Hc. unfold Spec.collected_alone. rewrite flat_map_nil; [reflexivity|].
  intros line. apply own_cands_unmatched. intros r kt _ _ Hk.
  apply (keys_empty_canonical m _ kt _ Hc) in Hk as [Hk Hne].
  apply Hne. rewrite <- Hc, <- Hk. symmetry. apply canonicalize_surface_fixed,
    canonicalize_surface_form.
Qed.

Lemma ground_alone_empty_canonical self lines mt m :
  canonicalize_surface m = "" ->
  best_cui (Spec.ground_alone self lines mt m) = None /\
  candidates (Spec.ground_alone self lines mt m) = [].
Proof.
  intros Hc. rewrite ground_alone_no_candidates
    by (apply collected_alone_empty_canonical, Hc).
  split; reflexivity.
Qed.

Lemma dict_set_fresh {V} k (v : V) d :
  ~ In k (map fst d) -> dict_set k v d = d ++ [(k, v)].
Proof.
  induction d as [|[k' v'] d IH]; simpl; intros H; [reflexivity|].
  destruct (String.eqb_spec k k') as [->|_]; [exfalso; auto|].
  rewrite IH by auto. reflexivity.
Qed.

Lemma enrich_fold res ents (acc : dict EnrichedEntity) :
  List.NoDup (map fst acc ++ map fst ents) ->
  fold_left (fun enriched '(ent_id, ent) =>
               dict_set ent_id (enrich_entity res ent) enriched) ents acc =
  acc ++ map (fun p => (fst p, enrich_entity res (snd p))) ents.
Proof.
  revert acc. induction ents as [|[k e] ents IH]; intros acc H; simpl.
  - rewrite app_nil_r. reflexivity.
  - simpl in H. rewrite dict_set_fresh.
    + rewrite IH.
      * rewrite <- app_assoc. reflexivity.
      * rewrite map_app, <- app_assoc. exact H.
    + apply NoDup_remove_2 in H. intros Hk. apply H, in_or_app. auto.
Qed.

Lemma enrich_report_items res ents :
  List.NoDup (map fst ents) ->
  enrich_report res ents = map (fun p => (fst p, enrich_entity res (snd p))) ents.
Proof. intros H. unfold enrich_report. rewrite enrich_fold; [reflexivity|exact H]. Qed.

Lemma dict_get_map {V W} (f : V -> W) k (d : dict V) :
  dict_get k (map (fun p => (fst p, f (snd p))) d) = f <$> dict_get k d.
Proof.
  induction d as [|[k' v] d IH]; simpl; [reflexivity|].
  destruct (String.eqb k k'); [reflexivity|exact IH].
Qed.

Lemma dict_get_In {V} k (v : V) d : dict_get k d = Some v -> In (k, v) d.
Proof.
  induction d as [|[k' v'] d IH]; simpl; [discriminate|].
  destruct (String.eqb_spec k k') as [->|_]; [intros [= ->]; auto|auto].
Qed.

(** What [enrich_entity] attaches to an entity of the batch, when the results
    are those of the batch: the grounding of its normalized text. *)
Lemma enrich_entity_grounding self lines all_entities ents ent_id ent :
  In ents all_entities -> In (ent_id, ent) ents ->
  let mentions := fst (collect_mentions all_entities) in
  let mt := snd (collect_mentions all_entities) in
  let g := Spec.ground_alone self lines mt (normalize_text (text ent)) in
  let e := enrich_entity (map_mentions_to_cui self lines mentions mt) ent in
  e_cui e = best_cui g /\ e_cui_candidates e = candidates g.
Proof.
  intros Hents Hent mentions mt g e. subst e. unfold enrich_entity. cbn [e_cui e_cui_candidates].
  destruct (lookup_result _ _) as [g'|] eqn:E.
  - apply result_lookup in E as [_ ->]. split; reflexivity.
  - destruct (has_text ent) eqn:Ht.
    + exfalso.
      assert (Hm : In (normalize_text (text ent)) mentions).
      { subst mentions. unfold collect_mentions, collect_raw. cbn [fst].
        rewrite fold_left_flat_map.
        destruct (collect_fold (flat_map (map snd) all_entities) ([], ∅)) as [-> _].
        cbn [fst app]. apply in_map_iff. exists ent. split; [reflexivity|].
        apply filter_In. split; [|exact Ht]. apply in_flat_map. exists ents.
        split; [exact Hents|]. apply in_map_iff. exists (ent_id, ent). auto. }
      assert (E' : lookup_result (normalize_text (text ent))
                     (map_mentions_to_cui self lines mentions mt) = Some g)
        by (apply result_lookup; auto).
      congruence.
    + subst g. rewrite (no_text_normalizes_to_empty _ Ht).
      destruct (ground_alone_empty_canonical self lines mt "" eq_refl) as [-> ->].
      split; reflexivity.
Qed.

(** X19: in the grounding steps of the pipeline, every entity of every report
    comes back under its identifier, with its text, type and offsets, and
    with the best CUI and the candidate list of the grounding of its
    normalized text under the type hints merged over the whole batch; the
    default of the lookup (no CUI, no candidates) is taken only where that
    grounding is the same.  The reports keep their order and their
    identifiers. *)
Theorem X19_entities_carry_their_grounding
  (self : matcher) (lines : list string)
  (all_entities : list (dict ExtractedEntity))
  (i : nat) (ents : dict ExtractedEntity) (ent_id : string) (ent : ExtractedEntity) :
  all_entities !! i = Some ents ->
  List.NoDup (map fst ents) ->
  dict_get ent_id ents = Some ent ->
  exists enriched e,
    snd (fst (ground_entities self lines all_entities)) !! i = Some enriched /\
    map fst enriched = map fst ents /\
    dict_get ent_id enriched = Some e /\
    e_text e = text ent /\ e_etype e = etype ent /\
    e_start e = start ent /\ e_end e = end_ ent /\
    let g := Spec.ground_alone self lines (snd (collect_mentions all_entities))
               (normalize_text (text ent)) in
    e_cui e = best_cui g /\ e_cui_candidates e = candidates g.
Proof.
  intros Hi Hnd Hget. unfold ground_entities.
  destruct (collect_mentions all_entities) as [mentions mt] eqn:Ecm. cbn [fst snd].
  exists (enrich_report (map_mentions_to_cui self lines mentions mt) ents),
         (enrich_entity (map_mentions_to_cui self lines mentions mt) ent).
  split; [|split; [|split; [|repeat (split; [reflexivity|])]]].
  - unfold enrich_entities_with_cui. rewrite list_lookup_fmap, Hi. reflexivity.
  - rewrite enrich_report_items by assumption. rewrite map_map. reflexivity.
  - rewrite enrich_report_items by assumption.
    rewrite (dict_get_map (enrich_entity _)), Hget. reflexivity.
  - pose proof (enrich_entity_grounding self lines all_entities ents ent_id ent) as H.
    rewrite Ecm in H. cbn [fst snd] in H. apply H.
    + apply list_elem_of_In. eapply list_elem_of_lookup_2, Hi.
    + apply dict_get_In, Hget.
Qed.

Lemma X19_entities_carry_their_grounding_witness :
  exists enriched e,
    snd (fst (ground_entities demo_matcher mrconso_demo demo_reports)) !! 1%nat
      = Some enriched /\
    map fst enriched = ["1"] /\
    dict_get "1" enriched = Some e /\
    e_text e = "pneumonia " /\ e_etype e = "OBSERVATION" /\
    e_start e = Some 3%Z /\ e_end e = Some 3%Z /\
    let g := Spec.ground_alone demo_matcher mrconso_demo
               (snd (collect_mentions demo_reports)) "pneumonia" in
    e_cui e = best_cui g /\ e_cui_candidates e = candidates g.
Proof.
  apply (X19_entities_carry_their_grounding demo_matcher mrconso_demo demo_reports 1
           [("1", {| text := "pneumonia "; etype := "OBSERVATION";
                     start := Some 3%Z; end_ := Some 3%Z |})] "1"
           {| text := "pneumonia "; etype := "OBSERVATION";
              start := Some 3%Z; end_ := Some 3%Z |}).
  - reflexivity.
  - simpl. constructor; [simpl; tauto|constructor].
  - reflexivity.
Defined.

Example demo_reports_grounded :
  map (map (fun p => (fst p, e_cui (snd p))))
      (snd (fst (ground_entities demo_matcher mrconso_demo demo_reports))) =
  [[("1", Some "C0032285"); ("2", None)]; [("1", Some "C0032285")]].
Proof. vm_compute. reflexivity. Qed.

(** X20: with the hints that [collect_mentions] merges, a candidate attached
    to an entity has passed the semantic-type filter for the type of some
    entity of the batch with the same normalized text, which need not be the
    entity itself nor one of the same report. *)
Theorem X20_candidates_pass_for_some_entity_type
  (self : matcher) (lines : list string)
  (all_entities : list (dict ExtractedEntity))
  (ents : dict ExtractedEntity) (ent_id : string) (ent : ExtractedEntity) (c : cand) :
  In ents all_entities -> In (ent_id, ent) ents ->
  has_text ent = true ->
  In c (e_cui_candidates
          (enrich_entity (fst (fst (ground_entities self lines all_entities))) ent)) ->
  exists ents' ent_id' ent',
    In ents' all_entities /\ In (ent_id', ent') ents' /\
    has_text ent' = true /\
    normalize_text (text ent') = normalize_text (text ent) /\
    _apply_mrsty_filter self (cui c) (etype ent') = true.
Proof.
  intros Hents Hent Ht Hc. unfold ground_entities in Hc.
  pose proof (enrich_entity_grounding self lines all_entities ents ent_id ent Hents Hent)
    as [_ E].
  destruct (collect_mentions all_entities) as [mentions mt] eqn:Ecm.
  cbn [fst snd] in Hc, E. rewrite E in Hc. clear E.
  apply list_elem_of_In in Hc. rewrite ground_alone_candidates in Hc.
  apply slice_to_elem in Hc. rewrite sort_by_perm in Hc.
  apply list_filter_elem in Hc as [_ Hc].
  pose proof (collect_mentions_hints all_entities (normalize_text (text ent)))
    as [_ Hh]. rewrite Ecm in Hh. cbn [snd] in Hh.
  assert (Hown : etype ent ∈ sorted_set (Spec.hints_of mt (normalize_text (text ent)))).
  { apply sorted_set_elem, list_elem_of_In, Hh. exists ents, ent_id, ent. auto. }
  unfold passes_filter in Hc.
  destruct (sorted_set _) as [|t0 ts] eqn:Ess; [inversion Hown|].
  apply existsb_exists in Hc as [t [Hin Hok]]. rewrite <- Ess in Hin.
  apply list_elem_of_In, sorted_set_elem, list_elem_of_In, Hh in Hin
    as [ents' [ent_id' [ent' [H1 [H2 [H3 [H4 H5]]]]]]].
  exists ents', ent_id', ent'. rewrite H5. auto.
Qed.

Lemma X20_candidates_pass_for_some_entity_type_witness :
  exists ents' ent_id' ent',
    In ents' demo_reports /\ In (ent_id', ent') ents' /\
    has_text ent' = true /\
    normalize_text (text ent') = normalize_text "Pneumonia" /\
    _apply_mrsty_filter typed_matcher (cui some_cand) (etype ent') = true.
Proof.
  apply (X20_candidates_pass_for_some_entity_type typed_matcher mrconso_demo demo_reports
           [("1", {| text := "Pneumonia"; etype := "ANATOMY";
                     start := Some 0%Z; end_ := Some 0%Z |});
            ("2", {| text := "  "; etype := "OBSERVATION";
                     start := Some 1%Z; end_ := Some 1%Z |})] "1"
           {| text := "Pneumonia"; etype := "ANATOMY";
              start := Some 0%Z; end_ := Some 0%Z |} some_cand).
  - simpl. auto.
  - simpl. auto.
  - reflexivity.
  - vm_compute. auto.
Defined.

(** The own type of the entity need not let the candidate through. *)
Example own_type_rejects :
  _apply_mrsty_filter typed_matcher (cui some_cand) "ANATOMY" = false /\
  _apply_mrsty_filter typed_matcher (cui some_cand) "OBSERVATION" = true.
Proof. vm_compute. split; reflexivity. Qed.

(** ** The coverage table of [run_pipeline] *)

Lemma coverage_alone self lines mentions mt :
  coverage (map_mentions_to_cui self lines mentions mt) =
  map (fun m => coverage_of m (Spec.ground_alone self lines mt m)) (sorted_set mentions).
Proof.
  rewrite map_mentions_to_cui_alone. unfold coverage. rewrite map_map. reflexivity.
Qed.

Lemma ground_alone_reason self lines mt m :
  excluded_reason (Spec.ground_alone self lines mt m) =
  if is_measurement_like (canonicalize_surface m) then Some "measurement_like" else None.
Proof.
  unfold Spec.ground_alone, finish_mention. rewrite build_keys_is_measurement.
  destruct (is_measurement_like _); reflexivity.
Qed.

Lemma ground_alone_measurement self lines mt m :
  is_measurement_like (canonicalize_surface m) = true ->
  candidates (Spec.ground_alone self lines mt m) = [].
Proof.
  intros H. unfold Spec.ground_alone, finish_mention.
  rewrite build_keys_is_measurement, H. reflexivity.
Qed.

(** X21: the coverage table has one row for each distinct mention, in sorted
    order, and its columns agree with one another: a row is mapped exactly
    when it counts at least one candidate, exactly when its four top columns
    are filled, and then its best CUI is set; the measurement column is set
    exactly when the exclusion reason is, and such a row is never mapped. *)
Theorem X21_coverage_rows_agree
  (self : matcher) (lines mentions : list string)
  (mention_types : gmap string (list string)) :
  let rows := coverage (map_mentions_to_cui self lines mentions mention_types) in
  map cov_mention rows = sorted_set mentions /\
  Forall (fun r =>
    (cov_mapped r = true <-> 0 < cov_num_candidates r) /\
    (cov_mapped r = true <-> is_Some (cov_best_cui r)) /\
    (cov_mapped r = true <-> is_Some (cov_top_sab r)) /\
    (cov_mapped r = true <-> is_Some (cov_top_tty r)) /\
    (cov_mapped r = true <-> is_Some (cov_top_match_type r)) /\
    (cov_mapped r = true <-> is_Some (cov_top_matched_key r)) /\
    (cov_is_measurement r = true <-> cov_excluded_reason r = Some "measurement_like") /\
    (cov_is_measurement r = false <-> cov_excluded_reason r = None) /\
    (cov_is_measurement r = true -> cov_mapped r = false)) rows.
Proof.
  intros rows. subst rows. rewrite coverage_alone. split.
  - rewrite map_map. simpl. apply map_id.
  - apply Forall_forall. intros r Hr. apply list_elem_of_In, in_map_iff in Hr as [m [<- _]].
    unfold coverage_of.
    cbn [cov_mapped cov_num_candidates cov_best_cui cov_top_sab cov_top_tty
         cov_top_match_type cov_top_matched_key cov_is_measurement cov_excluded_reason].
    rewrite ground_alone_best, ground_alone_reason.
    destruct (is_measurement_like (canonicalize_surface m)) eqn:Hm.
    + rewrite (ground_alone_measurement _ _ _ _ Hm). simpl.
      repeat split; intros H; try done; try lia; by inversion H.
    + destruct (candidates _) as [|c cs]; simpl;
        repeat split; intros H; try done; try lia; try (by inversion H); eauto.
Qed.

(* ================================================================== *)
(** * Properties of the graph builder *)
(* ================================================================== *)

Example build_graph_demo :
  option_map (fun g => (GraphBuilder.node_names g, GraphBuilder.edge_index g,
                        GraphBuilder.edge_attr g))
    (GraphBuilder.build_graph (GraphBuilder.init None None) demo_features demo_triplets) =
  Some (["left lung"; "mild"; "opacity"; "pneumonia"],
        [(2, 0); (2, 3); (1, 2); (0, 0); (1, 1); (2, 2); (3, 3)]%Z,
        [0; 2; 3; 0; 0; 0; 0]%Z).
Proof. vm_compute. reflexivity. Qed.

(** ** The index of the node names *)

Lemma enumerate_from_names {A} k (l : list A) : map snd (GraphBuilder.enumerate_from k l) = l.
Proof. revert k. induction l as [|a l IH]; intros k; simpl; [|rewrite IH]; reflexivity. Qed.

Lemma index_fold names k (acc : dict Z) :
  NoDup (map fst acc ++ names) ->
  fold_left (fun d '(i, name) => dict_set name i d) (GraphBuilder.enumerate_from k names) acc =
  acc ++ map (fun p => (snd p, fst p)) (GraphBuilder.enumerate_from k names).
Proof.
  revert k acc. induction names as [|n names IH]; intros k acc H; simpl.
  - rewrite app_nil_r. reflexivity.
  - apply NoDup_app in H as [Hacc [Hdis Hn]]. apply NoDup_cons in Hn as [Hn Hnames].
    rewrite dict_set_fresh.
    + rewrite IH.
      * rewrite <- app_assoc. reflexivity.
      * rewrite map_app. simpl. apply NoDup_app. split; [|split].
        -- apply NoDup_app. split; [exact Hacc|]. split; [|apply NoDup_singleton].
           intros y Hy Hy'. apply list_elem_of_singleton in Hy'. subst y.
           apply (Hdis n Hy). constructor.
        -- intros y Hy Hy'. apply elem_of_app in Hy as [Hy|Hy].
           ++ apply (Hdis y Hy). constructor. exact Hy'.
           ++ apply list_elem_of_singleton in Hy. subst y. contradiction.
        -- exact Hnames.
    + intros Hin. apply (Hdis n); [apply list_elem_of_In, Hin|constructor].
Qed.

Lemma index_entities_items names :
  NoDup names ->
  GraphBuilder.index_entities names =
  map (fun p => (snd p, fst p)) (GraphBuilder.enumerate names).
Proof.
  intros H. unfold GraphBuilder.index_entities, GraphBuilder.enumerate.
  rewrite index_fold; [reflexivity|exact H].
Qed.

Lemma dict_get_enumerated names k name i :
  NoDup names ->
  dict_get name (map (fun p => (snd p, fst p)) (GraphBuilder.enumerate_from k names)) = Some i <->
  exists p : nat, i = (k + Z.of_nat p)%Z /\ names !! p = Some name.
Proof.
  revert k. induction names as [|n names IH]; intros k Hnd; simpl.
  - split; [discriminate|]. intros [p [_ H]]. discriminate.
  - apply NoDup_cons in Hnd as [Hn Hnd].
    destruct (String.eqb_spec name n) as [->|Hne].
    + split.
      * intros [= <-]. exists 0%nat. split; [lia|reflexivity].
      * intros [[|p] [-> H]]; [f_equal; lia|]. simpl in H.
        exfalso. apply Hn. eapply list_elem_of_lookup_2, H.
    + rewrite (IH (k + 1)%Z Hnd). split.
      * intros [p [-> H]]. exists (S p). split; [lia|exact H].
      * intros [[|p] [-> H]]; simpl in H; [congruence|].
        exists p. split; [lia|exact H].
Qed.

(** The index of a name is its position in the list of names. *)
Lemma index_entities_lookup names name i :
  NoDup names ->
  dict_get name (GraphBuilder.index_entities names) = Some i <->
  exists p : nat, i = Z.of_nat p /\ names !! p = Some name.
Proof.
  intros H. rewrite index_entities_items by assumption.
  unfold GraphBuilder.enumerate. rewrite dict_get_enumerated by assumption.
  split; intros [p [-> Hp]]; exists p; (split; [lia|exact Hp]).
Qed.

Lemma index_entities_total names name :
  NoDup names -> name ∈ names ->
  exists i, dict_get name (GraphBuilder.index_entities names) = Some i.
Proof.
  intros Hnd Hin. apply list_elem_of_lookup_1 in Hin as [p Hp].
  exists (Z.of_nat p). apply index_entities_lookup; eauto.
Qed.

Lemma unique_entities_NoDup triplets : NoDup (GraphBuilder.unique_entities triplets).
Proof. apply sorted_set_NoDup. Qed.

Lemma unique_entities_ends triplets t :
  In t triplets ->
  GraphBuilder.head t ∈ GraphBuilder.unique_entities triplets /\
  GraphBuilder.tail t ∈ GraphBuilder.unique_entities triplets.
Proof.
  intros H. unfold GraphBuilder.unique_entities.
  split; apply sorted_set_elem, elem_of_app; [left|right];
    apply list_elem_of_In, in_map, H.
Qed.

(** ** The edge lists *)

Lemma add_edges_fold self names triplets sources targets types :
  (forall t, In t triplets ->
     is_Some (dict_get (GraphBuilder.head t) (GraphBuilder.index_entities names)) /\
     is_Some (dict_get (GraphBuilder.tail t) (GraphBuilder.index_entities names))) ->
  fold_left (GraphBuilder.add_edges self (GraphBuilder.index_entities names)) triplets
    (Some (sources, targets, types)) =
  let es := flat_map (triplet_edges self names) triplets in
  Some (sources ++ map (fun e => fst (fst e)) es,
        targets ++ map (fun e => snd (fst e)) es,
        types ++ map snd es).
Proof.
  revert sources targets types.
  induction triplets as [|t triplets IH]; intros sources targets types H.
  - simpl. rewrite !app_nil_r. reflexivity.
  - cbn [fold_left flat_map].
    destruct (H t (or_introl eq_refl)) as [[i Hi] [j Hj]].
    assert (Et : triplet_edges self names t =
              (i, j, GraphBuilder.relation_type (GraphBuilder.relation t)) ::
              (if GraphBuilder.bidirectional self
               then [(j, i, GraphBuilder.relation_type (GraphBuilder.relation t))] else []))
      by (unfold triplet_edges; rewrite Hi, Hj; reflexivity).
    rewrite Et. unfold GraphBuilder.add_edges at 2. rewrite Hi, Hj.
    destruct (GraphBuilder.bidirectional self); rewrite IH by (intros; apply H; right; assumption);
      cbn zeta; simpl; rewrite <- !app_assoc; reflexivity.
Qed.

Lemma combine_columns (es : list (Z * Z * Z)) :
  combine (map (fun e => fst (fst e)) es) (map (fun e => snd (fst e)) es) = map fst es.
Proof.
  induction es as [|[[s d] a] es IH]; simpl; [|rewrite IH]; reflexivity.
Qed.

Lemma combine_app {A B} (l1 l2 : list A) (r1 r2 : list B) :
  length l1 = length r1 ->
  combine (l1 ++ l2) (r1 ++ r2) = combine l1 r1 ++ combine l2 r2.
Proof.
  revert r1. induction l1 as [|a l1 IH]; intros [|b r1] H; simpl in *; try discriminate;
    [reflexivity|]. rewrite IH by lia. reflexivity.
Qed.

Lemma loops_columns n :
  map fst (map (fun i => (i, i, 0%Z)) (GraphBuilder.range n)) =
  map (fun i => (i, i)) (GraphBuilder.range n).
Proof. rewrite map_map. reflexivity. Qed.

Lemma loops_types n :
  map snd (map (fun i : Z => (i, i, 0%Z)) (GraphBuilder.range n)) = repeat 0%Z n.
Proof.
  unfold GraphBuilder.range. rewrite !map_map. cbn [snd].
  generalize 0%nat. induction n as [|n IH]; intros k; simpl; [|rewrite IH]; reflexivity.
Qed.

(** What [build_graph] returns. *)
Lemma build_graph_result {X} self (node_features : list string -> option X) triplets :
  GraphBuilder.build_graph self node_features triplets =
  match node_features (GraphBuilder.unique_entities triplets) with
  | None => None
  | Some feats =>
      let names := GraphBuilder.unique_entities triplets in
      Some {| GraphBuilder.x := feats;
              GraphBuilder.edge_index := map fst (graph_edges self triplets);
              GraphBuilder.edge_attr := map snd (graph_edges self triplets);
              GraphBuilder.node_names := names;
              GraphBuilder.entity_to_idx := Some (GraphBuilder.index_entities names);
              GraphBuilder.idx_to_entity :=
                GraphBuilder.invert (GraphBuilder.index_entities names);
              GraphBuilder.num_relation_types := 4 |}
  end.
Proof.
  unfold GraphBuilder.build_graph.
  destruct (node_features _) as [feats|]; [|reflexivity].
  rewrite add_edges_fold.
  - cbn zeta. cbn [app]. rewrite combine_columns. unfold graph_edges.
    destruct (GraphBuilder.add_self_loops self).
    + rewrite !map_app, loops_columns, loops_types. reflexivity.
    + rewrite !app_nil_r. reflexivity.
  - intros t Ht. destruct (unique_entities_ends triplets t Ht) as [Hh Htl].
    split; apply index_entities_total; auto using unique_entities_NoDup.
Qed.

Lemma range_elem n i : In i (GraphBuilder.range n) <-> (0 <= i < Z.of_nat n)%Z.
Proof.
  unfold GraphBuilder.range. rewrite in_map_iff. split.
  - intros [p [<- Hp]]. apply in_seq in Hp. lia.
  - intros H. exists (Z.to_nat i). split; [lia|]. apply in_seq. lia.
Qed.

Lemma index_in_range names name i :
  NoDup names ->
  dict_get name (GraphBuilder.index_entities names) = Some i ->
  (0 <= i < Z.of_nat (length names))%Z.
Proof.
  intros Hnd H. apply index_entities_lookup in H as [p [-> Hp]]; [|exact Hnd].
  apply lookup_lt_Some in Hp. lia.
Qed.

Lemma index_injective names a b i :
  NoDup names ->
  dict_get a (GraphBuilder.index_entities names) = Some i ->
  dict_get b (GraphBuilder.index_entities names) = Some i ->
  a = b.
Proof.
  intros Hnd Ha Hb.
  apply index_entities_lookup in Ha as [p [-> Hp]]; [|exact Hnd].
  apply index_entities_lookup in Hb as [q [E Hq]]; [|exact Hnd].
  assert (p = q) by lia. subst q. congruence.
Qed.

(** The edges of one triplet. *)
Lemma triplet_edges_elem self names t e :
  In e (triplet_edges self names t) <->
  exists i j,
    dict_get (GraphBuilder.head t) (GraphBuilder.index_entities names) = Some i /\
    dict_get (GraphBuilder.tail t) (GraphBuilder.index_entities names) = Some j /\
    (e = (i, j, GraphBuilder.relation_type (GraphBuilder.relation t)) \/
     GraphBuilder.bidirectional self = true /\
     e = (j, i, GraphBuilder.relation_type (GraphBuilder.relation t))).
Proof.
  unfold triplet_edges.
  destruct (dict_get (GraphBuilder.head t) _) as [i|];
    [destruct (dict_get (GraphBuilder.tail t) _) as [j|]|].
  - split.
    + intros [<-|H]; [exists i, j; auto|].
      destruct (GraphBuilder.bidirectional self); [|destruct H].
      destruct H as [<-|[]]. exists i, j. auto.
    + intros [i' [j' [[= <-] [[= <-] [->|[Hb ->]]]]]]; [left; reflexivity|].
      right. rewrite Hb. left. reflexivity.
  - split; [intros []|]. intros [i' [j' [_ [H _]]]]. discriminate.
  - split; [intros []|]. intros [i' [j' [H _]]]. discriminate.
Qed.

Lemma triplet_edges_length self names t :
  is_Some (dict_get (GraphBuilder.head t) (GraphBuilder.index_entities names)) ->
  is_Some (dict_get (GraphBuilder.tail t) (GraphBuilder.index_entities names)) ->
  length (triplet_edges self names t) =
  if GraphBuilder.bidirectional self then 2 else 1.
Proof.
  intros [i Hi] [j Hj]. unfold triplet_edges. rewrite Hi, Hj.
  destruct (GraphBuilder.bidirectional self); reflexivity.
Qed.

Lemma flat_map_length_const {A B} (f : A -> list B) l k :
  (forall a, In a l -> length (f a) = k) -> length (flat_map f l) = length l * k.
Proof.
  intros H. induction l as [|a l IH]; simpl; [reflexivity|].
  rewrite length_app, (H a) by (left; reflexivity).
  rewrite IH; [reflexivity|]. intros b Hb. apply H. right. exact Hb.
Qed.

Lemma relation_type_range rel : (0 <= GraphBuilder.relation_type rel < 4)%Z.
Proof.
  unfold GraphBuilder.relation_type, GraphBuilder.RELATION_MAP. simpl.
  repeat (destruct (String.eqb rel _); [simpl; lia|]). simpl. lia.
Qed.

(** The loop of [get_node_neighbors] over edge lists of equal length. *)
Lemma scan_edges_filter pre (es : list (Z * Z * Z)) node_idx rel :
  GraphBuilder.scan_edges (length pre) (map fst es) (pre ++ map snd es) node_idx rel =
  Some (map (fun e => snd (fst e))
          (List.filter (fun e => Z.eqb (fst (fst e)) node_idx && answers rel (snd e)) es)).
Proof.
  revert pre. induction es as [|[[s d] a] es IH]; intros pre; [reflexivity|].
  assert (Hnext : GraphBuilder.scan_edges (S (length pre)) (map fst es)
                    (pre ++ a :: map snd es) node_idx rel =
                  Some (map (fun e => snd (fst e))
                    (List.filter (fun e => Z.eqb (fst (fst e)) node_idx && answers rel (snd e))
                       es))).
  { rewrite <- (IH (pre ++ [a])). rewrite length_app, <- app_assoc. simpl.
    replace (length pre + 1) with (S (length pre)) by lia. reflexivity. }
  cbn [map fst snd GraphBuilder.scan_edges List.filter].
  destruct (Z.eqb s node_idx); cbn [andb]; [|exact Hnext].
  destruct rel as [r|]; cbn [answers].
  - rewrite list_lookup_middle by reflexivity.
    destruct (Z.eqb a r); rewrite Hnext; reflexivity.
  - rewrite Hnext. reflexivity.
Qed.

(** X22: [build_graph] fails only where the node-feature step does: the
    lookups of the head and the tail of a triplet in the index of entity
    names never raise. *)
Theorem X22_build_graph_index_lookups_succeed
  {X : Type} (self : GraphBuilder.builder) (node_features : list string -> option X)
  (triplets : list GraphBuilder.triplet) :
  GraphBuilder.build_graph self node_features triplets = None <->
  node_features (GraphBuilder.unique_entities triplets) = None.
Proof.
  rewrite build_graph_result. destruct (node_features _); split; intros H;
    (reflexivity || discriminate).
Qed.

(** X23: the node names of a built graph are the heads and tails of the
    triplets, each once, in ascending order. *)
Theorem X23_node_names_are_the_entities
  {X : Type} (self : GraphBuilder.builder) (node_features : list string -> option X)
  (triplets : list GraphBuilder.triplet) (g : GraphBuilder.graph X) :
  GraphBuilder.build_graph self node_features triplets = Some g ->
  List.NoDup (GraphBuilder.node_names g) /\
  StronglySorted (fun a b => String.leb a b = true) (GraphBuilder.node_names g) /\
  forall name,
    In name (GraphBuilder.node_names g) <->
    exists t, In t triplets /\
              (GraphBuilder.head t = name \/ GraphBuilder.tail t = name).
Proof.
  rewrite build_graph_result. destruct (node_features _); [|discriminate].
  intros [= <-]. cbn [GraphBuilder.node_names]. split; [|split].
  - apply NoDup_ListNoDup, unique_entities_NoDup.
  - apply sorted_set_sorted.
  - intros name. unfold GraphBuilder.unique_entities.
    rewrite <- list_elem_of_In, sorted_set_elem, list_elem_of_In, in_app_iff, !in_map_iff.
    split.
    + intros [[t [E Ht]]|[t [E Ht]]]; exists t; auto.
    + intros [t [Ht [E|E]]]; [left|right]; exists t; auto.
Qed.

Lemma X23_node_names_are_the_entities_witness :
  exists g,
    GraphBuilder.build_graph (GraphBuilder.init None None) demo_features demo_triplets
      = Some g /\
    List.NoDup (GraphBuilder.node_names g) /\
    StronglySorted (fun a b => String.leb a b = true) (GraphBuilder.node_names g) /\
    forall name,
      In name (GraphBuilder.node_names g) <->
      exists t, In t demo_triplets /\
                (GraphBuilder.head t = name \/ GraphBuilder.tail t = name).
Proof.
  eexists. split; [vm_compute; reflexivity|].
  apply (X23_node_names_are_the_entities (GraphBuilder.init None None) demo_features
           demo_triplets).
  vm_compute. reflexivity.
Defined.

Lemma enumerated_elem (names : list string) k (name : string) i :
  In (name, i) (map (fun p => (snd p, fst p)) (GraphBuilder.enumerate_from k names)) <->
  exists p : nat, i = (k + Z.of_nat p)%Z /\ names !! p = Some name.
Proof.
  revert k. induction names as [|n names IH]; intros k; simpl.
  - split; [intros []|]. intros [p [_ H]]. discriminate.
  - rewrite IH. split.
    + intros [[= -> ->]|[p [-> H]]].
      * exists 0%nat. split; [lia|reflexivity].
      * exists (S p). split; [lia|exact H].
    + intros [[|p] [-> H]]; simpl in H.
      * left. injection H as ->. f_equal. lia.
      * right. exists p. split; [lia|exact H].
Qed.

Lemma enumerated_indices (names : list string) k :
  NoDup (map snd (map (fun p : Z * string => (snd p, fst p))
                    (GraphBuilder.enumerate_from k names))).
Proof.
  revert k. induction names as [|n names IH]; intros k; simpl; [constructor|].
  apply NoDup_cons. split; [|apply IH].
  intros H. apply list_elem_of_In, in_map_iff in H as [[name i] [E H]]. simpl in E. subst i.
  apply enumerated_elem in H as [p [E _]]. lia.
Qed.

Lemma invert_fold (d : dict Z) (acc : gmap Z string) v k :
  NoDup (map snd d) ->
  fold_left (fun m '(k, v) => <[v := k]> m) d acc !! v = Some k <->
  In (k, v) d \/ (~ In v (map snd d) /\ acc !! v = Some k).
Proof.
  revert acc. induction d as [|[k0 v0] d IH]; intros acc Hnd; simpl.
  - tauto.
  - apply NoDup_cons in Hnd as [Hv0 Hnd]. rewrite IH by assumption.
    destruct (decide (v = v0)) as [->|Hne].
    + rewrite lookup_insert_eq. split.
      * intros [H|[_ [= ->]]]; [|auto].
        exfalso. apply Hv0, list_elem_of_In, in_map_iff. exists (k, v0). auto.
      * intros [[[= -> ]|H]|[H _]].
        -- right. split; [|reflexivity]. intros H. apply Hv0, list_elem_of_In, H.
        -- exfalso. apply Hv0, list_elem_of_In, in_map_iff. exists (k, v0). auto.
        -- exfalso. auto.
    + rewrite lookup_insert_ne by congruence. split.
      * intros [H|[H1 H2]]; [auto|]. right. split; [|exact H2]. intros [E|H]; auto.
      * intros [[[= _ E]|H]|[H1 H2]]; [congruence|auto|]. right. split; [|exact H2]. auto.
Qed.

Lemma invert_index names i name :
  NoDup names ->
  GraphBuilder.invert (GraphBuilder.index_entities names) !! i = Some name <->
  dict_get name (GraphBuilder.index_entities names) = Some i.
Proof.
  intros Hnd. unfold GraphBuilder.invert.
  rewrite index_entities_lookup by assumption.
  rewrite index_entities_items by assumption.
  rewrite invert_fold by apply enumerated_indices.
  unfold GraphBuilder.enumerate. rewrite enumerated_elem, lookup_empty. split.
  - intros [[p [-> H]]|[_ H]]; [|discriminate]. exists p. split; [lia|exact H].
  - intros [p [-> H]]. left. exists p. split; [lia|exact H].
Qed.

(** X24: in a built graph, names and indices are inverse to each other:
    [get_node_by_name] gives the position of a name in [node_names], a
    non-negative index below the number of nodes, and nothing for a name
    that is not a node; [idx_to_entity] gives the name back. *)
Theorem X24_names_and_indices_round_trip
  {X : Type} (self : GraphBuilder.builder) (node_features : list string -> option X)
  (triplets : list GraphBuilder.triplet) (g : GraphBuilder.graph X)
  (name : string) (i : Z) :
  GraphBuilder.build_graph self node_features triplets = Some g ->
  (GraphBuilder.get_node_by_name g name = Some i <->
   (0 <= i)%Z /\ GraphBuilder.node_names g !! Z.to_nat i = Some name) /\
  (GraphBuilder.idx_to_entity g !! i = Some name <->
   GraphBuilder.get_node_by_name g name = Some i) /\
  (GraphBuilder.get_node_by_name g name = None <->
   ~ In name (GraphBuilder.node_names g)).
Proof.
  rewrite build_graph_result. destruct (node_features _); [|discriminate].
  intros [= <-]. unfold GraphBuilder.get_node_by_name.
  cbn [GraphBuilder.node_names GraphBuilder.entity_to_idx GraphBuilder.idx_to_entity].
  pose proof (unique_entities_NoDup triplets) as Hnd.
  split; [|split].
  - rewrite index_entities_lookup by assumption. split.
    + intros [p [-> Hp]]. rewrite Nat2Z.id. split; [lia|exact Hp].
    + intros [Hi Hp]. exists (Z.to_nat i). split; [lia|exact Hp].
  - apply invert_index, Hnd.
  - split.
    + intros H Hin. apply list_elem_of_In in Hin.
      destruct (index_entities_total _ _ Hnd Hin) as [j Hj]. congruence.
    + intros H. destruct (dict_get name _) as [j|] eqn:E; [|reflexivity].
      exfalso. apply H. apply index_entities_lookup in E as [p [_ Hp]]; [|exact Hnd].
      apply list_elem_of_In. eapply list_elem_of_lookup_2, Hp.
Qed.

Lemma X24_names_and_indices_round_trip_witness :
  exists g,
    GraphBuilder.build_graph (GraphBuilder.init None None) demo_features demo_triplets
      = Some g /\
    (GraphBuilder.get_node_by_name g "opacity" = Some 2%Z <->
     (0 <= 2)%Z /\ GraphBuilder.node_names g !! Z.to_nat 2 = Some "opacity") /\
    (GraphBuilder.idx_to_entity g !! 2%Z = Some "opacity" <->
     GraphBuilder.get_node_by_name g "opacity" = Some 2%Z) /\
    (GraphBuilder.get_node_by_name g "opacity" = None <->
     ~ In "opacity" (GraphBuilder.node_names g)).
Proof.
  eexists. split; [vm_compute; reflexivity|].
  apply (X24_names_and_indices_round_trip (GraphBuilder.init None None) demo_features
           demo_triplets).
  vm_compute. reflexivity.
Defined.

Lemma graph_edges_elem self triplets e :
  In e (graph_edges self triplets) <->
  (exists t, In t triplets /\
             In e (triplet_edges self (GraphBuilder.unique_entities triplets) t)) \/
  (GraphBuilder.add_self_loops self = true /\
   exists i, (0 <= i < Z.of_nat (length (GraphBuilder.unique_entities triplets)))%Z /\
             e = (i, i, 0%Z)).
Proof.
  unfold graph_edges. cbn zeta. rewrite in_app_iff, in_flat_map.
  destruct (GraphBuilder.add_self_loops self).
  - rewrite in_map_iff. split.
    + intros [H|[i [<- Hi]]]; [auto|]. right. split; [reflexivity|].
      exists i. split; [apply range_elem, Hi|reflexivity].
    + intros [H|[_ [i [Hi ->]]]]; [auto|]. right. exists i.
      split; [reflexivity|apply range_elem, Hi].
  - split; [intros [H|[]]; auto|]. intros [H|[H _]]; [auto|discriminate].
Qed.

(** X25: the edge tensors of a built graph are well formed: one edge type
    for each column; one column for each triplet, two if the builder is
    bidirectional, and one more for each node if it adds self-loops; every
    endpoint is the index of a node and every edge type is below the number
    of relation types. *)
Theorem X25_edges_are_well_formed
  {X : Type} (self : GraphBuilder.builder) (node_features : list string -> option X)
  (triplets : list GraphBuilder.triplet) (g : GraphBuilder.graph X) :
  GraphBuilder.build_graph self node_features triplets = Some g ->
  let n := length (GraphBuilder.node_names g) in
  length (GraphBuilder.edge_attr g) = length (GraphBuilder.edge_index g) /\
  length (GraphBuilder.edge_index g) =
    length triplets * (if GraphBuilder.bidirectional self then 2 else 1) +
    (if GraphBuilder.add_self_loops self then n else 0) /\
  Forall (fun c => (0 <= fst c < Z.of_nat n)%Z /\ (0 <= snd c < Z.of_nat n)%Z)
         (GraphBuilder.edge_index g) /\
  Forall (fun a => (0 <= a < GraphBuilder.num_relation_types g)%Z)
         (GraphBuilder.edge_attr g).
Proof.
  rewrite build_graph_result. destruct (node_features _); [|discriminate].
  intros [= <-].
  cbn [GraphBuilder.node_names GraphBuilder.edge_index GraphBuilder.edge_attr
       GraphBuilder.num_relation_types].
  pose proof (unique_entities_NoDup triplets) as Hnd.
  assert (Hedge : forall e, In e (graph_edges self triplets) ->
            (0 <= fst (fst e) < Z.of_nat (length (GraphBuilder.unique_entities triplets)))%Z /\
            (0 <= snd (fst e) < Z.of_nat (length (GraphBuilder.unique_entities triplets)))%Z /\
            (0 <= snd e < 4)%Z).
  { intros e He. apply graph_edges_elem in He as [[t [Ht He]]|[_ [i [Hi ->]]]].
    - apply triplet_edges_elem in He as [i [j [Hi [Hj He]]]].
      apply index_in_range in Hi; [|exact Hnd]. apply index_in_range in Hj; [|exact Hnd].
      pose proof (relation_type_range (GraphBuilder.relation t)).
      destruct He as [->|[_ ->]]; simpl; auto.
    - simpl. repeat split; lia. }
  cbn zeta. split; [|split; [|split]].
  - rewrite !length_map. reflexivity.
  - rewrite length_map. unfold graph_edges. cbn zeta. rewrite length_app.
    rewrite (flat_map_length_const _ _
               (if GraphBuilder.bidirectional self then 2 else 1)).
    + f_equal. destruct (GraphBuilder.add_self_loops self); [|reflexivity].
      unfold GraphBuilder.range. rewrite !length_map, length_seq. reflexivity.
    + intros t Ht. destruct (unique_entities_ends triplets t Ht) as [Hh Htl].
      apply triplet_edges_length; apply index_entities_total; auto.
  - apply Forall_forall. intros c Hc. apply list_elem_of_In, in_map_iff in Hc as [e [<- He]].
    destruct (Hedge e He) as [H1 [H2 _]]. auto.
  - apply Forall_forall. intros a Ha. apply list_elem_of_In, in_map_iff in Ha as [e [<- He]].
    destruct (Hedge e He) as [_ [_ H3]]. exact H3.
Qed.

Lemma X25_edges_are_well_formed_witness :
  exists g,
    GraphBuilder.build_graph (GraphBuilder.init None (Some true)) demo_features
      demo_triplets = Some g /\
    let n := length (GraphBuilder.node_names g) in
    length (GraphBuilder.edge_attr g) = length (GraphBuilder.edge_index g) /\
    length (GraphBuilder.edge_index g) = length demo_triplets * 2 + n /\
    Forall (fun c => (0 <= fst c < Z.of_nat n)%Z /\ (0 <= snd c < Z.of_nat n)%Z)
           (GraphBuilder.edge_index g) /\
    Forall (fun a => (0 <= a < GraphBuilder.num_relation_types g)%Z)
           (GraphBuilder.edge_attr g).
Proof.
  eexists. split; [vm_compute; reflexivity|].
  apply (X25_edges_are_well_formed (GraphBuilder.init None (Some true)) demo_features
           demo_triplets).
  vm_compute. reflexivity.
Defined.

Lemma neighbours_elem (es : list (Z * Z * Z)) node_idx rel j :
  In j (map (fun e => snd (fst e))
          (List.filter (fun e => Z.eqb (fst (fst e)) node_idx && answers rel (snd e)) es)) <->
  exists a, In (node_idx, j, a) es /\ answers rel a = true.
Proof.
  rewrite in_map_iff. split.
  - intros [[[s d] a] [<- H]]. apply filter_In in H as [H Hsel]. simpl in Hsel.
    apply andb_prop in Hsel as [Hs Ha]. apply Z.eqb_eq in Hs. subst s.
    exists a. auto.
  - intros [a [H Ha]]. exists (node_idx, j, a). split; [reflexivity|].
    apply filter_In. split; [exact H|]. simpl. rewrite Z.eqb_refl, Ha. reflexivity.
Qed.

(** X26: in a built graph, [get_node_neighbors] returns for a node and a
    relation type the nodes that a triplet of that type relates it to: the
    tails of the triplets it heads, also the heads of the triplets it ends
    if the builder is bidirectional, and, if the builder adds self-loops and
    the query is for any type or for type 0, the node itself.  Type 0 is the
    type of [located_at], and a relation outside [RELATION_MAP] counts as
    type 3, that of [associated_with]. *)
Theorem X26_neighbours_are_the_related_entities
  {X : Type} (self : GraphBuilder.builder) (node_features : list string -> option X)
  (triplets : list GraphBuilder.triplet) (g : GraphBuilder.graph X)
  (a b : string) (i j : Z) (rel : option Z) :
  GraphBuilder.build_graph self node_features triplets = Some g ->
  GraphBuilder.get_node_by_name g a = Some i ->
  GraphBuilder.get_node_by_name g b = Some j ->
  exists ns,
    GraphBuilder.get_node_neighbors g i rel = Some ns /\
    (In j ns <->
     (exists t, In t triplets /\ GraphBuilder.head t = a /\ GraphBuilder.tail t = b /\
                answers rel (GraphBuilder.relation_type (GraphBuilder.relation t)) = true) \/
     (GraphBuilder.bidirectional self = true /\
      exists t, In t triplets /\ GraphBuilder.head t = b /\ GraphBuilder.tail t = a /\
                answers rel (GraphBuilder.relation_type (GraphBuilder.relation t)) = true) \/
     (GraphBuilder.add_self_loops self = true /\ a = b /\ answers rel 0%Z = true)).
Proof.
  rewrite build_graph_result. destruct (node_features _); [|discriminate].
  intros [= <-]. unfold GraphBuilder.get_node_by_name, GraphBuilder.get_node_neighbors.
  cbn [GraphBuilder.entity_to_idx GraphBuilder.edge_index GraphBuilder.edge_attr].
  intros Ha Hb. pose proof (unique_entities_NoDup triplets) as Hnd.
  eexists. split; [apply (scan_edges_filter [])|].
  rewrite neighbours_elem. split.
  - intros [r [He Hr]].
    apply graph_edges_elem in He as [[t [Ht He]]|[Hloops [k [_ [= -> -> ->]]]]].
    + apply triplet_edges_elem in He as [i' [j' [Hi [Hj [[= -> -> ->]|[Hbi [= -> -> ->]]]]]]].
      * left. exists t. repeat split; [exact Ht| | |exact Hr].
        -- eapply index_injective; eauto.
        -- eapply index_injective; eauto.
      * right. left. split; [exact Hbi|]. exists t. repeat split; [exact Ht| | |exact Hr].
        -- eapply index_injective; eauto.
        -- eapply index_injective; eauto.
    + right. right. repeat split; [exact Hloops| |exact Hr].
      eapply index_injective; eauto.
  - intros [[t [Ht [<- [<- Hr]]]]|[[Hbi [t [Ht [<- [<- Hr]]]]]|[Hloops [<- Hr]]]].
    + exists (GraphBuilder.relation_type (GraphBuilder.relation t)). split; [|exact Hr].
      apply graph_edges_elem. left. exists t. split; [exact Ht|].
      apply triplet_edges_elem. exists i, j. auto.
    + exists (GraphBuilder.relation_type (GraphBuilder.relation t)). split; [|exact Hr].
      apply graph_edges_elem. left. exists t. split; [exact Ht|].
      apply triplet_edges_elem. exists j, i. auto.
    + exists 0%Z. split; [|exact Hr]. apply graph_edges_elem. right.
      split; [exact Hloops|]. assert (i = j) by congruence. subst j.
      exists i. split; [|reflexivity]. eapply index_in_range; eauto.
Qed.

Lemma X26_neighbours_are_the_related_entities_witness :
  exists g,
    GraphBuilder.build_graph (GraphBuilder.init None None) demo_features demo_triplets
      = Some g /\
    exists ns,
      GraphBuilder.get_node_neighbors g 2%Z (Some 0%Z) = Some ns /\
      (In 2%Z ns <->
       (exists t, In t demo_triplets /\ GraphBuilder.head t = "opacity" /\
                  GraphBuilder.tail t = "opacity" /\
                  answers (Some 0%Z)
                    (GraphBuilder.relation_type (GraphBuilder.relation t)) = true) \/
       (GraphBuilder.bidirectional (GraphBuilder.init None None) = true /\
        exists t, In t demo_triplets /\ GraphBuilder.head t = "opacity" /\
                  GraphBuilder.tail t = "opacity" /\
                  answers (Some 0%Z)
                    (GraphBuilder.relation_type (GraphBuilder.relation t)) = true) \/
       (GraphBuilder.add_self_loops (GraphBuilder.init None None) = true /\
        "opacity" = "opacity" /\ answers (Some 0%Z) 0%Z = true)).
Proof.
  eexists. split; [vm_compute; reflexivity|].
  apply (X26_neighbours_are_the_related_entities (GraphBuilder.init None None)
           demo_features demo_triplets _ "opacity" "opacity" 2%Z 2%Z (Some 0%Z)).
  - vm_compute. reflexivity.
  - vm_compute. reflexivity.
  - vm_compute. reflexivity.
Defined.

(** The located-at neighbours of "opacity" in the demo graph: the lung it is
    located at, and "opacity" itself, by its self-loop. *)
Example located_at_neighbours_demo :
  (g ← GraphBuilder.build_graph (GraphBuilder.init None None) demo_features demo_triplets;
   GraphBuilder.get_node_neighbors g 2%Z
     (Some (GraphBuilder.relation_type "located_at"))) = Some [0; 2]%Z.
Proof. vm_compute. reflexivity. Qed.
